(** * AcousticTalk SDK: encoding, physical and MAC layers

    A shallow embedding of [layers/encoding.js] (classes [EncodingLayer] and
    [MACLayer]), of the symbol mapping of [layers/physical.js] and of the
    checksum and ring buffer of [utils/helpers.js], followed by the
    properties of frames, CRC-32, forward error correction, reassembly,
    symbol packing, slot assignment, the transmit queue and the ring buffer.

    JavaScript numbers that the code only uses as integers are [Z]; array
    indices and lengths are [nat]; a [Uint8Array] is a [list Z] whose stores
    wrap modulo 256. *)

From Stdlib Require Import String Ascii.
From Stdlib Require Import ZArith QArith Qround List Lia Bool Permutation Sorted.
Import ListNotations.
Local Close Scope string_scope.
Local Open Scope Z_scope.

(* ================================================================= *)
(** ** JavaScript integer operators *)

Module JS.

(** [ToInt32] and [ToUint32] of an integral number. *)
Definition toInt32 (z : Z) : Z := (z + 2^31) mod 2^32 - 2^31.
Definition toUint32 (z : Z) : Z := z mod 2^32.

(** [a & b], [a | b], [a ^ b]: both operands through [ToInt32], and a
    signed 32-bit result. *)
Definition band (a b : Z) : Z := toInt32 (Z.land (toInt32 a) (toInt32 b)).
Definition bor (a b : Z) : Z := toInt32 (Z.lor (toInt32 a) (toInt32 b)).
Definition bxor (a b : Z) : Z := toInt32 (Z.lxor (toInt32 a) (toInt32 b)).

(** [a << n] (result through [ToInt32]), [a >> n] (sign-propagating) and
    [a >>> n] (zero-fill, operand through [ToUint32]). *)
Definition shl (a n : Z) : Z := toInt32 (Z.shiftl (toInt32 a) (n mod 32)).
Definition sar (a n : Z) : Z := Z.shiftr (toInt32 a) (n mod 32).
Definition shr (a n : Z) : Z := Z.shiftr (toUint32 a) (n mod 32).

(** Truthiness of a number, and [x || d] for an option that may be absent. *)
Definition truthy (z : Z) : bool := negb (z =? 0).
Definition orDefault (o : option Z) (d : Z) : Z :=
  match o with
  | Some v => if truthy v then v else d
  | None => d
  end.

End JS.

(* ================================================================= *)
(** ** Typed arrays *)

(** A byte: the only values a [Uint8Array] holds. *)
Definition u8 (b : Z) : Prop := 0 <= b < 256.
Definition u8b (b : Z) : bool := (0 <=? b) && (b <? 256).
Definition bytes (a : list Z) : Prop := Forall u8 a.

(** [new Uint8Array(n)]. *)
Definition u8_new (n : nat) : list Z := repeat 0 n.

(** [a[i] = v] on a [Uint8Array]: the value wraps to a byte, a store past the
    end is dropped. *)
Fixpoint store (i : nat) (v : Z) (a : list Z) : list Z :=
  match a, i with
  | [], _ => []
  | _ :: t, O => (v mod 256) :: t
  | h :: t, S j => h :: store j v t
  end.

(** [a[i]]; a read past the end is [undefined], which every use below
    (bit operators, comparison with a magic byte) treats as 0. *)
Definition load (a : list Z) (i : nat) : Z := nth i a 0.

(** [a.slice(s, e)]. *)
Definition slice (a : list Z) (s e : nat) : list Z := firstn (e - s) (skipn s a).

(** [a.set(src, off)]; the callers allocate [a] so that [src] fits. *)
Definition set_from (a src : list Z) (off : nat) : list Z :=
  firstn off a ++ src ++ skipn (off + length src) a.

(** [n] applications of [f]: a counted [for] loop over a single variable. *)
Fixpoint iter {A : Type} (n : nat) (f : A -> A) (x : A) : A :=
  match n with
  | O => x
  | S k => iter k f (f x)
  end.

(** [Array.prototype.sort] with a comparator: a stable sort, here by
    insertion. *)
Fixpoint sortInsert {A : Type} (cmp : A -> A -> Z) (x : A) (l : list A) : list A :=
  match l with
  | [] => [x]
  | y :: t => if cmp x y <=? 0 then x :: y :: t else y :: sortInsert cmp x t
  end.

Fixpoint sortBy {A : Type} (cmp : A -> A -> Z) (l : list A) : list A :=
  match l with
  | [] => []
  | x :: t => sortInsert cmp x (sortBy cmp t)
  end.

(** Bit [bit] of byte [i] inverted, as a channel error would. *)
Definition flipBit (i : nat) (bit : Z) (a : list Z) : list Z :=
  store i (Z.lxor (load a i) (2 ^ bit)) a.

(** Position [j] of a grid read along rows of [b] cells, as the position of
    the same cell read along columns of [a] cells. *)
Definition transpose (a b j : nat) : nat := ((j mod b) * a + j / b)%nat.

(** A loop that stores [g i] at index [f i] for [i] from 0 to [n - 1]. *)
Definition scatter (f : nat -> nat) (g : nat -> Z) (n : nat) (init : list Z) : list Z :=
  fold_left (fun a i => store (f i) (g i) a) (seq 0 n) init.

(** The bytes of an ASCII string ([TextEncoder] on ASCII input). *)
Definition ascii_bytes (s : string) : list Z :=
  map (fun c => Z.of_nat (nat_of_ascii c)) (list_ascii_of_string s).

(* ================================================================= *)
(** ** Encoding layer *)

Module Encoding.

Definition MAX_PAYLOAD_SIZE : nat := 256.
Definition INTERLEAVE_DEPTH : nat := 8.
Definition MESSAGE_TYPES_DATA : Z := 0x02.

Record Stats := mkStats {
  bytesEncoded : Z;
  bytesDecoded : Z;
  framesCreated : Z;
  framesDecoded : Z;
  crcErrors : Z;
  correctedErrors : Z
}.

Record EncodingLayer := mkLayer {
  maxPayloadSize : nat;
  interleaveDepth : nat;
  stats : Stats
}.

(** [new EncodingLayer()] with no options. *)
Definition newLayer : EncodingLayer :=
  mkLayer MAX_PAYLOAD_SIZE INTERLEAVE_DEPTH (mkStats 0 0 0 0 0 0).

Definition withStats (self : EncodingLayer) (s : Stats) : EncodingLayer :=
  mkLayer (maxPayloadSize self) (interleaveDepth self) s.

(** *** CRC-32 *)

(** One round of the inner loop of [_generateCRCTable]. *)
Definition crcRound (crc : Z) : Z :=
  if JS.truthy (JS.band crc 1)
  then JS.bxor 0xEDB88320 (JS.shr crc 1)
  else JS.shr crc 1.

(** [_generateCRCTable]: entry [i] is stored into a [Uint32Array]. *)
Definition generateCRCTable : list Z :=
  map (fun i => JS.toUint32 (iter 8 crcRound (Z.of_nat i))) (seq 0 256).

Definition crcTable : list Z := generateCRCTable.

(** The body of the loop of [calculateCRC]. *)
Definition crcUpdate (table : list Z) (crc b : Z) : Z :=
  JS.bxor (nth (Z.to_nat (JS.band (JS.bxor crc b) 0xFF)) table 0) (JS.shr crc 8).

Definition calculateCRC_with (table : list Z) (data : list Z) : Z :=
  JS.shr (JS.bxor (fold_left (crcUpdate table) data 0xFFFFFFFF) 0xFFFFFFFF) 0.

Definition calculateCRC (data : list Z) : Z := calculateCRC_with crcTable data.

(** *** Frames *)

Record FrameOptions := mkOptions {
  opt_type : option Z;
  opt_sequence : option Z;
  opt_flags : option Z
}.

Definition noOptions : FrameOptions := mkOptions None None None.

(** [createFrame(payload, options)] for a [Uint8Array] payload. *)
Definition createFrame (payload : list Z) (options : FrameOptions)
    (self : EncodingLayer) : list Z * EncodingLayer :=
  let type := JS.orDefault (opt_type options) MESSAGE_TYPES_DATA in
  let sequence := JS.orDefault (opt_sequence options) 0 in
  let flags := JS.orDefault (opt_flags options) 0 in
  let payloadBytes := payload in
  let headerSize := 8%nat in
  let frameSize := (headerSize + length payloadBytes + 4)%nat in
  let frame := u8_new frameSize in
  let frame := store 0 0xAC frame in
  let frame := store 1 0x4D frame in
  let frame := store 2 type frame in
  let frame := store 3 flags frame in
  let frame := store 4 (JS.band (JS.sar sequence 8) 0xFF) frame in
  let frame := store 5 (JS.band sequence 0xFF) frame in
  let frame := store 6 (JS.band (JS.sar (Z.of_nat (length payloadBytes)) 8) 0xFF) frame in
  let frame := store 7 (JS.band (Z.of_nat (length payloadBytes)) 0xFF) frame in
  let frame := set_from frame payloadBytes headerSize in
  let crc := calculateCRC (slice frame 0 (headerSize + length payloadBytes)) in
  let frame := store (headerSize + length payloadBytes) (JS.band (JS.sar crc 24) 0xFF) frame in
  let frame := store (headerSize + length payloadBytes + 1) (JS.band (JS.sar crc 16) 0xFF) frame in
  let frame := store (headerSize + length payloadBytes + 2) (JS.band (JS.sar crc 8) 0xFF) frame in
  let frame := store (headerSize + length payloadBytes + 3) (JS.band crc 0xFF) frame in
  let s := stats self in
  (frame,
   withStats self
     (mkStats (bytesEncoded s + Z.of_nat frameSize) (bytesDecoded s)
        (framesCreated s + 1) (framesDecoded s) (crcErrors s) (correctedErrors s))).

(** The object [parseFrame] returns: a failure carries its [error] string and
    whether [correctable: true] is present. *)
Inductive ParseResult :=
| Invalid (error : string) (correctable : bool)
| Valid (type flags sequence : Z) (payload : list Z) (payloadLength : Z).

Definition FrameTooShort : ParseResult := Invalid "Frame too short" false.
Definition InvalidMagic : ParseResult := Invalid "Invalid magic bytes" false.
Definition FrameTruncated : ParseResult := Invalid "Frame truncated" false.
Definition CRCMismatch : ParseResult := Invalid "CRC mismatch" true.

(** The CRC as [parseFrame] reads it back: four bytes combined with [<<] and
    [|], hence a signed 32-bit number. *)
Definition receivedCRC (frame : list Z) (pl : nat) : Z :=
  JS.bor
    (JS.bor
       (JS.bor (JS.shl (load frame (8 + pl)) 24)
               (JS.shl (load frame (8 + pl + 1)) 16))
       (JS.shl (load frame (8 + pl + 2)) 8))
    (load frame (8 + pl + 3)).

(** [parseFrame(frame)]. *)
Definition parseFrame (frame : list Z) (self : EncodingLayer)
    : ParseResult * EncodingLayer :=
  if (length frame <? 12)%nat then (FrameTooShort, self) else
  if negb (load frame 0 =? 0xAC) || negb (load frame 1 =? 0x4D)
  then (InvalidMagic, self) else
  let type := load frame 2 in
  let flags := load frame 3 in
  let sequence := JS.bor (JS.shl (load frame 4) 8) (load frame 5) in
  let payloadLength := JS.bor (JS.shl (load frame 6) 8) (load frame 7) in
  let expectedLength := 8 + payloadLength + 4 in
  if Z.of_nat (length frame) <? expectedLength then (FrameTruncated, self) else
  let pl := Z.to_nat payloadLength in
  let payload := slice frame 8 (8 + pl) in
  let calculatedCRC := calculateCRC (slice frame 0 (8 + pl)) in
  let s := stats self in
  if negb (receivedCRC frame pl =? calculatedCRC)
  then (CRCMismatch,
        withStats self
          (mkStats (bytesEncoded s) (bytesDecoded s) (framesCreated s)
             (framesDecoded s) (crcErrors s + 1) (correctedErrors s)))
  else (Valid type flags sequence payload payloadLength,
        withStats self
          (mkStats (bytesEncoded s) (bytesDecoded s + Z.of_nat (length frame))
             (framesCreated s) (framesDecoded s + 1) (crcErrors s)
             (correctedErrors s))).

(** *** Forward error correction *)

(** [Math.ceil(a / b)] for a length [a] and a positive [b]. *)
Definition ceilDiv (a b : nat) : nat := ((a + b - 1) / b)%nat.

(** [_interleave(data)]: fill row by row, read column by column. *)
Definition interleave (depth : nat) (data : list Z) : list Z :=
  let numRows := ceilDiv (length data) depth in
  fold_left
    (fun interleaved i =>
       let row := (i / depth)%nat in
       let col := (i mod depth)%nat in
       let newIndex := (col * numRows + row)%nat in
       store newIndex (load data i) interleaved)
    (seq 0 (length data))
    (u8_new (numRows * depth)).

(** [_deinterleave(data)]. *)
Definition deinterleave (depth : nat) (data : list Z) : list Z :=
  let numRows := ceilDiv (length data) depth in
  fold_left
    (fun deinterleaved i =>
       let col := (i / numRows)%nat in
       let row := (i mod numRows)%nat in
       let originalIndex := (row * depth + col)%nat in
       if (originalIndex <? length data)%nat
       then store originalIndex (load data i) deinterleaved
       else deinterleaved)
    (seq 0 (length data))
    (u8_new (length data)).

(** The first loop of [applyFEC]: every byte three times. *)
Definition expand (data : list Z) : list Z :=
  fold_left
    (fun expanded i =>
       let expanded := store (i * 3) (load data i) expanded in
       let expanded := store (i * 3 + 1) (load data i) expanded in
       store (i * 3 + 2) (load data i) expanded)
    (seq 0 (length data))
    (u8_new (length data * 3)).

(** [applyFEC(data)]. *)
Definition applyFEC (data : list Z) (self : EncodingLayer) : list Z :=
  interleave (interleaveDepth self) (expand data).

(** One round of the bit loop of [decodeFEC], on the pair of [result] and
    [this.stats.correctedErrors]. *)
Definition voteBit (b1 b2 b3 : Z) (acc : Z * Z) (bit : nat) : Z * Z :=
  let '(result, corrected) := acc in
  let mask := JS.shl 1 (Z.of_nat bit) in
  let votes :=
    (if JS.truthy (JS.band b1 mask) then 1 else 0) +
    (if JS.truthy (JS.band b2 mask) then 1 else 0) +
    (if JS.truthy (JS.band b3 mask) then 1 else 0) in
  if 2 <=? votes
  then (JS.bor result mask, if votes <? 3 then corrected + 1 else corrected)
  else (result, corrected).

Definition majority (b1 b2 b3 corrected : Z) : Z * Z :=
  fold_left (voteBit b1 b2 b3) (seq 0 8) (0, corrected).

(** The voting loop of [decodeFEC]; [new Uint8Array(length / 3)] truncates
    its argument to an integer. *)
Definition voteAll (deinterleaved : list Z) (corrected : Z) : list Z * Z :=
  fold_left
    (fun '(decoded, corrected) i =>
       let b1 := load deinterleaved (i * 3) in
       let b2 := load deinterleaved (i * 3 + 1) in
       let b3 := load deinterleaved (i * 3 + 2) in
       let '(result, corrected) := majority b1 b2 b3 corrected in
       (store i result decoded, corrected))
    (seq 0 (length deinterleaved / 3))
    (u8_new (length deinterleaved / 3), corrected).

(** [decodeFEC(data)]. *)
Definition decodeFEC (data : list Z) (self : EncodingLayer)
    : list Z * EncodingLayer :=
  let deinterleaved := deinterleave (interleaveDepth self) data in
  let s := stats self in
  let '(decoded, corrected) := voteAll deinterleaved (correctedErrors s) in
  (decoded,
   withStats self
     (mkStats (bytesEncoded s) (bytesDecoded s) (framesCreated s)
        (framesDecoded s) (crcErrors s) corrected)).

(** *** Fragmentation and reassembly *)

(** [fragmentData(data, options)] for a [Uint8Array]; [maxPayloadSize] is
    never 0 (the constructor replaces 0 by the default). *)
Definition fragmentData (data : list Z) (type : option Z)
    (self : EncodingLayer) : list (list Z) * EncodingLayer :=
  let type := JS.orDefault type MESSAGE_TYPES_DATA in
  let maxSize := maxPayloadSize self in
  let totalFragments := ceilDiv (length data) maxSize in
  fold_left
    (fun '(fragments, self) i =>
       let start := (i * maxSize)%nat in
       let end_ := Nat.min (start + maxSize) (length data) in
       let fragment := slice data start end_ in
       let flags := 0 in
       let flags :=
         if Z.of_nat i <? Z.of_nat totalFragments - 1
         then JS.bor flags 0x80 else flags in
       let flags := if (i =? 0)%nat then JS.bor flags 0x40 else flags in
       let '(frame, self) :=
         createFrame fragment
           (mkOptions (Some type) (Some (Z.of_nat i)) (Some flags)) self in
       (fragments ++ [frame], self))
    (seq 0 totalFragments)
    ([], self).

(** What [reassembleData] reads of a parsed fragment. *)
Record Fragment := mkFragment {
  f_sequence : Z;
  f_flags : Z;
  f_payload : list Z
}.

Inductive ReassembleResult :=
| Incomplete (error : string)
| Complete (data : list Z) (fragmentCount : nat).

(** [reassembleData(fragments)]. *)
Definition reassembleData (fragments : list Fragment) : ReassembleResult :=
  let sorted := sortBy (fun a b => f_sequence a - f_sequence b) fragments in
  let firstFragment := find (fun f => JS.truthy (JS.band (f_flags f) 0x40)) sorted in
  let lastFragment := find (fun f => negb (JS.truthy (JS.band (f_flags f) 0x80))) sorted in
  match firstFragment, lastFragment with
  | Some _, Some _ =>
      let totalSize :=
        fold_left (fun sum f => (sum + length (f_payload f))%nat) sorted 0%nat in
      let assembled := u8_new totalSize in
      let '(assembled, _) :=
        fold_left
          (fun '(assembled, offset) fragment =>
             (set_from assembled (f_payload fragment) offset,
              (offset + length (f_payload fragment))%nat))
          sorted (assembled, 0%nat) in
      Complete assembled (length sorted)
  | _, _ => Incomplete "Missing fragments"
  end.

(** *** CRC-32 in the words of the specification

    IEEE 802.3 CRC-32 as a shift register on unsigned 32-bit values:
    reflected polynomial [0xEDB88320], initial value [0xFFFFFFFF], final
    exclusive or with [0xFFFFFFFF]. *)
Module CRCSpec.

Definition POLY : Z := 0xEDB88320.

Definition bitStep (c : Z) : Z :=
  if Z.odd c then Z.lxor (Z.shiftr c 1) POLY else Z.shiftr c 1.

Definition byteStep (c b : Z) : Z := iter 8 bitStep (Z.lxor c b).

Definition crc32 (data : list Z) : Z :=
  Z.lxor (fold_left byteStep data 0xFFFFFFFF) 0xFFFFFFFF.

End CRCSpec.

(** *** The frame layout in the words of the specification *)

(** Byte [n / 8] of a number, counted from the least significant. *)
Definition byteAt (v : Z) (n : Z) : Z := (v / 2 ^ n) mod 256.

(** The eight header bytes for a type, flags, sequence and payload length. *)
Definition frameHeader (type flags sequence len : Z) : list Z :=
  [0xAC; 0x4D; type mod 256; flags mod 256;
   byteAt sequence 8; byteAt sequence 0; byteAt len 8; byteAt len 0].

(** A 32-bit value as four bytes, most significant first, and back. *)
Definition be32Bytes (v : Z) : list Z :=
  [byteAt v 24; byteAt v 16; byteAt v 8; byteAt v 0].

Definition be32 (b3 b2 b1 b0 : Z) : Z :=
  b3 * 2^24 + b2 * 2^16 + b1 * 2^8 + b0.

(** The unsigned value of the four CRC bytes that follow a payload of
    [pl] bytes. *)
Definition storedCRC (frame : list Z) (pl : nat) : Z :=
  be32 (load frame (8 + pl)) (load frame (8 + pl + 1))
       (load frame (8 + pl + 2)) (load frame (8 + pl + 3)).

(** The big-endian length field at offsets 6 and 7. *)
Definition lengthField (frame : list Z) : Z :=
  load frame 6 * 256 + load frame 7.

(** *** Vocabulary of the properties *)

(** The bytes of a frame: header, payload, CRC of both. *)
Definition frameBytes (type flags sequence : Z) (payload : list Z) : list Z :=
  let body := frameHeader type flags sequence (Z.of_nat (length payload)) ++ payload in
  body ++ be32Bytes (calculateCRC body).

(** What [parseFrame] returns on a byte array, one test after the other. *)
Definition parseOutcome (frame : list Z) : ParseResult :=
  if (length frame <? 12)%nat then FrameTooShort else
  if negb (load frame 0 =? 0xAC) || negb (load frame 1 =? 0x4D)
  then InvalidMagic else
  let L := lengthField frame in
  if Z.of_nat (length frame) <? 12 + L then FrameTruncated else
  if JS.toInt32 (storedCRC frame (Z.to_nat L))
       =? calculateCRC (slice frame 0 (8 + Z.to_nat L))
  then Valid (load frame 2) (load frame 3)
         (load frame 4 * 256 + load frame 5)
         (slice frame 8 (8 + Z.to_nat L)) L
  else CRCMismatch.

(** The three bytes [decodeFEC] votes on for output byte [i], and the vote. *)
Definition voted (deinterleaved : list Z) (i : nat) : Z * Z :=
  majority (load deinterleaved (i * 3)) (load deinterleaved (i * 3 + 1))
           (load deinterleaved (i * 3 + 2)) 0.

(** The number of zero bytes [decodeFEC] appends: what the padding of the
    interleaving grid leaves after division by three. *)
Definition fecPadding (depth n : nat) : nat :=
  (ceilDiv (n * 3) depth * depth / 3 - n)%nat.

Definition bitPositions : list Z := [0; 1; 2; 3; 4; 5; 6; 7].

(** One round of the bit loop on plain bit operations. *)
Definition voteBitPure (b1 b2 b3 : Z) (acc : Z * Z) (bit : nat) : Z * Z :=
  let '(result, corrected) := acc in
  let votes :=
    Z.b2z (Z.testbit b1 (Z.of_nat bit)) + Z.b2z (Z.testbit b2 (Z.of_nat bit)) +
    Z.b2z (Z.testbit b3 (Z.of_nat bit)) in
  if 2 <=? votes
  then (Z.lor result (2 ^ Z.of_nat bit), if votes <? 3 then corrected + 1 else corrected)
  else (result, corrected).

Definition majorityPure (b1 b2 b3 corrected : Z) : Z * Z :=
  fold_left (voteBitPure b1 b2 b3) (seq 0 8) (0, corrected).

(** The flags [fragmentData] gives fragment [i] of [total]. *)
Definition fragmentFlags (i total : nat) : Z :=
  let flags := 0 in
  let flags :=
    if Z.of_nat i <? Z.of_nat total - 1 then JS.bor flags 0x80 else flags in
  if (i =? 0)%nat then JS.bor flags 0x40 else flags.

(** The bytes of the data that go into fragment [i]. *)
Definition fragmentChunk (maxSize : nat) (data : list Z) (i : nat) : list Z :=
  slice data (i * maxSize) (Nat.min (i * maxSize + maxSize) (length data)).

(** The comparator [reassembleData] sorts with. *)
Definition bySequence (a b : Fragment) : Z := f_sequence a - f_sequence b.

(** A fragment with the first-fragment flag (bit 6) set. *)
Definition isFirstFragment (f : Fragment) : bool := JS.truthy (JS.band (f_flags f) 0x40).

(** A fragment with the more-fragments flag (bit 7) clear. *)
Definition isLastFragment (f : Fragment) : bool :=
  negb (JS.truthy (JS.band (f_flags f) 0x80)).

(** The fragment a receiver obtains from frame [i] of [fragmentData]. *)
Definition fragmentOf (maxSize total : nat) (data : list Z) (i : nat) : Fragment :=
  mkFragment (Z.of_nat i) (fragmentFlags i total) (fragmentChunk maxSize data i).

End Encoding.

(* ================================================================= *)
(** ** Physical layer: bytes to symbols *)

Module Physical.

Record BandConfig := mkBand {
  BASE_FREQ : Z;
  FREQ_SPACING : Z;
  NUM_FREQUENCIES : Z;
  BANDWIDTH : Z
}.

Definition ULTRASONIC : BandConfig := mkBand 18000 100 16 1600.
Definition AUDIBLE : BandConfig := mkBand 1000 200 8 1600.

(** The [while (bitsInBuffer >= 3)] loop of [_bytesToSymbols]; each round
    removes three bits, so [fuel] rounds with [fuel >= bitsInBuffer] reach
    the exit test. *)
Fixpoint drain (fuel : nat) (bitBuffer bitsInBuffer : Z) (symbols : list Z)
    : Z * list Z :=
  match fuel with
  | O => (bitsInBuffer, symbols)
  | S fuel' =>
      if 3 <=? bitsInBuffer then
        let bitsInBuffer := bitsInBuffer - 3 in
        drain fuel' bitBuffer bitsInBuffer
          (symbols ++ [JS.band (JS.sar bitBuffer bitsInBuffer) 0x07])
      else (bitsInBuffer, symbols)
  end.

(** The body of the [for (const byte of data)] loop of the 8-FSK branch. *)
Definition pushByte (st : Z * Z * list Z) (byte : Z) : Z * Z * list Z :=
  let '(bitBuffer, bitsInBuffer, symbols) := st in
  let bitBuffer := JS.bor (JS.shl bitBuffer 8) byte in
  let bitsInBuffer := bitsInBuffer + 8 in
  let '(bitsInBuffer, symbols) :=
    drain (Z.to_nat bitsInBuffer) bitBuffer bitsInBuffer symbols in
  (bitBuffer, bitsInBuffer, symbols).

(** [_bytesToSymbols(data)]; [Math.log2(NUM_FREQUENCIES)] is 4 exactly for
    16 frequencies and 3 exactly for 8. *)
Definition bytesToSymbols (config : BandConfig) (data : list Z) : list Z :=
  if NUM_FREQUENCIES config =? 16 then
    fold_left
      (fun symbols byte =>
         symbols ++ [JS.band (JS.sar byte 4) 0x0F; JS.band byte 0x0F])
      data []
  else if NUM_FREQUENCIES config =? 8 then
    let '(bitBuffer, bitsInBuffer, symbols) :=
      fold_left pushByte data (0, 0, []) in
    if 0 <? bitsInBuffer
    then symbols ++ [JS.band (JS.shl bitBuffer (3 - bitsInBuffer)) 0x07]
    else symbols
  else [].

(** The [while (bitsInBuffer >= 8)] loop of [_symbolsToBytes]; each round
    removes eight bits. *)
Fixpoint drainBytes (fuel : nat) (bitBuffer bitsInBuffer : Z) (out : list Z)
    : Z * list Z :=
  match fuel with
  | O => (bitsInBuffer, out)
  | S fuel' =>
      if 8 <=? bitsInBuffer then
        let bitsInBuffer := bitsInBuffer - 8 in
        drainBytes fuel' bitBuffer bitsInBuffer
          (out ++ [JS.band (JS.sar bitBuffer bitsInBuffer) 0xFF])
      else (bitsInBuffer, out)
  end.

(** The body of the [for (const symbol of symbols)] loop of the 8-FSK
    branch of [_symbolsToBytes]. *)
Definition pushSymbol (st : Z * Z * list Z) (symbol : Z) : Z * Z * list Z :=
  let '(bitBuffer, bitsInBuffer, out) := st in
  let bitBuffer := JS.bor (JS.shl bitBuffer 3) (JS.band symbol 0x07) in
  let bitsInBuffer := bitsInBuffer + 3 in
  let '(bitsInBuffer, out) :=
    drainBytes (Z.to_nat bitsInBuffer) bitBuffer bitsInBuffer out in
  (bitBuffer, bitsInBuffer, out).

(** The loop [for (i = 0; i < symbols.length - 1; i += 2)] of the 16-FSK
    branch: it runs while two symbols are left. *)
Fixpoint symbolPairs (symbols out : list Z) : list Z :=
  match symbols with
  | hi :: lo :: rest =>
      symbolPairs rest
        (out ++ [JS.bor (JS.shl (JS.band hi 0x0F) 4) (JS.band lo 0x0F)])
  | _ => out
  end.

(** [_symbolsToBytes(symbols)]; [new Uint8Array(bytes)] wraps each element
    to a byte. *)
Definition symbolsToBytes (config : BandConfig) (symbols : list Z) : list Z :=
  let out :=
    if NUM_FREQUENCIES config =? 16 then symbolPairs symbols []
    else if NUM_FREQUENCIES config =? 8 then
      let '(_, _, out) := fold_left pushSymbol symbols (0, 0, []) in out
    else [] in
  map (fun b => b mod 256) out.

(** [_generateFrequencyTable()]. *)
Definition generateFrequencyTable (config : BandConfig) : list Z :=
  map (fun i => BASE_FREQ config + Z.of_nat i * FREQ_SPACING config)
      (seq 0 (Z.to_nat (NUM_FREQUENCIES config))).

(** *** The mapping in the words of the specification *)

(** The eight bits of a byte, most significant first. *)
Definition bitsOfByte (b : Z) : list bool :=
  map (fun k => Z.testbit b (Z.of_nat (7 - k))) (seq 0 8).

Definition bitsOfBytes (data : list Z) : list bool := flat_map bitsOfByte data.

(** The number a bit string denotes, most significant bit first. *)
Definition symbolOfBits (bits : list bool) : Z :=
  fold_left (fun acc b => 2 * acc + Z.b2z b) bits 0.

(** Where the zeros of a final partial group go: before its bits
    ([PadLeft]) or after them ([PadRight]). *)
Inductive Padding := PadLeft | PadRight.

Definition padGroup (pad : Padding) (partial : list bool) : list bool :=
  match pad with
  | PadLeft => repeat false (3 - length partial) ++ partial
  | PadRight => partial ++ repeat false (3 - length partial)
  end.

(** A bit stream cut into 3-bit symbols. *)
Fixpoint groupBits (pad : Padding) (bits : list bool) : list Z :=
  match bits with
  | [] => []
  | a :: b :: c :: rest => symbolOfBits [a; b; c] :: groupBits pad rest
  | partial => [symbolOfBits (padGroup pad partial)]
  end.

(** Two symbols per byte: high nibble, then low nibble. *)
Definition nibbles (data : list Z) : list Z :=
  flat_map (fun b => [b / 16; b mod 16]) data.

(** *** Vocabulary of the properties *)

(** What the code appends after the last byte. *)
Definition finish (st : Z * Z * list Z) : list Z :=
  let '(bitBuffer, bitsInBuffer, symbols) := st in
  if 0 <? bitsInBuffer
  then symbols ++ [JS.band (JS.shl bitBuffer (3 - bitsInBuffer)) 0x07]
  else symbols.

(** The [n] low bits of the buffer, most significant first. *)
Definition lowBits (n : nat) (v : Z) : list bool :=
  map (fun k => Z.testbit v (Z.of_nat (n - 1 - k))) (seq 0 n).

(** The three bits a symbol of the 8-FSK alphabet carries, most significant
    first. *)
Definition bitsOfSymbol (s : Z) : list bool :=
  [Z.testbit s 2; Z.testbit s 1; Z.testbit s 0].

(** A bit stream cut into bytes; an incomplete last group is dropped. *)
Fixpoint groupBytes (bits : list bool) : list Z :=
  match bits with
  | a :: b :: c :: d :: e :: f :: g :: h :: rest =>
      symbolOfBits [a; b; c; d; e; f; g; h] :: groupBytes rest
  | _ => []
  end.

End Physical.

(* ================================================================= *)
(** ** MAC layer *)

Module MAC.

(** A pending slot request; its [callback] is modelled by the response the
    processing functions emit for it. *)
Record Request := mkRequest {
  r_deviceId : string;
  r_numSlots : Z;
  r_priority : Z
}.

(** The object passed to [request.callback]. *)
Inductive Response :=
| Granted (slots : list Z) (frameNumber : Z)
| GrantedContention (slots : list Z)
| Denied (reason : string).

Record QueueEntry := mkEntry {
  q_frame : list Z;
  q_priority : Z;
  q_retries : Z
}.

Record MACStats := mkMACStats {
  framesSent : Z;
  framesReceived : Z;
  collisions : Z;
  retransmissions : Z;
  slotUtilization : Q
}.

Record MACLayer := mkMAC {
  deviceId : string;
  slotsPerFrame : Z;
  assignedSlots : list Z;
  pendingSlotRequests : list Request;
  slotTable : list (string * list Z);
  currentSlot : Z;
  frameNumber : Z;
  transmitQueue : list QueueEntry;
  collisionCount : Z;
  isCoordinator : bool;
  stats : MACStats
}.

(** [new MACLayer(deviceId, { slotsPerFrame })]. *)
Definition newMAC (deviceId : string) (slotsPerFrame : Z) : MACLayer :=
  mkMAC deviceId slotsPerFrame [] [] [] 0 0 [] 0 false
    (mkMACStats 0 0 0 0 0%Q).

Definition set_assignedSlots (v : list Z) (m : MACLayer) : MACLayer :=
  mkMAC (deviceId m) (slotsPerFrame m) v (pendingSlotRequests m) (slotTable m)
    (currentSlot m) (frameNumber m) (transmitQueue m) (collisionCount m)
    (isCoordinator m) (stats m).

Definition set_pendingSlotRequests (v : list Request) (m : MACLayer) : MACLayer :=
  mkMAC (deviceId m) (slotsPerFrame m) (assignedSlots m) v (slotTable m)
    (currentSlot m) (frameNumber m) (transmitQueue m) (collisionCount m)
    (isCoordinator m) (stats m).

Definition set_slotTable (v : list (string * list Z)) (m : MACLayer) : MACLayer :=
  mkMAC (deviceId m) (slotsPerFrame m) (assignedSlots m) (pendingSlotRequests m) v
    (currentSlot m) (frameNumber m) (transmitQueue m) (collisionCount m)
    (isCoordinator m) (stats m).

Definition set_currentSlot (v : Z) (m : MACLayer) : MACLayer :=
  mkMAC (deviceId m) (slotsPerFrame m) (assignedSlots m) (pendingSlotRequests m)
    (slotTable m) v (frameNumber m) (transmitQueue m) (collisionCount m)
    (isCoordinator m) (stats m).

Definition set_transmitQueue (v : list QueueEntry) (m : MACLayer) : MACLayer :=
  mkMAC (deviceId m) (slotsPerFrame m) (assignedSlots m) (pendingSlotRequests m)
    (slotTable m) (currentSlot m) (frameNumber m) v (collisionCount m)
    (isCoordinator m) (stats m).

Definition set_collisionCount (v : Z) (m : MACLayer) : MACLayer :=
  mkMAC (deviceId m) (slotsPerFrame m) (assignedSlots m) (pendingSlotRequests m)
    (slotTable m) (currentSlot m) (frameNumber m) (transmitQueue m) v
    (isCoordinator m) (stats m).

Definition set_isCoordinator (v : bool) (m : MACLayer) : MACLayer :=
  mkMAC (deviceId m) (slotsPerFrame m) (assignedSlots m) (pendingSlotRequests m)
    (slotTable m) (currentSlot m) (frameNumber m) (transmitQueue m)
    (collisionCount m) v (stats m).

Definition set_stats (v : MACStats) (m : MACLayer) : MACLayer :=
  mkMAC (deviceId m) (slotsPerFrame m) (assignedSlots m) (pendingSlotRequests m)
    (slotTable m) (currentSlot m) (frameNumber m) (transmitQueue m)
    (collisionCount m) (isCoordinator m) v.

(** *** The slot table: a [Map] from device id to slots *)

(** [table.set(k, v)]: an existing key keeps its place. *)
Fixpoint mapSet (k : string) (v : list Z) (table : list (string * list Z))
    : list (string * list Z) :=
  match table with
  | [] => [(k, v)]
  | (k', v') :: t =>
      if String.eqb k' k then (k, v) :: t else (k', v') :: mapSet k v t
  end.

(** [table.delete(k)]. *)
Definition mapDelete (k : string) (table : list (string * list Z))
    : list (string * list Z) :=
  filter (fun e => negb (String.eqb (fst e) k)) table.

(** [Array.from(table.values()).flat()]. *)
Definition usedSlots (table : list (string * list Z)) : list Z :=
  concat (map snd table).

(** [list.splice(i, 1)] as it leaves the list. *)
Fixpoint removeAt (i : nat) (l : list Z) : list Z :=
  match l, i with
  | [], _ => []
  | _ :: t, O => t
  | h :: t, S j => h :: removeAt j t
  end.

(** [_getAvailableSlots()]. *)
Definition getAvailableSlots (m : MACLayer) : list Z :=
  let used := usedSlots (slotTable m) in
  filter (fun i => negb (existsb (Z.eqb i) used))
    (map Z.of_nat (seq 0 (Z.to_nat (slotsPerFrame m)))).

(** [_hashDeviceId(deviceId)]. *)
Definition hashDeviceId (deviceId : string) : Z :=
  Z.abs
    (fold_left
       (fun hash c =>
          let hash := (JS.shl hash 5 - hash) + Z.of_nat (nat_of_ascii c) in
          JS.band hash hash)
       (list_ascii_of_string deviceId) 0).

(** The slots [_contentionBasedSlotSelection] picks for one request. *)
Definition contentionSlots (m : MACLayer) (request : Request) : list Z :=
  let hash := hashDeviceId (r_deviceId request) in
  map
    (fun i =>
       let baseSlot := Z.rem (hash + i * 7) (slotsPerFrame m) in
       let priorityOffset := r_priority request / 2 in
       Z.rem (baseSlot + priorityOffset) (slotsPerFrame m))
    (map Z.of_nat (seq 0 (Z.to_nat (r_numSlots request)))).

(** [_contentionBasedSlotSelection()]. *)
Definition contentionBasedSlotSelection (m : MACLayer)
    : MACLayer * list (Request * Response) :=
  let '(m, out) :=
    fold_left
      (fun '(m, out) request =>
         let slots := contentionSlots m request in
         let m :=
           if String.eqb (r_deviceId request) (deviceId m)
           then set_assignedSlots slots m else m in
         let m := set_slotTable (mapSet (r_deviceId request) slots (slotTable m)) m in
         (m, out ++ [(request, GrantedContention slots)]))
      (pendingSlotRequests m) (m, []) in
  (set_pendingSlotRequests [] m, out).

(** The inner [for] loop of [_processSlotRequests]: at most [numSlots]
    rounds, stopped early by an empty pool; [n] counts the rounds left. *)
Fixpoint takeSlots (n : nat) (i numSlots : Z)
    (availableSlots slotsToAssign : list Z) : list Z * list Z :=
  match n with
  | O => (slotsToAssign, availableSlots)
  | S n' =>
      if (i <? numSlots) && (0 <? length availableSlots)%nat then
        let slotIndex :=
          Z.to_nat (Z.of_nat (length availableSlots) * (i + 1) / (numSlots + 1)) in
        let slot := nth slotIndex availableSlots 0 in
        takeSlots n' (i + 1) numSlots (removeAt slotIndex availableSlots)
          (slotsToAssign ++ [slot])
      else (slotsToAssign, availableSlots)
  end.

(** The body of the outer loop of [_processSlotRequests], on the layer, the
    free pool and the responses sent so far. *)
Definition assignRequest
    (st : MACLayer * list Z * list (Request * Response)) (request : Request)
    : MACLayer * list Z * list (Request * Response) :=
  let '(m, availableSlots, out) := st in
  let '(slotsToAssign, availableSlots) :=
    takeSlots (Z.to_nat (r_numSlots request)) 0 (r_numSlots request)
      availableSlots [] in
  if (0 <? length slotsToAssign)%nat then
    let m := set_slotTable (mapSet (r_deviceId request) slotsToAssign (slotTable m)) m in
    let m :=
      if String.eqb (r_deviceId request) (deviceId m)
      then set_assignedSlots slotsToAssign m else m in
    (m, availableSlots, out ++ [(request, Granted slotsToAssign (frameNumber m))])
  else
    (m, availableSlots, out ++ [(request, Denied "No slots available")]).

(** [_processSlotRequests()]. *)
Definition processSlotRequests (m : MACLayer)
    : MACLayer * list (Request * Response) :=
  if negb (isCoordinator m) && (0 <? length (pendingSlotRequests m))%nat
  then contentionBasedSlotSelection m
  else
    let availableSlots := getAvailableSlots m in
    let sorted :=
      sortBy (fun a b => r_priority b - r_priority a) (pendingSlotRequests m) in
    let '(m, _, out) :=
      fold_left assignRequest sorted (m, availableSlots, []) in
    (set_pendingSlotRequests [] m, out).

(** [usedSlots / slotsPerFrame]: a quotient of two integers; its comparisons
    with 0 and 1 are those of the exact rational. *)
Definition utilisation (m : MACLayer) : Q :=
  (inject_Z (Z.of_nat (length (usedSlots (slotTable m))))
   / inject_Z (slotsPerFrame m))%Q.

(** [_onFrameStart()]. *)
Definition onFrameStart (m : MACLayer) : MACLayer * list (Request * Response) :=
  let m := set_currentSlot 0 m in
  let '(m, out) := processSlotRequests m in
  let s := stats m in
  (set_stats
     (mkMACStats (framesSent s) (framesReceived s) (collisions s)
        (retransmissions s) (utilisation m)) m,
   out).

(** [requestSlots(numSlots)] up to the promise: the request joins the
    pending list with the layer's own id and priority. *)
Definition requestSlots (numSlots priorityLevel : Z) (m : MACLayer) : MACLayer :=
  set_pendingSlotRequests
    (pendingSlotRequests m ++ [mkRequest (deviceId m) numSlots priorityLevel]) m.

(** [_handleCollision()]; [random] is the value [Math.random()] returns,
    a number in [0, 1). *)
Definition handleCollision (random : Q) (m : MACLayer) : MACLayer :=
  let m := set_collisionCount (collisionCount m + 1) m in
  let maxBackoff := Z.min 16 (2 ^ collisionCount m) in
  let backoffSlots := Qfloor (random * inject_Z maxBackoff) in
  let newSlot := Z.rem (currentSlot m + backoffSlots) (slotsPerFrame m) in
  let m := set_assignedSlots [newSlot] m in
  match transmitQueue m with
  | [] => m
  | e :: rest =>
      let m :=
        set_transmitQueue
          (mkEntry (q_frame e) (q_priority e) (q_retries e + 1) :: rest) m in
      let s := stats m in
      set_stats
        (mkMACStats (framesSent s) (framesReceived s) (collisions s)
           (retransmissions s + 1) (slotUtilization s)) m
  end.

(** [becomeCoordinator()]. *)
Definition becomeCoordinator (m : MACLayer) : MACLayer :=
  let m := set_isCoordinator true m in
  let m := set_assignedSlots [0] m in
  set_slotTable (mapSet (deviceId m) [0] (slotTable m)) m.

(** [updateSlotTable(deviceId, slots)]. *)
Definition updateSlotTable (dev : string) (slots : list Z) (m : MACLayer)
    : MACLayer :=
  let m := set_slotTable (mapSet dev slots (slotTable m)) m in
  if String.eqb dev (deviceId m) then set_assignedSlots slots m else m.

(** [releaseSlots()]. *)
Definition releaseSlots (m : MACLayer) : MACLayer :=
  let m := set_slotTable (mapDelete (deviceId m) (slotTable m)) m in
  set_assignedSlots [] m.

(** [queueFrame(frame, priority)]: the entry joins the queue, the queue is
    sorted by descending priority, and a layer without slots asks for one.
    [priorityLevel] is the level the layer was constructed with. *)
Definition queueFrame (frame : list Z) (priority priorityLevel : Z) (m : MACLayer)
    : MACLayer :=
  let m :=
    set_transmitQueue
      (sortBy (fun a b => q_priority b - q_priority a)
         (transmitQueue m ++ [mkEntry frame priority 0])) m in
  if (length (assignedSlots m) =? 0)%nat then requestSlots 1 priorityLevel m else m.

(** [_handleOwnSlot()]; [hasCallback] tells whether [onTransmitOpportunity]
    is set, and the entry handed to it is returned. *)
Definition handleOwnSlot (hasCallback : bool) (m : MACLayer)
    : MACLayer * option QueueEntry :=
  match transmitQueue m with
  | e :: rest =>
      if hasCallback then
        let m := set_transmitQueue rest m in
        let s := stats m in
        (set_stats
           (mkMACStats (framesSent s + 1) (framesReceived s) (collisions s)
              (retransmissions s) (slotUtilization s)) m,
         Some e)
      else (m, None)
  | [] => (m, None)
  end.

(** [receiveFrame(frame)]: the slot under which the frame enters the
    receive buffer, or [None] when the frame met the layer's own slot. *)
Definition receiveFrame (random : Q) (m : MACLayer) : MACLayer * option Z :=
  let s := stats m in
  let m :=
    set_stats
      (mkMACStats (framesSent s) (framesReceived s + 1) (collisions s)
         (retransmissions s) (slotUtilization s)) m in
  if existsb (Z.eqb (currentSlot m)) (assignedSlots m) then
    let s := stats m in
    let m :=
      set_stats
        (mkMACStats (framesSent s) (framesReceived s) (collisions s + 1)
           (retransmissions s) (slotUtilization s)) m in
    (handleCollision random m, None)
  else (m, Some (currentSlot m)).

(** *** Vocabulary of the properties *)

(** The slots a response hands out. *)
Definition grantedSlots (resp : Response) : list Z :=
  match resp with
  | Granted slots _ => slots
  | GrantedContention slots => slots
  | Denied _ => []
  end.

Definition allGranted (out : list (Request * Response)) : list Z :=
  flat_map (fun e => grantedSlots (snd e)) out.

(** The layer after a granted request. *)
Definition grantTo (request : Request) (slots : list Z) (m : MACLayer) : MACLayer :=
  let m := set_slotTable (mapSet (r_deviceId request) slots (slotTable m)) m in
  if String.eqb (r_deviceId request) (deviceId m)
  then set_assignedSlots slots m else m.

Definition responseOk (e : Request * Response) : Prop :=
  let '(request, resp) := e in
  (length (grantedSlots resp) <= Z.to_nat (r_numSlots request))%nat /\
  (grantedSlots resp <> [] /\ (exists fn, resp = Granted (grantedSlots resp) fn) \/
   grantedSlots resp = [] /\ resp = Denied "No slots available").

Definition descendingPriority (a b : Request) : Z := r_priority b - r_priority a.

Definition inFrame (spf : Z) (s : Z) : Prop := 0 <= s < spf.

(** A slot table whose slots are pairwise distinct and inside the frame. *)
Definition tableOk (m : MACLayer) : Prop :=
  NoDup (usedSlots (slotTable m)) /\
  Forall (inFrame (slotsPerFrame m)) (usedSlots (slotTable m)).

(** The bounds of the specification together with what carries them. *)
Definition MacInv (m : MACLayer) : Prop :=
  0 < slotsPerFrame m /\
  tableOk m /\
  Z.of_nat (length (assignedSlots m)) <= slotsPerFrame m /\
  (0 <= slotUtilization (stats m) <= 1)%Q.

(** The pool and the table stay disjoint and inside the frame through the
    coordinator's loop. *)
Definition poolOk (spf : Z) (m : MACLayer) (free : list Z) : Prop :=
  slotsPerFrame m = spf /\
  NoDup (usedSlots (slotTable m) ++ free) /\
  Forall (inFrame spf) (usedSlots (slotTable m) ++ free) /\
  Z.of_nat (length (assignedSlots m)) <= spf.

(** A transmit queue in descending priority. *)
Definition queueSorted (queue : list QueueEntry) : Prop :=
  StronglySorted (fun a b => q_priority b <= q_priority a) queue.

End MAC.

(* ================================================================= *)
(** ** Utilities *)

Module Helpers.

(** [calculateChecksum(data)]: the XOR of the elements. *)
Definition calculateChecksum (data : list Z) : Z :=
  fold_left (fun checksum b => JS.bxor checksum b) data 0.

(** [a[i] = v] on a typed array whose elements are stored as they are; a
    store past the end is dropped. *)
Fixpoint setAt {A : Type} (i : nat) (v : A) (a : list A) : list A :=
  match a, i with
  | [], _ => []
  | _ :: t, O => v :: t
  | h :: t, S j => h :: setAt j v t
  end.

(** The fields of a [RingBuffer]; [A] is the type of the samples a
    [Float32Array] holds. With [size = 0] the indices of the JavaScript
    object become [NaN]; the reads and [available] are as here. *)
Record RingBuffer (A : Type) := mkRing {
  buffer : list A;
  size : nat;
  writeIndex : nat;
  readIndex : nat;
  available : nat
}.

Arguments mkRing {A}.
Arguments buffer {A}.
Arguments size {A}.
Arguments writeIndex {A}.
Arguments readIndex {A}.
Arguments available {A}.

(** [new RingBuffer(size)]; [zero] is the sample a fresh array is filled
    with. *)
Definition newRing {A : Type} (zero : A) (size : nat) : RingBuffer A :=
  mkRing (repeat zero size) size 0 0 0.

(** The body of the loop of [write(data)]. *)
Definition writeOne {A : Type} (rb : RingBuffer A) (x : A) : RingBuffer A :=
  let buffer' := setAt (writeIndex rb) x (buffer rb) in
  let writeIndex' := ((writeIndex rb + 1) mod size rb)%nat in
  if (available rb <? size rb)%nat then
    mkRing buffer' (size rb) writeIndex' (readIndex rb) (available rb + 1)
  else
    mkRing buffer' (size rb) writeIndex' ((readIndex rb + 1) mod size rb)%nat
      (available rb).

(** [write(data)]. *)
Definition write {A : Type} (data : list A) (rb : RingBuffer A) : RingBuffer A :=
  fold_left writeOne data rb.

(** The loop of [read(length)], [n] rounds. *)
Fixpoint readLoop {A : Type} (zero : A) (n : nat) (rb : RingBuffer A)
    (output : list A) : RingBuffer A * list A :=
  match n with
  | O => (rb, output)
  | S k =>
      readLoop zero k
        (mkRing (buffer rb) (size rb) (writeIndex rb)
           ((readIndex rb + 1) mod size rb)%nat (available rb - 1))
        (output ++ [nth (readIndex rb) (buffer rb) zero])
  end.

(** [read(length)]: the buffer afterwards and the samples returned. *)
Definition read {A : Type} (zero : A) (length : nat) (rb : RingBuffer A)
    : RingBuffer A * list A :=
  readLoop zero (Nat.min length (available rb)) rb [].

(** The loop of [peek(length)], [n] rounds from index [idx]. *)
Fixpoint peekLoop {A : Type} (zero : A) (n : nat) (rb : RingBuffer A) (idx : nat)
    (output : list A) : list A :=
  match n with
  | O => output
  | S k =>
      peekLoop zero k rb ((idx + 1) mod size rb)%nat
        (output ++ [nth idx (buffer rb) zero])
  end.

(** [peek(length)]. *)
Definition peek {A : Type} (zero : A) (length : nat) (rb : RingBuffer A) : list A :=
  peekLoop zero (Nat.min length (available rb)) rb (readIndex rb) [].

(** [clear()]. *)
Definition clear {A : Type} (rb : RingBuffer A) : RingBuffer A :=
  mkRing (buffer rb) (size rb) 0 0 0.


(** *** Vocabulary of the properties *)

(** The consistency of the indices of a ring buffer. *)
Definition ringOk {A : Type} (rb : RingBuffer A) : Prop :=
  length (buffer rb) = size rb /\
  (0 < size rb)%nat /\
  (readIndex rb < size rb)%nat /\
  (available rb <= size rb)%nat /\
  writeIndex rb = ((readIndex rb + available rb) mod size rb)%nat.

(** The samples waiting in the buffer, oldest first. *)
Definition contents {A : Type} (zero : A) (rb : RingBuffer A) : list A :=
  map (fun k => nth ((readIndex rb + k) mod size rb) (buffer rb) zero)
      (seq 0 (available rb)).


(** The XOR of a list of numbers. *)
Definition xorAll (data : list Z) : Z := fold_left Z.lxor data 0.

End Helpers.

(* ================================================================= *)
(** * Properties *)

(** ** Facts about the integer operators *)

Section ListFacts.
Context {A B : Type}.

Lemma fold_left_nil (f : A -> B -> A) (a : A) : fold_left f [] a = a.
Proof. reflexivity. Qed.

Lemma fold_left_cons (f : A -> B -> A) (b : B) (l : list B) (a : A) :
  fold_left f (b :: l) a = fold_left f l (f a b).
Proof. reflexivity. Qed.

End ListFacts.

Section JSFacts.

Lemma toUint32_range z : 0 <= JS.toUint32 z < 2^32.
Proof. unfold JS.toUint32. apply Z.mod_pos_bound. lia. Qed.

Lemma toInt32_range z : - 2^31 <= JS.toInt32 z < 2^31.
Proof.
  unfold JS.toInt32.
  pose proof (Z.mod_pos_bound (z + 2^31) (2^32) ltac:(lia)). lia.
Qed.

Lemma toUint32_id z : 0 <= z < 2^32 -> JS.toUint32 z = z.
Proof. intros. unfold JS.toUint32. apply Z.mod_small. lia. Qed.

Lemma toInt32_id z : - 2^31 <= z < 2^31 -> JS.toInt32 z = z.
Proof. intros. unfold JS.toInt32. rewrite Z.mod_small; lia. Qed.

Lemma toUint32_toInt32 z : JS.toUint32 (JS.toInt32 z) = JS.toUint32 z.
Proof.
  unfold JS.toUint32, JS.toInt32.
  rewrite Zminus_mod, Zmod_mod, <- Zminus_mod.
  f_equal. lia.
Qed.

Lemma toInt32_toUint32 z : JS.toInt32 (JS.toUint32 z) = JS.toInt32 z.
Proof.
  unfold JS.toUint32, JS.toInt32.
  rewrite Zplus_mod, Zmod_mod, <- Zplus_mod. reflexivity.
Qed.

(** [ToInt32] only reads the low 32 bits. *)
Lemma toInt32_congr a b :
  a mod 2^32 = b mod 2^32 -> JS.toInt32 a = JS.toInt32 b.
Proof.
  intros H. rewrite <- (toInt32_toUint32 a), <- (toInt32_toUint32 b).
  unfold JS.toUint32. now rewrite H.
Qed.

Lemma toInt32_idem z : JS.toInt32 (JS.toInt32 z) = JS.toInt32 z.
Proof. apply toInt32_id, toInt32_range. Qed.

Lemma toUint32_testbit z k :
  Z.testbit (JS.toUint32 z) k = if k <? 32 then Z.testbit z k else false.
Proof.
  unfold JS.toUint32.
  destruct (Z.ltb_spec k 32).
  - destruct (Z.neg_nonneg_cases k) as [Hk|Hk].
    + now rewrite !Z.testbit_neg_r.
    + apply Z.mod_pow2_bits_low. lia.
  - apply Z.mod_pow2_bits_high. lia.
Qed.

Lemma toInt32_testbit z k :
  k < 32 -> Z.testbit (JS.toInt32 z) k = Z.testbit z k.
Proof.
  intros Hk.
  pose proof (toUint32_testbit (JS.toInt32 z) k) as H1.
  pose proof (toUint32_testbit z k) as H2.
  rewrite toUint32_toInt32 in H1.
  destruct (Z.ltb_spec k 32); [congruence | lia].
Qed.

Lemma testbit_above_u32 z k : 0 <= z < 2^32 -> 32 <= k -> Z.testbit z k = false.
Proof.
  intros Hz Hk. rewrite <- (Z.mod_small z (2^32)) by lia.
  apply Z.mod_pow2_bits_high. lia.
Qed.

Lemma land_255 z : Z.land z 255 = z mod 256.
Proof. change 255 with (Z.ones 8). now rewrite Z.land_ones by lia. Qed.

(** [(v >> n) & 0xFF] is byte [n / 8] of [v], whatever the sign of [v]. *)
Lemma byte_extract v n :
  0 <= n <= 24 -> JS.band (JS.sar v n) 0xFF = Encoding.byteAt v n.
Proof.
  intros Hn. unfold JS.band, JS.sar, Encoding.byteAt.
  rewrite (Z.mod_small n 32) by lia.
  rewrite (toInt32_id 255) by lia.
  rewrite (toInt32_id (Z.shiftr _ _)).
  2:{ pose proof (toInt32_range v) as Hr.
      rewrite Z.shiftr_div_pow2 by lia.
      assert (0 < 2^n) by (apply Z.pow_pos_nonneg; lia).
      split.
      - apply Z.div_le_lower_bound; nia.
      - apply Z.div_lt_upper_bound; nia. }
  rewrite land_255.
  rewrite toInt32_id by (pose proof (Z.mod_pos_bound (Z.shiftr (JS.toInt32 v) n) 256); lia).
  change 256 with (2^8).
  apply Z.bits_inj'; intros k Hk.
  destruct (Z.ltb_spec k 8).
  - rewrite !Z.mod_pow2_bits_low by lia.
    rewrite Z.shiftr_spec, Z.div_pow2_bits by lia.
    apply toInt32_testbit. lia.
  - now rewrite !Z.mod_pow2_bits_high by lia.
Qed.

Lemma band_255 v : JS.band v 0xFF = Encoding.byteAt v 0.
Proof.
  rewrite <- (byte_extract v 0) by lia. unfold JS.sar.
  change (0 mod 32) with 0. rewrite Z.shiftr_0_r.
  unfold JS.band. now rewrite toInt32_idem.
Qed.

Lemma byteAt_u8 v n : u8 (Encoding.byteAt v n).
Proof. unfold u8, Encoding.byteAt. apply Z.mod_pos_bound. lia. Qed.

Lemma lor_disjoint_add x y n :
  0 <= n -> 0 <= y < 2^n -> Z.lor (x * 2^n) y = x * 2^n + y.
Proof.
  intros Hn Hy.
  assert (Hl : Z.land (x * 2^n) y = 0).
  { apply Z.bits_inj'; intros k Hk. rewrite Z.land_spec, Z.bits_0.
    destruct (Z.ltb_spec k n).
    - now rewrite Z.mul_pow2_bits_low by lia.
    - rewrite <- (Z.mod_small y (2^n)) by lia.
      rewrite Z.mod_pow2_bits_high by lia. apply andb_false_r. }
  rewrite Z.add_nocarry_lxor by exact Hl.
  symmetry. apply Z.lxor_lor. exact Hl.
Qed.

(** [(hi << 8) | lo] on two bytes. *)
Lemma be16_value hi lo :
  u8 hi -> u8 lo -> JS.bor (JS.shl hi 8) lo = hi * 256 + lo.
Proof.
  unfold u8. intros Hh Hl. unfold JS.bor, JS.shl.
  change (8 mod 32) with 8.
  rewrite (toInt32_id hi) by lia.
  rewrite Z.shiftl_mul_pow2 by lia.
  rewrite !(toInt32_id (hi * 2^8)) by lia.
  rewrite (toInt32_id lo) by lia.
  rewrite lor_disjoint_add by lia.
  rewrite toInt32_id by lia. lia.
Qed.

End JSFacts.

(** ** CRC-32: the table-driven code against the shift register *)

Section CRCProof.
Import Encoding Encoding.CRCSpec.

Lemma bxor_u32 a b :
  JS.toUint32 (JS.bxor a b) = Z.lxor (JS.toUint32 a) (JS.toUint32 b).
Proof.
  apply Z.bits_inj'; intros k Hk. unfold JS.bxor.
  rewrite toUint32_toInt32.
  rewrite Z.lxor_spec, !toUint32_testbit.
  destruct (Z.ltb_spec k 32); [|reflexivity].
  now rewrite Z.lxor_spec, !toInt32_testbit by lia.
Qed.

Lemma shiftr_u32 z n : 0 <= n -> 0 <= z < 2^32 -> 0 <= Z.shiftr z n < 2^32.
Proof.
  intros Hn Hz. rewrite Z.shiftr_div_pow2 by lia.
  assert (0 < 2^n) by (apply Z.pow_pos_nonneg; lia).
  split.
  - apply Z.div_pos; lia.
  - apply Z.div_lt_upper_bound; nia.
Qed.

Lemma truthy_band1 c : JS.truthy (JS.band c 1) = Z.odd (JS.toUint32 c).
Proof.
  unfold JS.truthy, JS.band.
  change (JS.toInt32 1) with (Z.ones 1).
  rewrite Z.land_ones by lia. change (2^1) with 2.
  pose proof (Z.mod_pos_bound (JS.toInt32 c) 2 ltac:(lia)).
  rewrite toInt32_id by lia.
  rewrite <- (Z.bit0_odd (JS.toUint32 c)), toUint32_testbit. cbn [Z.ltb Z.compare].
  rewrite <- (toInt32_testbit c 0) by lia.
  rewrite Z.bit0_eqb.
  destruct (Z.eqb_spec (JS.toInt32 c mod 2) 0), (Z.eqb_spec (JS.toInt32 c mod 2) 1); simpl; auto; lia.
Qed.

Lemma crcRound_spec c : JS.toUint32 (crcRound c) = bitStep (JS.toUint32 c).
Proof.
  unfold crcRound, bitStep. rewrite truthy_band1.
  assert (Hs : JS.toUint32 (JS.shr c 1) = Z.shiftr (JS.toUint32 c) 1).
  { unfold JS.shr. change (1 mod 32) with 1.
    apply toUint32_id. apply shiftr_u32; [lia | apply toUint32_range]. }
  destruct (Z.odd (JS.toUint32 c)).
  - rewrite bxor_u32, Hs. rewrite Z.lxor_comm. reflexivity.
  - exact Hs.
Qed.

Lemma iter_crcRound_spec n c :
  JS.toUint32 (iter n crcRound c) = iter n bitStep (JS.toUint32 c).
Proof.
  revert c. induction n as [|n IH]; intros c; simpl; [reflexivity|].
  now rewrite IH, crcRound_spec.
Qed.

Lemma bitStep_alt c :
  bitStep c = Z.lxor (Z.shiftr c 1) (if Z.odd c then POLY else 0).
Proof. unfold bitStep. destruct (Z.odd c); [reflexivity | now rewrite Z.lxor_0_r]. Qed.

(** [bitStep] is linear over exclusive or. *)
Lemma bitStep_lxor a b : bitStep (Z.lxor a b) = Z.lxor (bitStep a) (bitStep b).
Proof.
  rewrite !bitStep_alt, Z.shiftr_lxor.
  rewrite <- !Z.bit0_odd, Z.lxor_spec.
  set (x := Z.shiftr a 1). set (y := Z.shiftr b 1).
  destruct (Z.testbit a 0), (Z.testbit b 0); simpl;
    apply Z.bits_inj'; intros k _; rewrite ?Z.lxor_spec, ?Z.bits_0;
    repeat match goal with
           | |- context [Z.testbit ?v k] => destruct (Z.testbit v k)
           end; reflexivity.
Qed.

(** Bits that are zero below position [k] leave the first [k] steps of the
    register untouched: only the shift acts on them. *)
Lemma iter_bitStep_split k lo hi :
  (forall j, 0 <= j < Z.of_nat k -> Z.testbit hi j = false) ->
  iter k bitStep (Z.lxor lo hi) =
  Z.lxor (iter k bitStep lo) (Z.shiftr hi (Z.of_nat k)).
Proof.
  revert lo hi. induction k as [|k IH]; intros lo hi Hhi.
  - simpl. now rewrite Z.shiftr_0_r.
  - cbn [iter]. rewrite bitStep_lxor.
    assert (Hs : bitStep hi = Z.shiftr hi 1).
    { unfold bitStep. rewrite <- Z.bit0_odd, Hhi by lia. reflexivity. }
    rewrite Hs, IH.
    + rewrite Z.shiftr_shiftr by lia. do 2 f_equal. lia.
    + intros j Hj. rewrite Z.shiftr_spec by lia. apply Hhi. lia.
Qed.

Lemma crcTable_nth i :
  (i < 256)%nat ->
  nth i crcTable 0 = iter 8 bitStep (Z.of_nat i).
Proof.
  intros Hi. unfold crcTable, generateCRCTable.
  rewrite (nth_indep _ 0 (JS.toUint32 (iter 8 crcRound (Z.of_nat 0)))) by (rewrite length_map, length_seq; exact Hi).
  rewrite (map_nth (fun i => JS.toUint32 (iter 8 crcRound (Z.of_nat i)))).
  rewrite seq_nth by exact Hi. simpl Nat.add.
  rewrite iter_crcRound_spec, toUint32_id by lia. reflexivity.
Qed.

Lemma lxor_u32 a b : 0 <= a < 2^32 -> 0 <= b < 2^32 -> 0 <= Z.lxor a b < 2^32.
Proof.
  intros Ha Hb.
  replace (Z.lxor a b) with (JS.toUint32 (Z.lxor a b)); [apply toUint32_range|].
  apply Z.bits_inj'; intros k Hk. rewrite toUint32_testbit.
  destruct (Z.ltb_spec k 32); [reflexivity|].
  now rewrite Z.lxor_spec, !testbit_above_u32 by lia.
Qed.

Lemma bitStep_range c : 0 <= c < 2^32 -> 0 <= bitStep c < 2^32.
Proof.
  intros Hc. unfold bitStep.
  pose proof (shiftr_u32 c 1 ltac:(lia) Hc) as Hs.
  destruct (Z.odd c); [|exact Hs].
  apply lxor_u32; [exact Hs | unfold POLY; lia].
Qed.

Lemma iter_bitStep_range n c : 0 <= c < 2^32 -> 0 <= iter n bitStep c < 2^32.
Proof.
  revert c. induction n as [|n IH]; intros c Hc; simpl; [exact Hc|].
  apply IH, bitStep_range, Hc.
Qed.

Lemma idx_spec c b :
  JS.band (JS.bxor c b) 0xFF = Z.land (Z.lxor (JS.toUint32 c) b) 255.
Proof.
  rewrite band_255, land_255. unfold byteAt. rewrite Z.div_1_r.
  change 256 with (2^8).
  apply Z.bits_inj'; intros k Hk.
  destruct (Z.ltb_spec k 8); [|now rewrite !Z.mod_pow2_bits_high by lia].
  rewrite !Z.mod_pow2_bits_low by lia.
  unfold JS.bxor.
  rewrite toInt32_testbit by lia.
  rewrite !Z.lxor_spec.
  rewrite (toInt32_testbit c), (toInt32_testbit b) by lia.
  rewrite toUint32_testbit.
  destruct (Z.ltb_spec k 32); [reflexivity | lia].
Qed.
(** One byte through the table equals eight steps of the shift register. *)
Lemma crcUpdate_spec c b :
  u8 b ->
  JS.toUint32 (crcUpdate crcTable c b) = byteStep (JS.toUint32 c) b.
Proof.
  intros Hb. unfold crcUpdate, byteStep.
  set (C := JS.toUint32 c).
  assert (HC : 0 <= C < 2^32) by apply toUint32_range.
  set (x := Z.lxor C b).
  assert (Hidx : JS.band (JS.bxor c b) 0xFF = Z.land x 255) by apply idx_spec.
  rewrite Hidx.
  assert (Hlo : 0 <= Z.land x 255 < 256).
  { rewrite land_255. apply Z.mod_pos_bound. lia. }
  rewrite crcTable_nth by lia.
  rewrite Z2Nat.id by lia.
  rewrite bxor_u32.
  rewrite (toUint32_id (iter 8 bitStep _)) by (apply iter_bitStep_range; lia).
  unfold JS.shr. change (8 mod 32) with 8. fold C.
  rewrite (toUint32_id (Z.shiftr C 8)) by (apply shiftr_u32; lia).
  assert (Hx : x = Z.lxor (Z.land x 255) (Z.shiftl (Z.shiftr C 8) 8)).
  { apply Z.bits_inj'; intros k Hk.
    rewrite Z.lxor_spec, Z.land_spec.
    change 255 with (Z.ones 8). rewrite Z.testbit_ones_nonneg by lia.
    destruct (Z.ltb_spec k 8).
    - rewrite Z.shiftl_spec_low by lia. now rewrite andb_true_r, xorb_false_r.
    - rewrite Z.shiftl_spec by lia. rewrite Z.shiftr_spec by lia.
      replace (k - 8 + 8) with k by lia.
      rewrite andb_false_r. simpl.
      unfold x. rewrite Z.lxor_spec.
      rewrite (Z.bits_above_log2 b k); [now rewrite xorb_false_r | unfold u8 in Hb; lia | ].
      destruct (Z.eq_dec b 0) as [->|Hne]; [simpl; lia|].
      unfold u8 in Hb.
      assert (Z.log2 b < 8) by (apply Z.log2_lt_pow2; lia). lia. }
  symmetry. rewrite Hx at 1.
  rewrite (iter_bitStep_split 8).
  - f_equal. change (Z.of_nat 8) with 8.
    apply Z.bits_inj'; intros k Hk.
    rewrite Z.shiftr_spec, Z.shiftl_spec by lia. f_equal. lia.
  - intros j Hj. apply Z.shiftl_spec_low. simpl in Hj. lia.
Qed.

Lemma fold_crcUpdate_spec data c :
  bytes data ->
  JS.toUint32 (fold_left (crcUpdate crcTable) data c) =
  fold_left byteStep data (JS.toUint32 c).
Proof.
  intros Hd. revert c. induction Hd as [|b data Hb Hd IH]; intros c.
  - rewrite !fold_left_nil. reflexivity.
  - rewrite !fold_left_cons, IH, crcUpdate_spec by exact Hb. reflexivity.
Qed.

Lemma calculateCRC_range data : 0 <= calculateCRC data < 2^32.
Proof.
  unfold calculateCRC, calculateCRC_with, JS.shr.
  change (0 mod 32) with 0. rewrite Z.shiftr_0_r. apply toUint32_range.
Qed.

Lemma calculateCRC_spec data :
  bytes data -> calculateCRC data = crc32 data.
Proof.
  intros Hd. unfold calculateCRC, calculateCRC_with, crc32.
  unfold JS.shr. change (0 mod 32) with 0. rewrite Z.shiftr_0_r.
  rewrite bxor_u32, fold_crcUpdate_spec by exact Hd.
  reflexivity.
Qed.

End CRCProof.

(** ** Typed-array facts *)

Section ArrayFacts.

Lemma store_length i v a : length (store i v a) = length a.
Proof.
  revert i. induction a as [|h t IH]; intros [|i]; simpl; auto.
Qed.

Lemma store_0 v h t : store 0 v (h :: t) = (v mod 256) :: t.
Proof. reflexivity. Qed.

Lemma store_S i v h t : store (S i) v (h :: t) = h :: store i v t.
Proof. reflexivity. Qed.

Lemma store_app_r l r i v :
  store (length l + i) v (l ++ r) = l ++ store i v r.
Proof.
  induction l as [|h t IH]; [reflexivity|].
  cbn [length Nat.add app]. rewrite store_S. now rewrite IH.
Qed.

Lemma store_app_r0 l r v : store (length l) v (l ++ r) = l ++ store 0 v r.
Proof. rewrite <- (Nat.add_0_r (length l)) at 1. apply store_app_r. Qed.

Lemma load_store_eq i v a :
  (i < length a)%nat -> load (store i v a) i = v mod 256.
Proof.
  unfold load. revert i. induction a as [|h t IH]; intros [|i] Hi; simpl in *; try lia.
  apply IH. lia.
Qed.

Lemma load_store_neq i j v a :
  i <> j -> load (store i v a) j = load a j.
Proof.
  unfold load. revert i j.
  induction a as [|h t IH]; intros [|i] [|j] Hij; simpl; auto; congruence.
Qed.

Lemma u8_new_app n m : u8_new (n + m) = u8_new n ++ u8_new m.
Proof. apply repeat_app. Qed.

Lemma u8_new_length n : length (u8_new n) = n.
Proof. apply repeat_length. Qed.

Lemma u8_mod_id b : u8 b -> b mod 256 = b.
Proof. unfold u8. intros H. apply Z.mod_small. lia. Qed.

Lemma bytes_app a b : bytes a -> bytes b -> bytes (a ++ b).
Proof. unfold bytes. intros. apply Forall_app. auto. Qed.

End ArrayFacts.

(** ** Frames: the layout [createFrame] writes *)

Section FrameLayout.
Import Encoding.

Lemma be32Bytes_bytes v : bytes (be32Bytes v).
Proof. unfold be32Bytes. repeat constructor; apply byteAt_u8. Qed.

Lemma frameHeader_bytes t f s n : bytes (frameHeader t f s n).
Proof.
  unfold frameHeader.
  repeat constructor; try apply byteAt_u8; unfold u8; try lia;
    apply Z.mod_pos_bound; lia.
Qed.

Lemma frameHeader_length t f s n : length (frameHeader t f s n) = 8%nat.
Proof. reflexivity. Qed.

Lemma createFrame_layout payload options self :
  fst (createFrame payload options self) =
  frameBytes (JS.orDefault (opt_type options) MESSAGE_TYPES_DATA)
             (JS.orDefault (opt_flags options) 0)
             (JS.orDefault (opt_sequence options) 0) payload.
Proof.
  unfold createFrame, frameBytes. cbv zeta. cbn [fst].
  generalize calculateCRC; intros crcf.
  set (type := JS.orDefault (opt_type options) MESSAGE_TYPES_DATA).
  set (flags := JS.orDefault (opt_flags options) 0).
  set (sequence := JS.orDefault (opt_sequence options) 0).
  set (n := length payload).
  replace (8 + n + 4)%nat with (8 + (n + 4))%nat by lia.
  rewrite (u8_new_app 8), (u8_new_app n).
  change (u8_new 8) with [0; 0; 0; 0; 0; 0; 0; 0].
  change (u8_new 4) with [0; 0; 0; 0].
  cbn [app].
  repeat (rewrite store_0 || rewrite store_S).
  rewrite !byte_extract, !band_255 by lia.
  rewrite !(u8_mod_id (byteAt _ _)) by apply byteAt_u8.
  rewrite (u8_mod_id 172), (u8_mod_id 77) by (unfold u8; lia).
  assert (Hset : forall h : list Z, length h = 8%nat ->
            set_from (h ++ u8_new n ++ [0; 0; 0; 0]) payload 8 = (h ++ payload) ++ [0; 0; 0; 0]).
  { intros h Hh. unfold set_from.
    rewrite firstn_app, Hh, Nat.sub_diag, firstn_O, app_nil_r.
    rewrite firstn_all2 by lia.
    rewrite skipn_app, Hh.
    replace (8 + length payload - 8)%nat with n by (unfold n; lia).
    rewrite (skipn_all2 h) by lia.
    rewrite skipn_app, u8_new_length, Nat.sub_diag, skipn_O.
    rewrite skipn_all2 by (rewrite u8_new_length; unfold n; lia).
    now rewrite app_assoc. }
  specialize (Hset (frameHeader type flags sequence (Z.of_nat n)) eq_refl).
  unfold frameHeader in Hset at 1. cbn [app] in Hset. rewrite Hset. clear Hset.
  set (body := frameHeader type flags sequence (Z.of_nat n) ++ payload).
  assert (Hlen : length body = (8 + n)%nat).
  { unfold body. rewrite length_app. reflexivity. }
  assert (Hslice : slice (body ++ [0; 0; 0; 0]) 0 (8 + n) = body).
  { unfold slice. rewrite skipn_O, Nat.sub_0_r, firstn_app, Hlen, Nat.sub_diag.
    rewrite firstn_O, app_nil_r. apply firstn_all2. lia. }
  rewrite Hslice.
  rewrite <- Hlen.
  rewrite store_app_r0, !store_app_r.
  repeat (rewrite store_0 || rewrite store_S).
  rewrite !(u8_mod_id (byteAt _ _)) by apply byteAt_u8.
  reflexivity.
Qed.

End FrameLayout.

(** ** Frames: what [parseFrame] reads *)

Section ParseFacts.
Import Encoding.

Lemma load_u8 a i : bytes a -> u8 (load a i).
Proof.
  intros Ha. unfold load.
  destruct (Nat.lt_ge_cases i (length a)) as [Hi|Hi].
  - unfold bytes in Ha. rewrite Forall_forall in Ha. apply Ha, nth_In, Hi.
  - rewrite nth_overflow by exact Hi. unfold u8. lia.
Qed.

Lemma toInt32_cases z :
  0 <= z < 2^32 -> JS.toInt32 z = if z <? 2^31 then z else z - 2^32.
Proof.
  intros Hz. destruct (Z.ltb_spec z (2^31)).
  - apply toInt32_id. lia.
  - unfold JS.toInt32.
    replace (z + 2^31) with ((z - 2^31) + 1 * 2^32) by lia.
    rewrite Z.mod_add by lia. rewrite Z.mod_small by lia. lia.
Qed.

Lemma be32_range b3 b2 b1 b0 :
  u8 b3 -> u8 b2 -> u8 b1 -> u8 b0 -> 0 <= be32 b3 b2 b1 b0 < 2^32.
Proof. unfold u8, be32. lia. Qed.

(** The four CRC bytes combined with [<<] and [|] give the stored value
    read as a signed number. *)
Lemma signed_be32 b3 b2 b1 b0 :
  u8 b3 -> u8 b2 -> u8 b1 -> u8 b0 ->
  JS.bor (JS.bor (JS.bor (JS.shl b3 24) (JS.shl b2 16)) (JS.shl b1 8)) b0 =
  JS.toInt32 (be32 b3 b2 b1 b0).
Proof.
  unfold u8. intros H3 H2 H1 H0.
  rewrite (toInt32_cases (be32 b3 b2 b1 b0)) by (apply be32_range; assumption).
  unfold be32, JS.bor, JS.shl.
  change (24 mod 32) with 24. change (16 mod 32) with 16. change (8 mod 32) with 8.
  rewrite (toInt32_id b3), (toInt32_id b2), (toInt32_id b1), (toInt32_id b0) by lia.
  rewrite !Z.shiftl_mul_pow2 by lia.
  rewrite (toInt32_id (b2 * 2^16)), (toInt32_id (b1 * 2^8)) by lia.
  rewrite !toInt32_idem.
  rewrite (toInt32_id (b2 * 2^16)), (toInt32_id (b1 * 2^8)) by lia.
  set (x3 := if b3 <? 128 then b3 else b3 - 256).
  assert (Hx3 : JS.toInt32 (b3 * 2^24) = x3 * 2^24).
  { rewrite toInt32_cases by lia. unfold x3.
    destruct (Z.ltb_spec (b3 * 2^24) (2^31)), (Z.ltb_spec b3 128); lia. }
  assert (Hr : -128 <= x3 < 128).
  { unfold x3. destruct (Z.ltb_spec b3 128); lia. }
  rewrite Hx3.
  rewrite (lor_disjoint_add x3 (b2 * 2^16) 24) by lia.
  rewrite (toInt32_id (x3 * 2^24 + b2 * 2^16)) by lia.
  replace (x3 * 2^24 + b2 * 2^16) with ((x3 * 2^8 + b2) * 2^16) by lia.
  rewrite (lor_disjoint_add _ (b1 * 2^8) 16) by lia.
  rewrite (toInt32_id ((x3 * 2^8 + b2) * 2^16 + b1 * 2^8)) by lia.
  replace ((x3 * 2^8 + b2) * 2^16 + b1 * 2^8)
    with (((x3 * 2^8 + b2) * 2^8 + b1) * 2^8) by lia.
  rewrite (lor_disjoint_add _ b0 8) by lia.
  rewrite toInt32_id by lia.
  unfold x3.
  destruct (Z.ltb_spec b3 128),
    (Z.ltb_spec (b3 * 2^24 + b2 * 2^16 + b1 * 2^8 + b0) (2^31)); lia.
Qed.

Lemma receivedCRC_stored frame pl :
  bytes frame -> receivedCRC frame pl = JS.toInt32 (storedCRC frame pl).
Proof.
  intros Hf. unfold receivedCRC, storedCRC.
  apply signed_be32; apply load_u8, Hf.
Qed.

Lemma lengthField_range frame : bytes frame -> 0 <= lengthField frame < 65536.
Proof.
  intros Hf. unfold lengthField.
  pose proof (load_u8 frame 6 Hf). pose proof (load_u8 frame 7 Hf).
  unfold u8 in *. lia.
Qed.

Lemma parseFrame_outcome frame self :
  bytes frame -> fst (parseFrame frame self) = parseOutcome frame.
Proof.
  intros Hf. unfold parseFrame, parseOutcome. cbv zeta.
  generalize calculateCRC; intros crcf.
  rewrite !be16_value by (apply load_u8, Hf).
  fold (lengthField frame).
  rewrite receivedCRC_stored by exact Hf.
  replace (8 + lengthField frame + 4) with (12 + lengthField frame) by lia.
  destruct (length frame <? 12)%nat; [reflexivity|].
  destruct (negb (load frame 0 =? 172) || negb (load frame 1 =? 77)); [reflexivity|].
  destruct (Z.of_nat (length frame) <? 12 + lengthField frame); [reflexivity|].
  destruct (JS.toInt32 (storedCRC frame (Z.to_nat (lengthField frame)))
              =? crcf (slice frame 0 (8 + Z.to_nat (lengthField frame))));
    reflexivity.
Qed.

End ParseFacts.

(** ** Frames: parsing what [createFrame] wrote *)

Section FrameRoundTrip.
Import Encoding.

Lemma byteAt_16 v : byteAt v 8 * 256 + byteAt v 0 = v mod 65536.
Proof.
  unfold byteAt. change (2^8) with 256. change (2^0) with 1.
  rewrite Z.div_1_r.
  change 65536 with (256 * 256). rewrite Z.rem_mul_r by lia. lia.
Qed.

Lemma be32_be32Bytes v :
  0 <= v < 2^32 ->
  be32 (byteAt v 24) (byteAt v 16) (byteAt v 8) (byteAt v 0) = v.
Proof.
  intros Hv. unfold be32, byteAt.
  change (2^0) with 1. rewrite Z.div_1_r.
  change (2^24) with (256 * (256 * 256)).
  change (2^16) with (256 * 256).
  change (2^8) with 256.
  rewrite <- !Z.div_div by lia.
  set (a := v / 256). set (b := a / 256). set (c := b / 256).
  pose proof (Z.div_mod v 256 ltac:(lia)).
  pose proof (Z.div_mod a 256 ltac:(lia)).
  pose proof (Z.div_mod b 256 ltac:(lia)).
  pose proof (Z.mod_pos_bound v 256 ltac:(lia)).
  pose proof (Z.mod_pos_bound a 256 ltac:(lia)).
  pose proof (Z.mod_pos_bound b 256 ltac:(lia)).
  fold a in H. fold b in H0. fold c in H1.
  assert (0 <= c < 256) by lia.
  rewrite (Z.mod_small c 256) by lia. lia.
Qed.

Lemma frameBytes_length t f s p :
  length (frameBytes t f s p) = (12 + length p)%nat.
Proof.
  unfold frameBytes. cbv zeta. rewrite !length_app, frameHeader_length.
  unfold be32Bytes. cbn [length]. lia.
Qed.

Lemma frameBytes_bytes t f s p : bytes p -> bytes (frameBytes t f s p).
Proof.
  intros Hp. unfold frameBytes. cbv zeta.
  apply bytes_app; [apply bytes_app|].
  - apply frameHeader_bytes.
  - exact Hp.
  - apply be32Bytes_bytes.
Qed.

Lemma load_app_l a b i : (i < length a)%nat -> load (a ++ b) i = load a i.
Proof. intros. unfold load. now apply app_nth1. Qed.

Lemma load_app_r a b i : load (a ++ b) (length a + i) = load b i.
Proof. unfold load. apply app_nth2_plus. Qed.

Lemma slice_prefix a b : slice (a ++ b) 0 (length a) = a.
Proof.
  unfold slice. rewrite skipn_O, Nat.sub_0_r, firstn_app, Nat.sub_diag.
  rewrite firstn_O, app_nil_r. apply firstn_all.
Qed.

Lemma slice_middle h p c :
  slice ((h ++ p) ++ c) (length h) (length h + length p) = p.
Proof.
  unfold slice. rewrite <- app_assoc.
  rewrite skipn_app, Nat.sub_diag, skipn_all, skipn_O. cbn [app].
  replace (length h + length p - length h)%nat with (length p) by lia.
  rewrite firstn_app, Nat.sub_diag, firstn_O, app_nil_r. apply firstn_all.
Qed.

(** A frame written for byte-sized type and flags, a 16-bit sequence number
    and a payload below 64 KiB parses back to these values exactly when its
    CRC-32 has the top bit clear; otherwise the signed read-back of the CRC
    differs from the unsigned recomputation. *)
Lemma parseOutcome_frameBytes t f s p :
  Z.of_nat (length p) < 65536 ->
  parseOutcome (frameBytes t f s p) =
  if calculateCRC (frameHeader t f s (Z.of_nat (length p)) ++ p) <? 2^31
  then Valid (t mod 256) (f mod 256) (s mod 65536) p (Z.of_nat (length p))
  else CRCMismatch.
Proof.
  intros Hlen. unfold parseOutcome.
  rewrite frameBytes_length.
  set (n := length p) in *.
  set (hdr := frameHeader t f s (Z.of_nat n)).
  assert (Hh : length hdr = 8%nat) by reflexivity.
  assert (HF : frameBytes t f s p = (hdr ++ p) ++ be32Bytes (calculateCRC (hdr ++ p)))
    by reflexivity.
  assert (Hbody : length (hdr ++ p) = (8 + n)%nat) by (rewrite length_app, Hh; reflexivity).
  assert (Hsl : slice (frameBytes t f s p) 0 (8 + n) = hdr ++ p).
  { rewrite HF, <- Hbody. apply slice_prefix. }
  assert (Hpl : slice (frameBytes t f s p) 8 (8 + n) = p).
  { rewrite HF, <- Hh. apply slice_middle. }
  pose proof (calculateCRC_range (hdr ++ p)) as Hr.
  remember (calculateCRC (hdr ++ p)) as crc eqn:Hcrc.
  assert (Hl : forall i, (i < 8)%nat -> load (frameBytes t f s p) i = load hdr i).
  { intros i Hi. rewrite HF, <- app_assoc. apply load_app_l. lia. }
  rewrite (proj2 (Nat.ltb_ge (12 + n) 12)) by lia.
  rewrite (Hl 0%nat), (Hl 1%nat) by lia.
  change (load hdr 0) with 172. change (load hdr 1) with 77.
  cbn [Z.eqb Pos.eqb negb orb].
  assert (HL : lengthField (frameBytes t f s p) = Z.of_nat n).
  { unfold lengthField. rewrite (Hl 6%nat), (Hl 7%nat) by lia.
    change (load hdr 6) with (byteAt (Z.of_nat n) 8).
    change (load hdr 7) with (byteAt (Z.of_nat n) 0).
    rewrite byteAt_16. apply Z.mod_small. lia. }
  rewrite HL. cbv zeta. rewrite Nat2Z.id.
  rewrite (proj2 (Z.ltb_ge (Z.of_nat (12 + n)) (12 + Z.of_nat n))) by lia.
  assert (Hs : storedCRC (frameBytes t f s p) n = crc).
  { unfold storedCRC. rewrite HF, <- Hbody.
    rewrite <- (Nat.add_0_r (length (hdr ++ p))) at 1.
    rewrite !load_app_r. unfold be32Bytes, load. cbn [nth].
    apply be32_be32Bytes, Hr. }
  rewrite Hs, Hsl, Hpl, <- Hcrc.
  rewrite (Hl 2%nat), (Hl 3%nat), (Hl 4%nat), (Hl 5%nat) by lia.
  change (load hdr 2) with (t mod 256). change (load hdr 3) with (f mod 256).
  change (load hdr 4) with (byteAt s 8). change (load hdr 5) with (byteAt s 0).
  rewrite byteAt_16.
  rewrite toInt32_cases by exact Hr.
  destruct (Z.ltb_spec crc (2^31)).
  - now rewrite Z.eqb_refl.
  - rewrite (proj2 (Z.eqb_neq (crc - 2^32) crc)) by lia. reflexivity.
Qed.

Lemma createFrame_parseFrame payload options self self' :
  bytes payload ->
  Z.of_nat (length payload) < 65536 ->
  let type := JS.orDefault (opt_type options) MESSAGE_TYPES_DATA in
  let flags := JS.orDefault (opt_flags options) 0 in
  let sequence := JS.orDefault (opt_sequence options) 0 in
  fst (parseFrame (fst (createFrame payload options self)) self') =
  if calculateCRC (frameHeader type flags sequence (Z.of_nat (length payload)) ++ payload)
       <? 2^31
  then Valid (type mod 256) (flags mod 256) (sequence mod 65536) payload
         (Z.of_nat (length payload))
  else CRCMismatch.
Proof.
  intros Hp Hlen type flags sequence.
  rewrite createFrame_layout.
  rewrite parseFrame_outcome by (apply frameBytes_bytes, Hp).
  now apply parseOutcome_frameBytes.
Qed.

End FrameRoundTrip.

(** ** Frames and CRC: the claims *)

Section FrameClaims.
Import Encoding.

(** C1 (the code departs from the claim): a frame built from the empty
    payload with the default type, flags and sequence does not parse back.
    Its CRC-32 is [0xF0D49818]; [parseFrame] reads the stored CRC as a signed
    number, compares it with the unsigned recomputed one and reports a CRC
    mismatch. *)
Theorem createFrame_empty_does_not_parse :
  fst (createFrame [] noOptions newLayer)
    = [0xAC; 0x4D; 0x02; 0; 0; 0; 0; 0; 0xF0; 0xD4; 0x98; 0x18] /\
  calculateCRC [0xAC; 0x4D; 0x02; 0; 0; 0; 0; 0] = 0xF0D49818 /\
  receivedCRC (fst (createFrame [] noOptions newLayer)) 0 = 0xF0D49818 - 2^32 /\
  fst (parseFrame (fst (createFrame [] noOptions newLayer)) newLayer) = CRCMismatch.
Proof. vm_compute. repeat split. Qed.

(** C2: [calculateCRC] is the IEEE 802.3 CRC-32 (reflected polynomial
    [0xEDB88320], initial value and final exclusive or [0xFFFFFFFF]) on every
    byte buffer; the empty buffer gives [0x00000000] and the ASCII bytes of
    "123456789" give [0xCBF43926]. *)
Theorem calculateCRC_is_crc32 :
  (forall data, bytes data -> calculateCRC data = CRCSpec.crc32 data) /\
  calculateCRC [] = 0x00000000 /\
  calculateCRC (ascii_bytes "123456789") = 0xCBF43926.
Proof.
  split; [exact calculateCRC_spec|].
  split; vm_compute; reflexivity.
Qed.

Lemma calculateCRC_is_crc32_witness :
  bytes [0x31; 0x32; 0x33] /\
  calculateCRC [0x31; 0x32; 0x33] = CRCSpec.crc32 [0x31; 0x32; 0x33].
Proof.
  assert (H : bytes [0x31; 0x32; 0x33]) by (repeat constructor; unfold u8; lia).
  split; [exact H | exact (proj1 calculateCRC_is_crc32 _ H)].
Defined.

(** C5: the failures of [parseFrame] on a byte array, in the order of its
    tests: too short exactly below 12 bytes; then bad magic; then truncated
    when shorter than 12 + L; then a correctable CRC mismatch when the stored
    CRC differs from the recomputed one.  Inverting bit 0 of any payload byte
    of the frame of [1; 2; 3] gives a CRC mismatch. *)
Theorem parseFrame_failures frame self :
  bytes frame ->
  let result := fst (parseFrame frame self) in
  let L := lengthField frame in
  (result = Invalid "Frame too short" false <-> (length frame < 12)%nat) /\
  ((12 <= length frame)%nat ->
   load frame 0 <> 0xAC \/ load frame 1 <> 0x4D ->
   result = Invalid "Invalid magic bytes" false) /\
  ((12 <= length frame)%nat -> load frame 0 = 0xAC -> load frame 1 = 0x4D ->
   Z.of_nat (length frame) < 12 + L ->
   result = Invalid "Frame truncated" false) /\
  ((12 <= length frame)%nat -> load frame 0 = 0xAC -> load frame 1 = 0x4D ->
   12 + L <= Z.of_nat (length frame) ->
   storedCRC frame (Z.to_nat L) <> calculateCRC (slice frame 0 (8 + Z.to_nat L)) ->
   result = Invalid "CRC mismatch" true) /\
  (forall i, (i < 3)%nat ->
   fst (parseFrame (flipBit (8 + i) 0 (fst (createFrame [1; 2; 3] noOptions newLayer)))
          newLayer) = Invalid "CRC mismatch" true).
Proof.
  intros Hf result L. subst result.
  rewrite parseFrame_outcome by exact Hf.
  unfold parseOutcome. cbv zeta. fold L.
  pose proof (calculateCRC_range (slice frame 0 (8 + Z.to_nat L))) as Hr.
  revert Hr. generalize (calculateCRC (slice frame 0 (8 + Z.to_nat L))). intros crc Hr.
  repeat split.
  - destruct (Nat.ltb_spec (length frame) 12); [intros _; assumption|].
    destruct (negb (load frame 0 =? 172) || negb (load frame 1 =? 77));
      [discriminate|].
    destruct (Z.of_nat (length frame) <? 12 + L); [discriminate|].
    destruct (JS.toInt32 (storedCRC frame (Z.to_nat L)) =? crc); discriminate.
  - intros H. now rewrite (proj2 (Nat.ltb_lt _ _) H).
  - intros Hlen Hm. rewrite (proj2 (Nat.ltb_ge _ _) Hlen).
    destruct Hm as [Hm|Hm]; apply Z.eqb_neq in Hm; rewrite Hm;
      [reflexivity | now rewrite orb_true_r].
  - intros Hlen H0 H1 Ht. rewrite (proj2 (Nat.ltb_ge _ _) Hlen).
    rewrite H0, H1. cbn [Z.eqb Pos.eqb negb orb].
    now rewrite (proj2 (Z.ltb_lt _ _) Ht).
  - intros Hlen H0 H1 Ht Hc. rewrite (proj2 (Nat.ltb_ge _ _) Hlen).
    rewrite H0, H1. cbn [Z.eqb Pos.eqb negb orb].
    rewrite (proj2 (Z.ltb_ge _ _) Ht).
    assert (Hs : 0 <= storedCRC frame (Z.to_nat L) < 2^32)
      by (apply be32_range; apply load_u8, Hf).
    rewrite toInt32_cases by exact Hs.
    destruct (Z.ltb_spec (storedCRC frame (Z.to_nat L)) (2^31));
      rewrite (proj2 (Z.eqb_neq _ _)); (reflexivity || lia).
  - intros i Hi.
    destruct i as [|[|[|i]]]; [vm_compute; reflexivity .. | lia].
Qed.

Lemma parseFrame_failures_witness :
  bytes [0xAC; 0x4D; 2; 0; 0; 0; 0; 1; 7; 0; 0; 0; 0] /\
  fst (parseFrame [0xAC; 0x4D; 2; 0; 0; 0; 0; 1; 7; 0; 0; 0; 0] newLayer)
    = Invalid "CRC mismatch" true.
Proof.
  assert (H : bytes [0xAC; 0x4D; 2; 0; 0; 0; 0; 1; 7; 0; 0; 0; 0])
    by (repeat constructor; unfold u8; lia).
  split; [exact H|].
  refine (proj1 (proj2 (proj2 (proj2
            (parseFrame_failures _ newLayer H)))) _ _ _ _ _).
  - simpl; lia.
  - reflexivity.
  - reflexivity.
  - vm_compute; discriminate.
  - vm_compute; discriminate.
Defined.

End FrameClaims.

(** ** Frame construction and the payload bound *)

Section FrameSize.
Import Encoding.

Lemma createFrame_length payload options self :
  length (fst (createFrame payload options self)) = (12 + length payload)%nat.
Proof. rewrite createFrame_layout. apply frameBytes_length. Qed.

Lemma createFrame_lengthField payload options self :
  lengthField (fst (createFrame payload options self)) =
  Z.of_nat (length payload) mod 65536.
Proof.
  rewrite createFrame_layout. unfold frameBytes. cbv zeta.
  generalize (calculateCRC
    (frameHeader (JS.orDefault (opt_type options) MESSAGE_TYPES_DATA)
       (JS.orDefault (opt_flags options) 0) (JS.orDefault (opt_sequence options) 0)
       (Z.of_nat (length payload)) ++ payload)).
  intros crc. unfold lengthField.
  rewrite <- app_assoc, !load_app_l by (rewrite frameHeader_length; lia).
  unfold frameHeader, load. cbn [nth]. apply byteAt_16.
Qed.

Lemma ceilDiv_mul_ge a b : (0 < b)%nat -> (a <= ceilDiv a b * b)%nat.
Proof.
  intros Hb. unfold ceilDiv.
  pose proof (Nat.div_mod_eq (a + b - 1) b) as H.
  pose proof (Nat.mod_upper_bound (a + b - 1) b ltac:(lia)) as Hm.
  nia.
Qed.

Lemma slice_length a s e : (length (slice a s e) <= e - s)%nat.
Proof. unfold slice. rewrite length_firstn. lia. Qed.

(** The frames of [fragmentData]: the fold's accumulator only grows by
    frames of at most [12 + maxPayloadSize] bytes. *)
Lemma fragmentData_frame_lengths data type self :
  Forall (fun frame => (length frame <= 12 + maxPayloadSize self)%nat)
         (fst (fragmentData data type self)).
Proof.
  unfold fragmentData.
  set (maxSize := maxPayloadSize self).
  set (step := fun '(fragments, self0) i => _).
  assert (Hgen : forall l acc s0,
            Forall (fun frame => (length frame <= 12 + maxSize)%nat) acc ->
            Forall (fun frame => (length frame <= 12 + maxSize)%nat)
                   (fst (fold_left step l (acc, s0)))).
  { induction l as [|i l IH]; intros acc s0 Hacc; [exact Hacc|].
    rewrite fold_left_cons. unfold step at 2.
    destruct (createFrame _ _ s0) as [frame s1] eqn:Hcf.
    apply IH. apply Forall_app. split; [exact Hacc|].
    constructor; [|constructor].
    replace frame with (fst (createFrame
      (slice data (i * maxSize) (Nat.min (i * maxSize + maxSize) (length data)))
      (mkOptions (Some (JS.orDefault type MESSAGE_TYPES_DATA)) (Some (Z.of_nat i))
         (Some (if (i =? 0)%nat
                then JS.bor (if Z.of_nat i <? Z.of_nat (ceilDiv (length data) maxSize) - 1
                             then JS.bor 0 128 else 0) 64
                else (if Z.of_nat i <? Z.of_nat (ceilDiv (length data) maxSize) - 1
                      then JS.bor 0 128 else 0)))) s0))
      by (rewrite Hcf; reflexivity).
    rewrite createFrame_length.
    pose proof (slice_length data (i * maxSize)
                  (Nat.min (i * maxSize + maxSize) (length data))).
    lia. }
  apply Hgen. constructor.
Qed.

(** C10 (as amended): [createFrame] checks no payload size.  For a payload
    of any length L it returns a frame of 12 + L bytes whose length field
    holds L mod 65536, which is L itself below 65536 (a 300-byte payload
    gives a 312-byte frame with length field 300); [fragmentData] alone
    keeps its frames within 12 + maxPayloadSize bytes. *)
Theorem createFrame_no_size_check payload options self :
  let frame := fst (createFrame payload options self) in
  length frame = (12 + length payload)%nat /\
  lengthField frame = Z.of_nat (length payload) mod 65536 /\
  (Z.of_nat (length payload) < 65536 -> lengthField frame = Z.of_nat (length payload)) /\
  (length payload = 300%nat -> length frame = 312%nat /\ lengthField frame = 300) /\
  (forall data type,
     Forall (fun f => (length f <= 12 + maxPayloadSize self)%nat)
            (fst (fragmentData data type self))).
Proof.
  cbv zeta.
  split; [apply createFrame_length|].
  split; [apply createFrame_lengthField|].
  split.
  { intros H. rewrite createFrame_lengthField. apply Z.mod_small. lia. }
  split.
  { intros H. rewrite createFrame_length, createFrame_lengthField, H.
    split; reflexivity. }
  intros data type. apply fragmentData_frame_lengths.
Qed.

Lemma createFrame_no_size_check_witness :
  length (repeat 7 300) = 300%nat /\
  length (fst (createFrame (repeat 7 300) noOptions newLayer)) = 312%nat /\
  lengthField (fst (createFrame (repeat 7 300) noOptions newLayer)) = 300.
Proof.
  split; [reflexivity|].
  exact (proj1 (proj2 (proj2 (proj2
           (createFrame_no_size_check (repeat 7 300) noOptions newLayer))))
           eq_refl).
Defined.

(** C10 as stated fails at 65536 bytes: the two-byte length field holds 0. *)
Lemma createFrame_length_field_wraps :
  lengthField (fst (createFrame (repeat 0 (Z.to_nat 65536)) noOptions newLayer)) = 0 /\
  lengthField (fst (createFrame (repeat 0 (Z.to_nat 65536)) noOptions newLayer))
    <> Z.of_nat (length (repeat 0 (Z.to_nat 65536))).
Proof.
  rewrite createFrame_lengthField, repeat_length.
  split; [reflexivity | vm_compute; discriminate].
Qed.

End FrameSize.

(** ** Forward error correction: interleaving *)

Section Scatter.

Lemma transpose_lt a b j : (j < a * b)%nat -> (transpose a b j < a * b)%nat.
Proof.
  intros Hj. unfold transpose.
  assert (Hb : (b <> 0)%nat) by lia.
  pose proof (Nat.mod_upper_bound j b Hb).
  assert (j / b < a)%nat by (apply Nat.Div0.div_lt_upper_bound; lia).
  nia.
Qed.

Lemma transpose_inv a b j :
  (j < a * b)%nat -> transpose b a (transpose a b j) = j.
Proof.
  intros Hj. unfold transpose.
  assert (Hb : (b <> 0)%nat) by lia.
  pose proof (Nat.mod_upper_bound j b Hb) as Hm.
  assert (Hd : (j / b < a)%nat) by (apply Nat.Div0.div_lt_upper_bound; lia).
  set (x := (j mod b * a + j / b)%nat).
  assert (Hxm : (x mod a = j / b)%nat).
  { symmetry. apply (Nat.mod_unique x a (j mod b)); [exact Hd | unfold x; lia]. }
  assert (Hxd : (x / a = j mod b)%nat).
  { symmetry. apply (Nat.div_unique x a (j mod b) (j / b)); [exact Hd | unfold x; lia]. }
  rewrite Hxm, Hxd.
  pose proof (Nat.div_mod_eq j b). lia.
Qed.

Lemma transpose_inj a b i j :
  (i < a * b)%nat -> (j < a * b)%nat ->
  transpose a b i = transpose a b j -> i = j.
Proof.
  intros Hi Hj H.
  rewrite <- (transpose_inv a b i Hi), <- (transpose_inv a b j Hj). now rewrite H.
Qed.

Lemma store_overflow i v a : (length a <= i)%nat -> store i v a = a.
Proof.
  revert i. induction a as [|h t IH]; intros [|i] Hi; simpl in *; try reflexivity; try lia.
  f_equal. apply IH. lia.
Qed.

Variables (f : nat -> nat) (g : nat -> Z).

Lemma scatter_S n init :
  scatter f g (S n) init = store (f n) (g n) (scatter f g n init).
Proof. unfold scatter. now rewrite seq_S, fold_left_app. Qed.

Lemma scatter_length n init : length (scatter f g n init) = length init.
Proof.
  induction n as [|n IH]; [reflexivity|].
  now rewrite scatter_S, store_length.
Qed.

Lemma scatter_untouched n init k :
  (forall i, (i < n)%nat -> f i <> k) ->
  load (scatter f g n init) k = load init k.
Proof.
  induction n as [|n IH]; intros H; [reflexivity|].
  rewrite scatter_S, load_store_neq by (apply H; lia).
  apply IH. intros i Hi. apply H. lia.
Qed.

Lemma scatter_written n init i :
  (forall a b, (a < n)%nat -> (b < n)%nat -> f a = f b -> a = b) ->
  (i < n)%nat -> (f i < length init)%nat ->
  load (scatter f g n init) (f i) = g i mod 256.
Proof.
  induction n as [|n IH]; intros Hinj Hi Hf; [lia|].
  rewrite scatter_S.
  destruct (Nat.eq_dec i n) as [->|Hne].
  - apply load_store_eq. now rewrite scatter_length.
  - rewrite load_store_neq.
    + apply IH; [ | lia | exact Hf]. intros a b Ha Hb. apply Hinj; lia.
    + intros Heq. apply Hne. symmetry. apply Hinj; [lia | lia | exact Heq].
Qed.

End Scatter.

Section Interleave.
Import Encoding.

Lemma ceilDiv_exact r d : (0 < d)%nat -> ceilDiv (r * d) d = r.
Proof.
  intros Hd. unfold ceilDiv. symmetry.
  apply (Nat.div_unique _ d r (d - 1)); lia.
Qed.

Lemma ceilDiv_le a b : (0 < b)%nat -> (a <= ceilDiv a b * b)%nat.
Proof. apply ceilDiv_mul_ge. Qed.

Lemma load_u8_new n k : load (u8_new n) k = 0.
Proof. unfold load, u8_new. apply nth_repeat. Qed.

Lemma load_overflow a k : (length a <= k)%nat -> load a k = 0.
Proof. intros. unfold load. now apply nth_overflow. Qed.

Lemma interleave_scatter depth data :
  interleave depth data =
  scatter (transpose (ceilDiv (length data) depth) depth) (load data)
          (length data) (u8_new (ceilDiv (length data) depth * depth)).
Proof. reflexivity. Qed.

Lemma interleave_length depth data :
  length (interleave depth data) = (ceilDiv (length data) depth * depth)%nat.
Proof. now rewrite interleave_scatter, scatter_length, u8_new_length. Qed.

(** Cell [transpose R depth j] of the interleaved array holds byte [j] of the
    data, or the zero padding. *)
Lemma interleave_load depth data j :
  (0 < depth)%nat -> bytes data ->
  (j < ceilDiv (length data) depth * depth)%nat ->
  load (interleave depth data) (transpose (ceilDiv (length data) depth) depth j) =
  load data j.
Proof.
  intros Hd Hb Hj. rewrite interleave_scatter.
  set (R := ceilDiv (length data) depth) in *.
  pose proof (ceilDiv_le (length data) depth Hd) as Hle. fold R in Hle.
  destruct (Nat.lt_ge_cases j (length data)) as [Hlt|Hge].
  - rewrite scatter_written.
    + apply u8_mod_id, load_u8, Hb.
    + intros a b Ha Hb'. apply transpose_inj; lia.
    + exact Hlt.
    + rewrite u8_new_length. now apply transpose_lt.
  - rewrite scatter_untouched.
    + rewrite load_u8_new. symmetry. now apply load_overflow.
    + intros i Hi Heq. apply transpose_inj in Heq; lia.
Qed.

Lemma deinterleave_scatter depth data :
  deinterleave depth data =
  scatter (transpose depth (ceilDiv (length data) depth)) (load data)
          (length data) (u8_new (length data)).
Proof.
  unfold deinterleave, scatter.
  set (R := ceilDiv (length data) depth).
  assert (H : forall l init, length init = length data ->
            fold_left (fun deinterleaved i =>
               if (i mod R * depth + i / R <? length data)%nat
               then store (i mod R * depth + i / R) (load data i) deinterleaved
               else deinterleaved) l init =
            fold_left (fun a i => store (transpose depth R i) (load data i) a) l init).
  { induction l as [|i l IH]; intros init Hl; [reflexivity|].
    rewrite !fold_left_cons. unfold transpose at 2.
    destruct (Nat.ltb_spec (i mod R * depth + i / R) (length data)).
    - apply IH. now rewrite store_length.
    - rewrite (store_overflow _ _ init) by lia. now apply IH. }
  apply H. apply u8_new_length.
Qed.

Lemma deinterleave_length depth data :
  length (deinterleave depth data) = length data.
Proof. now rewrite deinterleave_scatter, scatter_length, u8_new_length. Qed.

(** On a full grid, de-interleaving reads cell [transpose R depth j] back
    into position [j]. *)
Lemma deinterleave_load depth R data j :
  (0 < depth)%nat -> bytes data -> length data = (R * depth)%nat ->
  (j < R * depth)%nat ->
  load (deinterleave depth data) j = load data (transpose R depth j).
Proof.
  intros Hd Hb Hlen Hj. rewrite deinterleave_scatter.
  rewrite Hlen, ceilDiv_exact by exact Hd.
  pose proof (transpose_lt R depth j Hj) as Ht.
  rewrite <- (transpose_inv R depth j Hj) at 1.
  rewrite scatter_written.
  - apply u8_mod_id, load_u8, Hb.
  - intros a b Ha Hb'. apply transpose_inj; lia.
  - lia.
  - rewrite u8_new_length. rewrite transpose_inv by exact Hj. lia.
Qed.

Lemma list_eq_load (a b : list Z) :
  length a = length b ->
  (forall j, (j < length a)%nat -> load a j = load b j) -> a = b.
Proof. intros Hl H. apply (nth_ext a b 0 0 Hl H). Qed.

Lemma store_bytes i v a : bytes a -> bytes (store i v a).
Proof.
  unfold bytes. revert i. induction a as [|h t IH]; intros [|i] Ha; simpl; auto.
  - inversion Ha; subst. constructor; [|assumption].
    unfold u8. apply Z.mod_pos_bound. lia.
  - inversion Ha; subst. constructor; auto.
Qed.

Lemma scatter_bytes f g n init : bytes init -> bytes (scatter f g n init).
Proof.
  intros Hi. induction n as [|n IH]; [exact Hi|].
  rewrite scatter_S. now apply store_bytes.
Qed.

Lemma u8_new_bytes n : bytes (u8_new n).
Proof. unfold bytes, u8_new. apply Forall_forall. intros x Hx.
  apply repeat_spec in Hx. subst. unfold u8. lia. Qed.

Lemma interleave_bytes depth data : bytes (interleave depth data).
Proof. rewrite interleave_scatter. apply scatter_bytes, u8_new_bytes. Qed.

(** De-interleaving undoes interleaving up to the zero padding of the grid. *)
Lemma deinterleave_interleave depth data :
  (0 < depth)%nat -> bytes data ->
  deinterleave depth (interleave depth data) =
  data ++ repeat 0 (ceilDiv (length data) depth * depth - length data).
Proof.
  intros Hd Hb.
  set (R := ceilDiv (length data) depth).
  pose proof (ceilDiv_le (length data) depth Hd) as Hle. fold R in Hle.
  apply list_eq_load.
  - rewrite deinterleave_length, interleave_length, length_app, repeat_length.
    fold R. lia.
  - rewrite deinterleave_length, interleave_length. fold R. intros j Hj.
    rewrite (deinterleave_load depth R); try assumption.
    + unfold R. rewrite interleave_load by assumption.
      destruct (Nat.lt_ge_cases j (length data)) as [Hlt|Hge].
      * now rewrite load_app_l.
      * rewrite load_overflow by exact Hge.
        unfold load. rewrite app_nth2 by exact Hge. now rewrite nth_repeat.
    + apply interleave_bytes.
    + apply interleave_length.
Qed.

End Interleave.

(** ** Forward error correction: repetition and voting *)

Section Voting.
Import Encoding.

(** A property checked on all 256 bytes holds of every byte. *)
Lemma u8_forall (P : Z -> bool) :
  forallb P (map Z.of_nat (seq 0 256)) = true ->
  forall x, u8 x -> P x = true.
Proof.
  intros H x Hx. rewrite forallb_forall in H. apply H.
  apply in_map_iff. exists (Z.to_nat x). unfold u8 in Hx.
  split; [lia | apply in_seq; lia].
Qed.

Lemma voteBit_shift b1 b2 b3 r c bit :
  voteBit b1 b2 b3 (r, c) bit =
  (fst (voteBit b1 b2 b3 (r, 0) bit), c + snd (voteBit b1 b2 b3 (r, 0) bit)).
Proof.
  unfold voteBit.
  destruct (2 <=? _); [|cbn [fst snd]; f_equal; lia].
  destruct (_ <? 3); cbn [fst snd]; f_equal; lia.
Qed.

Lemma fold_voteBit_shift b1 b2 b3 bits r c d :
  fold_left (voteBit b1 b2 b3) bits (r, c + d) =
  (fst (fold_left (voteBit b1 b2 b3) bits (r, d)),
   c + snd (fold_left (voteBit b1 b2 b3) bits (r, d))).
Proof.
  revert r d. induction bits as [|bit bits IH]; intros r d.
  - reflexivity.
  - rewrite !fold_left_cons.
    rewrite (voteBit_shift b1 b2 b3 r (c + d)), (voteBit_shift b1 b2 b3 r d).
    replace (c + d + snd (voteBit b1 b2 b3 (r, 0) bit))
      with (c + (d + snd (voteBit b1 b2 b3 (r, 0) bit))) by lia.
    apply IH.
Qed.

(** The corrected-error counter only receives an increment that depends on
    the three bytes. *)
Lemma majority_shift b1 b2 b3 c :
  majority b1 b2 b3 c =
  (fst (majority b1 b2 b3 0), c + snd (majority b1 b2 b3 0)).
Proof.
  unfold majority.
  rewrite <- (Z.add_0_r c) at 1. apply fold_voteBit_shift.
Qed.

Lemma majority_same x : u8 x -> majority x x x 0 = (x, 0).
Proof.
  intros Hx.
  assert (H : (let '(r, c) := majority x x x 0 in (r =? x) && (c =? 0)) = true).
  { revert x Hx. apply u8_forall. vm_compute. reflexivity. }
  destruct (majority x x x 0) as [r c].
  apply andb_true_iff in H. destruct H as [Hr Hc].
  apply Z.eqb_eq in Hr, Hc. now subst.
Qed.

(** The voting loop, byte by byte: output byte [i] is the vote on triple
    [i], and the counter grows by the sum of the increments. *)
Lemma voteAll_spec deinterleaved corrected :
  voteAll deinterleaved corrected =
  (map (fun i => fst (voted deinterleaved i) mod 256)
       (seq 0 (length deinterleaved / 3)),
   corrected +
   fold_left Z.add
     (map (fun i => snd (voted deinterleaved i)) (seq 0 (length deinterleaved / 3)))
     0).
Proof.
  unfold voteAll.
  set (n := (length deinterleaved / 3)%nat).
  set (step := fun '(decoded, corrected0) i => _).
  assert (H : forall t, (t <= n)%nat ->
            fold_left step (seq 0 t) (u8_new n, corrected) =
            (map (fun i => fst (voted deinterleaved i) mod 256) (seq 0 t)
               ++ u8_new (n - t),
             corrected +
             fold_left Z.add (map (fun i => snd (voted deinterleaved i)) (seq 0 t)) 0)).
  { induction t as [|t IH]; intros Ht.
    - cbn [seq map fold_left app]. rewrite Nat.sub_0_r, Z.add_0_r. reflexivity.
    - rewrite seq_S, fold_left_app, IH by lia. cbn [Nat.add fold_left].
      unfold step at 1.
      rewrite majority_shift. fold (voted deinterleaved t).
      f_equal.
      + rewrite map_app. cbn [map].
        replace (n - t)%nat with (S (n - S t)) by lia.
        change (u8_new (S (n - S t))) with (0 :: u8_new (n - S t)).
        set (pre := map _ (seq 0 t)).
        assert (Hpre : length pre = t) by (unfold pre; now rewrite length_map, length_seq).
        rewrite <- Hpre at 1. rewrite store_app_r0, store_0.
        now rewrite <- app_assoc.
      + rewrite map_app, fold_left_app. cbn [map fold_left]. lia. }
  rewrite (H n (le_n n)), Nat.sub_diag. cbn [u8_new repeat].
  now rewrite app_nil_r.
Qed.

End Voting.

(** ** Forward error correction: the round trip *)

Section FECRoundTrip.
Import Encoding.

Lemma expand_spec data :
  bytes data ->
  length (expand data) = (length data * 3)%nat /\
  forall j, load (expand data) j =
            if (j <? length data * 3)%nat then load data (j / 3) else 0.
Proof.
  intros Hb. unfold expand.
  set (N := length data).
  set (step := fun expanded i => _).
  assert (H : forall t, (t <= N)%nat ->
            length (fold_left step (seq 0 t) (u8_new (N * 3))) = (N * 3)%nat /\
            forall j, load (fold_left step (seq 0 t) (u8_new (N * 3))) j =
                      if (j <? t * 3)%nat then load data (j / 3) else 0).
  { induction t as [|t IH]; intros Ht.
    - split; [apply u8_new_length|]. intros j. apply load_u8_new.
    - destruct (IH ltac:(lia)) as [Hl Hj].
      rewrite seq_S, fold_left_app. cbn [Nat.add fold_left].
      set (E := fold_left step (seq 0 t) (u8_new (N * 3))) in *.
      unfold step. split; [now rewrite !store_length|].
      intros j.
      pose proof (u8_mod_id _ (load_u8 data t Hb)) as Hv.
      destruct (Nat.eq_dec j (t * 3 + 2)) as [->|H2].
      { rewrite load_store_eq by (rewrite !store_length; lia).
        rewrite Hv.
        destruct (Nat.ltb_spec (t * 3 + 2) (S t * 3)); [|lia].
        f_equal. apply (Nat.div_unique _ 3 t 2); lia. }
      rewrite load_store_neq by lia.
      destruct (Nat.eq_dec j (t * 3 + 1)) as [->|H1].
      { rewrite load_store_eq by (rewrite !store_length; lia).
        rewrite Hv.
        destruct (Nat.ltb_spec (t * 3 + 1) (S t * 3)); [|lia].
        f_equal. apply (Nat.div_unique _ 3 t 1); lia. }
      rewrite load_store_neq by lia.
      destruct (Nat.eq_dec j (t * 3)) as [->|H0].
      { rewrite load_store_eq by lia.
        rewrite Hv.
        destruct (Nat.ltb_spec (t * 3) (S t * 3)); [|lia].
        f_equal. apply (Nat.div_unique _ 3 t 0); lia. }
      rewrite load_store_neq by lia.
      rewrite Hj.
      destruct (Nat.ltb_spec j (t * 3)), (Nat.ltb_spec j (S t * 3));
        try reflexivity; lia. }
  apply (H N (le_n N)).
Qed.

Lemma expand_bytes data : bytes (expand data).
Proof.
  unfold expand.
  generalize (u8_new (length data * 3)) (u8_new_bytes (length data * 3)).
  generalize (seq 0 (length data)).
  induction l as [|i l IH]; intros init Hi; [exact Hi|].
  rewrite fold_left_cons. apply IH. now repeat apply store_bytes.
Qed.

(** Decoding an encoded buffer returns it followed by [fecPadding] zero
    bytes, and counts no corrected error. *)
Lemma decodeFEC_applyFEC data self self' :
  bytes data ->
  (0 < interleaveDepth self)%nat ->
  interleaveDepth self' = interleaveDepth self ->
  fst (decodeFEC (applyFEC data self) self') =
    data ++ repeat 0 (fecPadding (interleaveDepth self) (length data)) /\
  correctedErrors (stats (snd (decodeFEC (applyFEC data self) self'))) =
    correctedErrors (stats self').
Proof.
  intros Hb Hd Heq. unfold decodeFEC, applyFEC. rewrite Heq.
  set (depth := interleaveDepth self) in *.
  destruct (expand_spec data Hb) as [Hel Hej].
  rewrite deinterleave_interleave by (try exact Hd; apply expand_bytes).
  rewrite Hel.
  set (N := length data) in *.
  set (G := (ceilDiv (N * 3) depth * depth)%nat).
  pose proof (ceilDiv_le (N * 3) depth Hd) as HG. fold G in HG.
  set (Dl := expand data ++ repeat 0 (G - N * 3)).
  assert (HDl : length Dl = G).
  { unfold Dl. rewrite length_app, repeat_length, Hel. lia. }
  assert (Hload : forall j, load Dl j = if (j <? N * 3)%nat then load data (j / 3) else 0).
  { intros j. unfold Dl.
    destruct (Nat.ltb_spec j (N * 3)) as [Hlt|Hge].
    - rewrite load_app_l by lia. rewrite Hej.
      destruct (Nat.ltb_spec j (N * 3)); [reflexivity | lia].
    - unfold load. rewrite app_nth2 by lia. apply nth_repeat. }
  rewrite voteAll_spec. cbn [fst snd stats correctedErrors withStats].
  rewrite HDl.
  assert (Hn : (N <= G / 3)%nat).
  { apply Nat.div_le_lower_bound; lia. }
  assert (Hv : forall i, voted Dl i = ((if (i <? N)%nat then load data i else 0), 0)).
  { intros i. unfold voted. rewrite !Hload.
    destruct (Nat.ltb_spec i N) as [Hi|Hi].
    - destruct (Nat.ltb_spec (i * 3) (N * 3)); [|lia].
      destruct (Nat.ltb_spec (i * 3 + 1) (N * 3)); [|lia].
      destruct (Nat.ltb_spec (i * 3 + 2) (N * 3)); [|lia].
      replace (i * 3 / 3)%nat with i by (apply (Nat.div_unique _ 3 i 0); lia).
      replace ((i * 3 + 1) / 3)%nat with i by (apply (Nat.div_unique _ 3 i 1); lia).
      replace ((i * 3 + 2) / 3)%nat with i by (apply (Nat.div_unique _ 3 i 2); lia).
      apply majority_same, load_u8, Hb.
    - destruct (Nat.ltb_spec (i * 3) (N * 3)); [lia|].
      destruct (Nat.ltb_spec (i * 3 + 1) (N * 3)); [lia|].
      destruct (Nat.ltb_spec (i * 3 + 2) (N * 3)); [lia|].
      apply (majority_same 0). unfold u8. lia. }
  split.
  - apply list_eq_load.
    + rewrite length_map, length_seq, length_app, repeat_length.
      unfold fecPadding. fold N G. lia.
    + rewrite length_map, length_seq. intros j Hj.
      unfold load at 1.
      rewrite (nth_indep _ 0 (fst (voted Dl 0) mod 256))
        by (now rewrite length_map, length_seq).
      rewrite (map_nth (fun i => fst (voted Dl i) mod 256)), seq_nth by exact Hj.
      cbn [Nat.add]. rewrite Hv. cbn [fst].
      destruct (Nat.ltb_spec j N) as [Hlt|Hge].
      * rewrite load_app_l by exact Hlt. apply u8_mod_id, load_u8, Hb.
      * unfold load. rewrite app_nth2 by exact Hge. now rewrite nth_repeat.
  - assert (Hz : forall l, fold_left Z.add (map (fun i => snd (voted Dl i)) l) 0 = 0).
    { induction l as [|i l IH]; [reflexivity|].
      cbn [map fold_left]. rewrite Hv. cbn [snd]. exact IH. }
    rewrite Hz. lia.
Qed.

End FECRoundTrip.

(** ** Forward error correction: the claims *)

Section FECClaims.
Import Encoding.

Lemma fecPadding_8 n :
  (fecPadding 8 n <= 2)%nat /\
  (fecPadding 8 n = 0%nat <-> (n mod 8 = 0 \/ n mod 8 = 2 \/ n mod 8 = 5)%nat).
Proof.
  unfold fecPadding, ceilDiv.
  pose proof (Nat.div_mod_eq n 8) as Hn.
  pose proof (Nat.mod_upper_bound n 8 ltac:(lia)) as Hr.
  set (q := (n / 8)%nat) in *. set (r := (n mod 8)%nat) in *.
  pose proof (Nat.div_mod_eq (n * 3 + 8 - 1) 8) as H1.
  pose proof (Nat.mod_upper_bound (n * 3 + 8 - 1) 8 ltac:(lia)) as H1r.
  set (c := ((n * 3 + 8 - 1) / 8)%nat) in *.
  pose proof (Nat.div_mod_eq (c * 8) 3) as H2.
  pose proof (Nat.mod_upper_bound (c * 8) 3 ltac:(lia)) as H2r.
  lia.
Qed.

Lemma app_repeat_id (a : list Z) k : a ++ repeat 0 k = a <-> k = 0%nat.
Proof.
  split; intros H.
  - apply (f_equal (@length Z)) in H. rewrite length_app, repeat_length in H. lia.
  - subst. apply app_nil_r.
Qed.

(** C3 (as amended): with interleaving depth 8, decoding an encoded byte
    buffer returns the buffer followed by the zero bytes the padded grid
    leaves after division by three: at most two, and none exactly when the
    length is 0, 2 or 5 modulo 8, the only lengths on which the round trip is
    the identity. *)
Theorem decodeFEC_applyFEC_padding data self :
  bytes data ->
  interleaveDepth self = 8%nat ->
  let decoded := fst (decodeFEC (applyFEC data self) self) in
  decoded = data ++ repeat 0 (fecPadding 8 (length data)) /\
  (fecPadding 8 (length data) <= 2)%nat /\
  (decoded = data <->
   (length data mod 8 = 0 \/ length data mod 8 = 2 \/ length data mod 8 = 5)%nat).
Proof.
  intros Hb Hd decoded.
  destruct (decodeFEC_applyFEC data self self Hb) as [H _];
    [rewrite Hd; lia | reflexivity |].
  rewrite Hd in H. fold decoded in H.
  destruct (fecPadding_8 (length data)) as [Hle Hz].
  split; [exact H|]. split; [exact Hle|].
  rewrite H, app_repeat_id. exact Hz.
Qed.

Lemma decodeFEC_applyFEC_padding_witness :
  bytes [0xAA; 0x55] /\ interleaveDepth newLayer = 8%nat /\
  fst (decodeFEC (applyFEC [0xAA; 0x55] newLayer) newLayer) = [0xAA; 0x55].
Proof.
  assert (Hb : bytes [0xAA; 0x55]) by (repeat constructor; unfold u8; lia).
  split; [exact Hb|]. split; [reflexivity|].
  apply (proj2 (proj2 (decodeFEC_applyFEC_padding [0xAA; 0x55] newLayer Hb eq_refl))).
  right. left. reflexivity.
Defined.

(** C3 as stated fails on a one-byte buffer: a zero byte is appended. *)
Lemma decodeFEC_applyFEC_one_byte :
  fst (decodeFEC (applyFEC [0xAA] newLayer) newLayer) = [0xAA; 0] /\
  fst (decodeFEC (applyFEC [0xAA] newLayer) newLayer) <> [0xAA].
Proof. split; vm_compute; [reflexivity | discriminate]. Qed.

(** C4 (the code departs from the claim): in the encoding of [0xAA; 0x55],
    inverting bit 0 of the first copy of [0xAA] (a bit that is 0 in the
    original) still decodes to [0xAA; 0x55], but the corrected-error counter
    stays where it was; inverting bit 1 (a bit that is 1) is counted. *)
Theorem decodeFEC_flip_to_one_not_counted :
  let encoded := applyFEC [0xAA; 0x55] newLayer in
  encoded = [0xAA; 0xAA; 0xAA; 0x55; 0x55; 0x55; 0; 0] /\
  flipBit 0 0 encoded = [0xAB; 0xAA; 0xAA; 0x55; 0x55; 0x55; 0; 0] /\
  fst (decodeFEC (flipBit 0 0 encoded) newLayer) = [0xAA; 0x55] /\
  correctedErrors (stats (snd (decodeFEC (flipBit 0 0 encoded) newLayer)))
    = correctedErrors (stats newLayer) /\
  correctedErrors (stats (snd (decodeFEC (flipBit 0 1 encoded) newLayer)))
    = correctedErrors (stats newLayer) + 1.
Proof. vm_compute. repeat split. Qed.

(** C6 (the code departs from the claim): with fragments 0 (first, more to
    follow) and 2 (last) present and fragment 1 missing, [reassembleData]
    reports a complete message made of the two payloads. *)
Theorem reassembleData_accepts_gap :
  reassembleData [mkFragment 2 0x00 [3]; mkFragment 0 0xC0 [1]]
    = Complete [1; 3] 2.
Proof. vm_compute. reflexivity. Qed.

End FECClaims.

(** ** Physical layer: bytes to symbols *)

Section Symbols.
Import Physical.

Lemma groupBits_cons3 pad a b c rest :
  groupBits pad (a :: b :: c :: rest) = symbolOfBits [a; b; c] :: groupBits pad rest.
Proof. reflexivity. Qed.

Lemma symbolOfBits_3 a b c :
  symbolOfBits [a; b; c] = 4 * Z.b2z a + 2 * Z.b2z b + Z.b2z c.
Proof. unfold symbolOfBits. cbn [fold_left]. lia. Qed.

Lemma mod8_bits w :
  w mod 8 = symbolOfBits [Z.testbit w 2; Z.testbit w 1; Z.testbit w 0].
Proof.
  rewrite symbolOfBits_3.
  rewrite !Z.testbit_spec' by lia.
  change (2^2) with 4. change (2^1) with 2. change (2^0) with 1.
  rewrite Z.div_1_r.
  pose proof (Z.div_mod w 2 ltac:(lia)).
  pose proof (Z.mod_pos_bound w 2 ltac:(lia)).
  pose proof (Z.div_mod (w / 2) 2 ltac:(lia)).
  pose proof (Z.mod_pos_bound (w / 2) 2 ltac:(lia)).
  pose proof (Z.div_mod (w / 2 / 2) 2 ltac:(lia)).
  pose proof (Z.mod_pos_bound (w / 2 / 2) 2 ltac:(lia)).
  replace (w / 4) with (w / 2 / 2) by (rewrite Z.div_div by lia; reflexivity).
  symmetry. apply (Z.mod_unique_pos _ 8 (w / 2 / 2 / 2)); lia.
Qed.

Lemma band_7_bits w :
  JS.band w 7 = symbolOfBits [Z.testbit w 2; Z.testbit w 1; Z.testbit w 0].
Proof.
  unfold JS.band. rewrite (toInt32_id 7) by lia.
  change 7 with (Z.ones 3). rewrite Z.land_ones by lia. change (2^3) with 8.
  pose proof (Z.mod_pos_bound (JS.toInt32 w) 8 ltac:(lia)).
  rewrite toInt32_id by lia.
  rewrite mod8_bits, !toInt32_testbit by lia. reflexivity.
Qed.

Lemma sar_testbit v k j :
  0 <= k < 32 -> 0 <= j -> j + k < 32 ->
  Z.testbit (JS.sar v k) j = Z.testbit v (j + k).
Proof.
  intros Hk Hj Hjk. unfold JS.sar. rewrite (Z.mod_small k 32) by lia.
  rewrite Z.shiftr_spec by lia. apply toInt32_testbit. lia.
Qed.

Lemma shl_testbit v s j :
  0 <= s < 32 -> 0 <= j < 32 ->
  Z.testbit (JS.shl v s) j = if j <? s then false else Z.testbit v (j - s).
Proof.
  intros Hs Hj. unfold JS.shl. rewrite (Z.mod_small s 32) by lia.
  rewrite toInt32_testbit by lia.
  destruct (Z.ltb_spec j s).
  - apply Z.shiftl_spec_low. lia.
  - rewrite Z.shiftl_spec by lia. apply toInt32_testbit. lia.
Qed.

Lemma bor_testbit a b j :
  j < 32 -> Z.testbit (JS.bor a b) j = Z.testbit a j || Z.testbit b j.
Proof.
  intros Hj. unfold JS.bor.
  now rewrite toInt32_testbit, Z.lor_spec, !toInt32_testbit by lia.
Qed.

Lemma u8_testbit_high x j : u8 x -> 8 <= j -> Z.testbit x j = false.
Proof.
  unfold u8. intros Hx Hj. rewrite <- (Z.mod_small x (2^8)) by lia.
  apply Z.mod_pow2_bits_high. lia.
Qed.

(** The bits of the buffer after [(bitBuffer << 8) | byte]. *)
Lemma pushed_testbit buf x j :
  u8 x -> 0 <= j < 32 ->
  Z.testbit (JS.bor (JS.shl buf 8) x) j =
  if j <? 8 then Z.testbit x j else Z.testbit buf (j - 8).
Proof.
  intros Hx Hj. rewrite bor_testbit, shl_testbit by lia.
  destruct (Z.ltb_spec j 8); [reflexivity|].
  rewrite (u8_testbit_high x j) by assumption. apply orb_false_r.
Qed.

Lemma symbol_at v k :
  0 <= k <= 29 ->
  JS.band (JS.sar v k) 7 =
  symbolOfBits [Z.testbit v (k + 2); Z.testbit v (k + 1); Z.testbit v k].
Proof.
  intros Hk. rewrite band_7_bits, !sar_testbit by lia.
  replace (2 + k) with (k + 2) by lia. replace (1 + k) with (k + 1) by lia.
  now rewrite Z.add_0_l.
Qed.

Lemma pushByte_0 buf x syms :
  pushByte (buf, 0, syms) x =
  let b := JS.bor (JS.shl buf 8) x in
  (b, 2, (syms ++ [JS.band (JS.sar b 5) 7]) ++ [JS.band (JS.sar b 2) 7]).
Proof. reflexivity. Qed.

Lemma pushByte_1 buf x syms :
  pushByte (buf, 1, syms) x =
  let b := JS.bor (JS.shl buf 8) x in
  (b, 0, ((syms ++ [JS.band (JS.sar b 6) 7]) ++ [JS.band (JS.sar b 3) 7])
           ++ [JS.band (JS.sar b 0) 7]).
Proof. reflexivity. Qed.

Lemma pushByte_2 buf x syms :
  pushByte (buf, 2, syms) x =
  let b := JS.bor (JS.shl buf 8) x in
  (b, 1, ((syms ++ [JS.band (JS.sar b 7) 7]) ++ [JS.band (JS.sar b 4) 7])
           ++ [JS.band (JS.sar b 1) 7]).
Proof. reflexivity. Qed.

Ltac pack_step :=
  cbn [seq map Nat.sub Z.of_nat Pos.of_succ_nat Pos.succ app];
  rewrite !groupBits_cons3;
  rewrite !symbol_at by lia;
  repeat (rewrite pushed_testbit by (try assumption; lia));
  cbn [Z.ltb Z.compare Pos.compare Pos.compare_cont Z.add Pos.add Pos.succ
       Z.sub Z.opp Z.pos_sub Z.succ_double Z.pred_double Z.double
       Pos.pred_double Pos.add_carry];
  rewrite <- ?app_assoc; cbn [app]; try reflexivity.

Lemma pack_invariant rest :
  bytes rest ->
  forall buf nb syms, nb = 0 \/ nb = 1 \/ nb = 2 ->
  finish (fold_left pushByte rest (buf, nb, syms)) =
  syms ++ groupBits PadRight (lowBits (Z.to_nat nb) buf ++ bitsOfBytes rest).
Proof.
  induction 1 as [|x rest Hx Hrest IH]; intros buf nb syms Hnb.
  - rewrite fold_left_nil. unfold bitsOfBytes. cbn [flat_map]. rewrite app_nil_r.
    destruct Hnb as [-> | [-> | ->]]; unfold finish.
    + cbn [Z.ltb Z.compare Z.to_nat lowBits seq map groupBits]. now rewrite app_nil_r.
    + change (0 <? 1) with true. cbv iota. f_equal.
      change (3 - 1) with 2.
      rewrite band_7_bits, !shl_testbit by lia.
      reflexivity.
    + change (0 <? 2) with true. cbv iota. f_equal.
      change (3 - 2) with 1.
      rewrite band_7_bits, !shl_testbit by lia.
      reflexivity.
  - rewrite fold_left_cons.
    unfold bitsOfBytes. cbn [flat_map]. fold (bitsOfBytes rest).
    unfold bitsOfByte. cbn [seq map Nat.sub Z.of_nat Pos.of_succ_nat Pos.succ].
    destruct Hnb as [-> | [-> | ->]].
    + rewrite pushByte_0. cbv zeta. rewrite IH by auto.
      change (Z.to_nat 2) with 2%nat. change (Z.to_nat 0) with 0%nat.
      unfold lowBits. pack_step; assumption.
    + rewrite pushByte_1. cbv zeta. rewrite IH by auto.
      change (Z.to_nat 1) with 1%nat. change (Z.to_nat 0) with 0%nat.
      unfold lowBits. pack_step; assumption.
    + rewrite pushByte_2. cbv zeta. rewrite IH by auto.
      change (Z.to_nat 2) with 2%nat. change (Z.to_nat 1) with 1%nat.
      unfold lowBits. pack_step; assumption.
Qed.

End Symbols.

(** ** Bytes to symbols: the claim *)

Section SymbolClaims.
Import Physical.

Lemma nibble_values x :
  u8 x -> JS.band (JS.sar x 4) 0x0F = x / 16 /\ JS.band x 0x0F = x mod 16.
Proof.
  intros Hx.
  assert (H : ((JS.band (JS.sar x 4) 0x0F =? x / 16) &&
               (JS.band x 0x0F =? x mod 16)) = true).
  { revert x Hx. apply u8_forall. vm_compute. reflexivity. }
  apply andb_true_iff in H. destruct H as [H1 H2].
  apply Z.eqb_eq in H1, H2. now split.
Qed.

Lemma fold_nibbles data acc :
  bytes data ->
  fold_left
    (fun symbols byte =>
       symbols ++ [JS.band (JS.sar byte 4) 0x0F; JS.band byte 0x0F]) data acc =
  acc ++ nibbles data.
Proof.
  intros Hd. revert acc.
  induction Hd as [|x data Hx Hd IH]; intros acc.
  - rewrite fold_left_nil. unfold nibbles. cbn [flat_map]. now rewrite app_nil_r.
  - rewrite fold_left_cons, IH.
    destruct (nibble_values x Hx) as [-> ->].
    unfold nibbles. cbn [flat_map]. now rewrite <- app_assoc.
Qed.

Lemma bytesToSymbols_16 data :
  bytes data -> bytesToSymbols ULTRASONIC data = nibbles data.
Proof.
  intros Hd. unfold bytesToSymbols.
  change (NUM_FREQUENCIES ULTRASONIC =? 16) with true. cbv iota.
  now rewrite fold_nibbles.
Qed.

Lemma bytesToSymbols_8 data :
  bytes data ->
  bytesToSymbols AUDIBLE data = groupBits PadRight (bitsOfBytes data).
Proof.
  intros Hd. unfold bytesToSymbols.
  change (NUM_FREQUENCIES AUDIBLE =? 16) with false.
  change (NUM_FREQUENCIES AUDIBLE =? 8) with true. cbv iota.
  pose proof (pack_invariant data Hd 0 0 [] (or_introl eq_refl)) as H.
  unfold finish in H.
  destruct (fold_left pushByte data (0, 0, [])) as [[bitBuffer bitsInBuffer] symbols].
  exact H.
Qed.

(** C7 (as amended): with 16 frequencies every byte yields its high nibble
    and then its low nibble ([0x3C] gives [3; 12]); with 8 frequencies the
    bits of the bytes, most significant first and across byte boundaries,
    are cut into 3-bit symbols, and a final partial group keeps its bits in
    the high positions: the zeros are added after them. *)
Theorem bytesToSymbols_mapping data :
  bytes data ->
  bytesToSymbols ULTRASONIC data = nibbles data /\
  bytesToSymbols ULTRASONIC [0x3C] = [0x3; 0xC] /\
  bytesToSymbols AUDIBLE data = groupBits PadRight (bitsOfBytes data).
Proof.
  intros Hd. split; [now apply bytesToSymbols_16|].
  split; [vm_compute; reflexivity | now apply bytesToSymbols_8].
Qed.

Lemma bytesToSymbols_mapping_witness :
  bytes [0xDE; 0xAD] /\
  bytesToSymbols AUDIBLE [0xDE; 0xAD] = groupBits PadRight (bitsOfBytes [0xDE; 0xAD]).
Proof.
  assert (H : bytes [0xDE; 0xAD]) by (repeat constructor; unfold u8; lia).
  split; [exact H | exact (proj2 (proj2 (bytesToSymbols_mapping _ H)))].
Defined.

(** C7 as stated fails on the single byte [0xFF]: its last two bits give
    the symbol 6 (binary 110), not the left-padded 3 (binary 011). *)
Lemma bytesToSymbols_not_left_padded :
  bytesToSymbols AUDIBLE [0xFF] = [7; 7; 6] /\
  groupBits PadLeft (bitsOfBytes [0xFF]) = [7; 7; 3] /\
  bytesToSymbols AUDIBLE [0xFF] <> groupBits PadLeft (bitsOfBytes [0xFF]).
Proof. vm_compute. repeat split. discriminate. Qed.

End SymbolClaims.

(** ** Sorting *)

Section SortFacts.
Context {A : Type}.
Variables (cmp : A -> A -> Z) (key : A -> Z).
Hypothesis cmp_key : forall a b, cmp a b <= 0 <-> key a <= key b.

Lemma sortInsert_perm x l : Permutation (sortInsert cmp x l) (x :: l).
Proof.
  induction l as [|y t IH]; cbn [sortInsert]; [reflexivity|].
  destruct (cmp x y <=? 0); [reflexivity|].
  rewrite IH. apply perm_swap.
Qed.

Lemma sortBy_perm l : Permutation (sortBy cmp l) l.
Proof.
  induction l as [|x t IH]; cbn [sortBy]; [reflexivity|].
  rewrite sortInsert_perm. now constructor.
Qed.

Lemma sortInsert_sorted x l :
  StronglySorted (fun a b => key a <= key b) l ->
  StronglySorted (fun a b => key a <= key b) (sortInsert cmp x l).
Proof.
  induction 1 as [|y t Hs IH Hy]; cbn [sortInsert].
  - repeat constructor.
  - destruct (Z.leb_spec (cmp x y) 0) as [Hle|Hgt].
    + apply cmp_key in Hle.
      constructor; [now constructor|].
      constructor; [exact Hle|].
      rewrite Forall_forall in *. intros z Hz. specialize (Hy z Hz). lia.
    + assert (key y <= key x).
      { destruct (Z.le_gt_cases (key x) (key y)) as [H|H]; [|lia].
        apply cmp_key in H. lia. }
      constructor; [exact IH|].
      rewrite Forall_forall in *. intros z Hz.
      apply (Permutation_in _ (sortInsert_perm x t)) in Hz.
      destruct Hz as [<-|Hz]; [assumption | now apply Hy].
Qed.

Lemma sortBy_sorted l : StronglySorted (fun a b => key a <= key b) (sortBy cmp l).
Proof.
  induction l as [|x t IH]; cbn [sortBy]; [constructor|].
  now apply sortInsert_sorted.
Qed.

(** The sort is stable: elements of one key keep their order. *)
Lemma sortInsert_filter x l k :
  StronglySorted (fun a b => key a <= key b) l ->
  filter (fun a => key a =? k) (sortInsert cmp x l) =
  filter (fun a => key a =? k) (x :: l).
Proof.
  induction 1 as [|y t Hs IH Hy]; cbn [sortInsert]; [reflexivity|].
  destruct (Z.leb_spec (cmp x y) 0) as [Hle|Hgt]; [reflexivity|].
  assert (Hlt : key y < key x).
  { destruct (Z.le_gt_cases (key x) (key y)) as [H|H]; [|lia].
    apply cmp_key in H. lia. }
  cbn [filter] in *. rewrite IH.
  destruct (Z.eqb_spec (key y) k), (Z.eqb_spec (key x) k); try reflexivity; lia.
Qed.

Lemma sortBy_stable l k :
  filter (fun a => key a =? k) (sortBy cmp l) = filter (fun a => key a =? k) l.
Proof.
  induction l as [|x t IH]; cbn [sortBy]; [reflexivity|].
  rewrite sortInsert_filter by apply sortBy_sorted.
  cbn [filter]. now rewrite IH.
Qed.

End SortFacts.

(** ** MAC layer: the free pool *)

Section PoolFacts.
Import MAC.

Lemma removeAt_length i l :
  (i < length l)%nat -> length (removeAt i l) = (length l - 1)%nat.
Proof.
  revert i. induction l as [|h t IH]; intros [|i] Hi; cbn [removeAt length] in *; try lia.
  rewrite IH by lia. lia.
Qed.

Lemma removeAt_perm i l :
  (i < length l)%nat -> Permutation (nth i l 0 :: removeAt i l) l.
Proof.
  revert i. induction l as [|h t IH]; intros [|i] Hi; cbn [removeAt length nth] in *; try lia.
  - reflexivity.
  - rewrite perm_swap. constructor. apply IH. lia.
Qed.

(** The index the coordinator picks lies inside the pool. *)
Lemma slotIndex_lt len i k :
  0 <= i < k -> (0 < len)%nat ->
  (Z.to_nat (Z.of_nat len * (i + 1) / (k + 1)) < len)%nat.
Proof.
  intros Hi Hlen.
  assert (0 <= Z.of_nat len * (i + 1) / (k + 1) < Z.of_nat len).
  { split.
    - apply Z.div_pos; nia.
    - apply Z.div_lt_upper_bound; nia. }
  lia.
Qed.

(** One round of the inner loop when it runs: the slot at the computed
    index leaves the pool and joins the assignment. *)
Lemma takeSlots_round n i k free acc :
  0 <= i < k -> free <> [] ->
  let slotIndex := Z.to_nat (Z.of_nat (length free) * (i + 1) / (k + 1)) in
  (slotIndex < length free)%nat /\
  takeSlots (S n) i k free acc =
  takeSlots n (i + 1) k (removeAt slotIndex free) (acc ++ [nth slotIndex free 0]).
Proof.
  intros Hi Hf slotIndex.
  assert (Hlen : (0 < length free)%nat) by (destruct free; [congruence | cbn; lia]).
  split; [now apply slotIndex_lt|].
  cbn [takeSlots].
  rewrite (proj2 (Z.ltb_lt i k)) by lia.
  rewrite (proj2 (Nat.ltb_lt 0 (length free))) by exact Hlen.
  reflexivity.
Qed.

(** The inner loop takes as many slots as requested or as the pool holds,
    and only moves slots from the pool to the assignment. *)
Lemma takeSlots_spec n i k free acc :
  0 <= i -> Z.of_nat n = k - i ->
  length (fst (takeSlots n i k free acc)) = (length acc + Nat.min n (length free))%nat /\
  Permutation (fst (takeSlots n i k free acc) ++ snd (takeSlots n i k free acc))
              (acc ++ free).
Proof.
  revert i free acc. induction n as [|n IH]; intros i free acc Hi Hn.
  - cbn [takeSlots fst snd Nat.min]. split; [lia | reflexivity].
  - destruct free as [|s free'].
    + cbn [takeSlots length]. rewrite andb_false_r. cbn [fst snd].
      split; [lia | reflexivity].
    + destruct (takeSlots_round n i k (s :: free') acc) as [Hidx Heq];
        [lia | discriminate |].
      rewrite Heq.
      set (idx := Z.to_nat (Z.of_nat (length (s :: free')) * (i + 1) / (k + 1))) in *.
      destruct (IH (i + 1) (removeAt idx (s :: free')) (acc ++ [nth idx (s :: free') 0]))
        as [Hl Hp]; [lia | lia |].
      split.
      * rewrite Hl, length_app, removeAt_length by exact Hidx. cbn [length]. lia.
      * rewrite Hp, <- app_assoc. apply Permutation_app_head.
        cbn [app]. now apply removeAt_perm.
Qed.

Lemma takeSlots_count k free :
  length (fst (takeSlots (Z.to_nat k) 0 k free [])) =
  Nat.min (Z.to_nat k) (length free).
Proof.
  destruct (Z.le_gt_cases k 0) as [Hk|Hk].
  - replace (Z.to_nat k) with 0%nat by lia. reflexivity.
  - destruct (takeSlots_spec (Z.to_nat k) 0 k free []) as [H _]; [lia | lia |].
    exact H.
Qed.

Lemma takeSlots_perm k free :
  Permutation (fst (takeSlots (Z.to_nat k) 0 k free [])
                 ++ snd (takeSlots (Z.to_nat k) 0 k free [])) free.
Proof.
  destruct (Z.le_gt_cases k 0) as [Hk|Hk].
  - replace (Z.to_nat k) with 0%nat by lia. reflexivity.
  - destruct (takeSlots_spec (Z.to_nat k) 0 k free []) as [_ H]; [lia | lia |].
    exact H.
Qed.

End PoolFacts.

(** ** MAC layer: coordinator assignment *)

Section Coordinator.
Import MAC.

Lemma allGranted_app out out' :
  allGranted (out ++ out') = allGranted out ++ allGranted out'.
Proof. unfold allGranted. apply flat_map_app. Qed.

(** The body of the outer loop, with the inner loop's results named. *)
Lemma assignRequest_eq m free out request :
  let taken := takeSlots (Z.to_nat (r_numSlots request)) 0 (r_numSlots request) free [] in
  assignRequest (m, free, out) request =
  if (0 <? length (fst taken))%nat
  then (grantTo request (fst taken) m, snd taken,
        out ++ [(request, Granted (fst taken) (frameNumber m))])
  else (m, snd taken, out ++ [(request, Denied "No slots available")]).
Proof.
  cbv zeta. unfold assignRequest.
  destruct (takeSlots _ _ _ _ _) as [slots free']. cbn [fst snd].
  destruct (0 <? length slots)%nat; [|reflexivity].
  unfold grantTo. cbn [deviceId set_slotTable frameNumber].
  destruct (String.eqb _ _); reflexivity.
Qed.

(** What one request gets: as many slots as it asks for or as the pool
    holds, taken out of the pool; none means a denial. *)
Lemma assignRequest_response m free out request :
  exists resp,
    snd (assignRequest (m, free, out) request) = out ++ [(request, resp)] /\
    Permutation (grantedSlots resp ++ snd (fst (assignRequest (m, free, out) request))) free /\
    length (grantedSlots resp) =
      Nat.min (Z.to_nat (r_numSlots request)) (length free) /\
    (grantedSlots resp <> [] /\ resp = Granted (grantedSlots resp) (frameNumber m) \/
     grantedSlots resp = [] /\ resp = Denied "No slots available").
Proof.
  rewrite assignRequest_eq. cbv zeta.
  pose proof (takeSlots_count (r_numSlots request) free) as Hc.
  pose proof (takeSlots_perm (r_numSlots request) free) as Hp.
  destruct (takeSlots _ _ _ _ _) as [slots free']. cbn [fst snd] in *.
  destruct (Nat.ltb_spec 0 (length slots)) as [Hlt|Hge].
  - exists (Granted slots (frameNumber m)). cbn [fst snd grantedSlots].
    repeat split; try assumption.
    left. split; [|reflexivity]. intros ->. cbn in Hlt. lia.
  - exists (Denied "No slots available"). cbn [fst snd grantedSlots].
    assert (slots = []) by (destruct slots; [reflexivity | cbn in Hge; lia]). subst.
    repeat split; try assumption. right. split; reflexivity.
Qed.

(** The outer loop: requests are answered in the order given, every
    response is a non-empty grant or a denial, and the slots handed out and
    the slots left make up the pool the loop started from. *)
Lemma assignAll_spec requests :
  forall m free out,
  let res := fold_left assignRequest requests (m, free, out) in
  map fst (snd res) = map fst out ++ requests /\
  Permutation (allGranted (snd res) ++ snd (fst res)) (allGranted out ++ free) /\
  (Forall responseOk out -> Forall responseOk (snd res)).
Proof.
  induction requests as [|r requests IH]; intros m free out; cbv zeta.
  - rewrite fold_left_nil. cbn [fst snd]. rewrite app_nil_r. auto.
  - rewrite fold_left_cons.
    destruct (assignRequest_response m free out r) as (resp & Hout & Hperm & Hlen & Hkind).
    destruct (assignRequest (m, free, out) r) as [[m1 free1] out1] eqn:Hst.
    cbn [fst snd] in Hout, Hperm. subst out1.
    destruct (IH m1 free1 (out ++ [(r, resp)])) as (H1 & H2 & H3).
    split; [|split].
    + rewrite H1, map_app. cbn [map fst]. now rewrite <- app_assoc.
    + rewrite H2, allGranted_app. unfold allGranted at 2. cbn [flat_map snd].
      rewrite app_nil_r, <- app_assoc. now apply Permutation_app_head.
    + intros Hok. apply H3. apply Forall_app. split; [exact Hok|].
      constructor; [|constructor]. unfold responseOk. split; [lia|].
      destruct Hkind as [[Hne He]|[He Hd]]; [left | right]; split; try assumption.
      exists (frameNumber m). exact He.
Qed.

Lemma range_NoDup n : NoDup (map Z.of_nat (seq 0 n)).
Proof.
  generalize (seq_NoDup n 0). generalize (seq 0 n).
  induction 1 as [|a l Ha Hl IH]; cbn [map]; constructor; [|exact IH].
  rewrite in_map_iff. intros (b & Hb & Hin).
  apply Nat2Z.inj in Hb. now subst.
Qed.

Lemma getAvailableSlots_NoDup m : NoDup (getAvailableSlots m).
Proof. unfold getAvailableSlots. apply NoDup_filter, range_NoDup. Qed.

Lemma getAvailableSlots_In m s :
  In s (getAvailableSlots m) <->
  0 <= s < slotsPerFrame m /\ ~ In s (usedSlots (slotTable m)).
Proof.
  unfold getAvailableSlots. rewrite filter_In, in_map_iff.
  split.
  - intros [(i & <- & Hi) Hn]. apply in_seq in Hi.
    split; [lia|]. intros Hin.
    apply negb_true_iff in Hn.
    assert (existsb (Z.eqb (Z.of_nat i)) (usedSlots (slotTable m)) = true).
    { apply existsb_exists. exists (Z.of_nat i). split; [exact Hin | apply Z.eqb_refl]. }
    congruence.
  - intros [Hr Hn]. split.
    + exists (Z.to_nat s). split; [lia | apply in_seq; lia].
    + apply negb_true_iff. apply not_true_is_false. intros He.
      apply existsb_exists in He. destruct He as (x & Hx & Heq).
      apply Z.eqb_eq in Heq. subst. contradiction.
Qed.

Lemma processSlotRequests_coordinator m :
  negb (isCoordinator m) && (0 <? length (pendingSlotRequests m))%nat = false ->
  processSlotRequests m =
  let res := fold_left assignRequest
               (sortBy descendingPriority (pendingSlotRequests m))
               (m, getAvailableSlots m, []) in
  (set_pendingSlotRequests [] (fst (fst res)), snd res).
Proof.
  intros H. unfold processSlotRequests. rewrite H. cbv zeta.
  fold descendingPriority.
  destruct (fold_left _ _ _) as [[m1 free1] out1]. reflexivity.
Qed.

End Coordinator.

(** ** MAC layer: slot-table invariants *)

Section TableFacts.
Import MAC.

Lemma pigeonhole spf l :
  0 <= spf -> NoDup l -> Forall (inFrame spf) l -> Z.of_nat (length l) <= spf.
Proof.
  intros Hs Hn Hf.
  assert (H : (length l <= length (map Z.of_nat (seq 0 (Z.to_nat spf))))%nat).
  { apply NoDup_incl_length; [exact Hn|].
    intros s Hin. rewrite Forall_forall in Hf. specialize (Hf s Hin).
    unfold inFrame in Hf. apply in_map_iff. exists (Z.to_nat s).
    split; [lia | apply in_seq; lia]. }
  rewrite length_map, length_seq in H. lia.
Qed.

Lemma mapSet_used k v table :
  exists old,
    Permutation (usedSlots (mapSet k v table) ++ old) (v ++ usedSlots table).
Proof.
  unfold usedSlots. induction table as [|[k' v'] t IH]; cbn [mapSet].
  - exists []. cbn [map concat snd]. now rewrite !app_nil_r.
  - destruct (String.eqb k' k).
    + exists v'. cbn [map concat snd].
      rewrite <- app_assoc.
      apply Permutation_app_head. apply Permutation_app_comm.
    + destruct IH as [old IH]. exists old. cbn [map concat snd].
      rewrite <- app_assoc, IH.
      rewrite !app_assoc. apply Permutation_app_tail. apply Permutation_app_comm.
Qed.

Lemma mapDelete_used k table :
  exists old,
    Permutation (usedSlots (mapDelete k table) ++ old) (usedSlots table).
Proof.
  unfold usedSlots, mapDelete. induction table as [|[k' v'] t IH]; cbn [filter fst].
  - exists []. reflexivity.
  - destruct IH as [old IH]. destruct (negb (String.eqb k' k)).
    + exists old. cbn [map concat snd]. rewrite <- app_assoc.
      now apply Permutation_app_head.
    + exists (v' ++ old). cbn [map concat snd].
      rewrite Permutation_app_comm, <- app_assoc.
      apply Permutation_app_head. now rewrite Permutation_app_comm.
Qed.

Lemma NoDup_sub (a old b : list Z) :
  Permutation (a ++ old) b -> NoDup b -> NoDup a.
Proof.
  intros Hp Hn. apply (NoDup_app_remove_r a old).
  apply (Permutation_NoDup (Permutation_sym Hp) Hn).
Qed.

Lemma Forall_sub (P : Z -> Prop) (a old b : list Z) :
  Permutation (a ++ old) b -> Forall P b -> Forall P a.
Proof.
  intros Hp Hf.
  apply (Permutation_Forall (Permutation_sym Hp)) in Hf.
  apply Forall_app in Hf. tauto.
Qed.

Lemma utilisation_bounds m :
  0 < slotsPerFrame m ->
  (0 <= utilisation m)%Q /\
  (Z.of_nat (length (usedSlots (slotTable m))) <= slotsPerFrame m ->
   (utilisation m <= 1)%Q).
Proof.
  intros Hs. unfold utilisation.
  assert (Hq : (0 < inject_Z (slotsPerFrame m))%Q).
  { unfold Qlt, inject_Z. cbn. lia. }
  split.
  - apply Qle_shift_div_l; [exact Hq|].
    rewrite Qmult_0_l. change 0%Q with (inject_Z 0).
    rewrite <- Zle_Qle. lia.
  - intros Hle. apply Qle_shift_div_r; [exact Hq|].
    rewrite Qmult_1_l. rewrite <- Zle_Qle. exact Hle.
Qed.

Lemma grantTo_fields request slots m :
  slotsPerFrame (grantTo request slots m) = slotsPerFrame m /\
  slotTable (grantTo request slots m) =
    mapSet (r_deviceId request) slots (slotTable m) /\
  (assignedSlots (grantTo request slots m) = slots \/
   assignedSlots (grantTo request slots m) = assignedSlots m) /\
  stats (grantTo request slots m) = stats m /\
  deviceId (grantTo request slots m) = deviceId m /\
  isCoordinator (grantTo request slots m) = isCoordinator m.
Proof.
  unfold grantTo. cbv zeta. cbn [deviceId set_slotTable].
  destruct (String.eqb _ _); cbn; auto 10.
Qed.

Lemma assignRequest_poolOk spf m free out request :
  0 <= spf ->
  poolOk spf m free ->
  let res := assignRequest (m, free, out) request in
  poolOk spf (fst (fst res)) (snd (fst res)) /\
  stats (fst (fst res)) = stats m /\
  isCoordinator (fst (fst res)) = isCoordinator m /\
  deviceId (fst (fst res)) = deviceId m.
Proof.
  intros Hspf (Hs & Hn & Hf & Ha). cbv zeta.
  rewrite assignRequest_eq. cbv zeta.
  pose proof (takeSlots_perm (r_numSlots request) free) as Hp.
  destruct (takeSlots _ _ _ _ _) as [slots free']. cbn [fst snd] in *.
  assert (Hfree : Permutation (usedSlots (slotTable m) ++ slots ++ free')
                              (usedSlots (slotTable m) ++ free))
    by now apply Permutation_app_head.
  destruct (0 <? length slots)%nat; cbn [fst snd].
  - destruct (grantTo_fields request slots m) as (F1 & F2 & F3 & F4 & F5 & F6).
    destruct (mapSet_used (r_deviceId request) slots (slotTable m)) as [old Hold].
    assert (Hall : Permutation
              ((usedSlots (slotTable (grantTo request slots m)) ++ free') ++ old)
              (usedSlots (slotTable m) ++ free)).
    { rewrite F2, <- Hfree.
      rewrite <- app_assoc, (Permutation_app_comm free' old), app_assoc, Hold.
      rewrite <- app_assoc. apply Permutation_app_swap_app. }
    repeat split; try assumption.
    + congruence.
    + exact (NoDup_sub _ _ _ Hall Hn).
    + exact (Forall_sub _ _ _ _ Hall Hf).
    + destruct F3 as [-> | ->]; [|exact Ha].
      apply pigeonhole; [exact Hspf | |].
      * apply (NoDup_sub slots (usedSlots (slotTable m) ++ free')
                 (usedSlots (slotTable m) ++ free)); [|exact Hn].
        rewrite <- Hfree. rewrite Permutation_app_comm, <- app_assoc.
        apply Permutation_app_head, Permutation_app_comm.
      * apply (Forall_sub _ slots (usedSlots (slotTable m) ++ free')
                 (usedSlots (slotTable m) ++ free)); [|exact Hf].
        rewrite <- Hfree. rewrite Permutation_app_comm, <- app_assoc.
        apply Permutation_app_head, Permutation_app_comm.
  - repeat split; try assumption.
    + apply (NoDup_sub _ slots (usedSlots (slotTable m) ++ free)); [|exact Hn].
      rewrite <- Hfree, <- app_assoc.
      apply Permutation_app_head, Permutation_app_comm.
    + apply (Forall_sub _ _ slots (usedSlots (slotTable m) ++ free)); [|exact Hf].
      rewrite <- Hfree, <- app_assoc.
      apply Permutation_app_head, Permutation_app_comm.
Qed.

Lemma assignAll_poolOk spf requests :
  0 <= spf ->
  forall m free out,
  poolOk spf m free ->
  let res := fold_left assignRequest requests (m, free, out) in
  poolOk spf (fst (fst res)) (snd (fst res)) /\
  stats (fst (fst res)) = stats m /\
  isCoordinator (fst (fst res)) = isCoordinator m /\
  deviceId (fst (fst res)) = deviceId m.
Proof.
  intros Hspf. induction requests as [|r requests IH]; intros m free out Hok; cbv zeta.
  - rewrite fold_left_nil. cbn [fst snd]. auto.
  - rewrite fold_left_cons.
    destruct (assignRequest_poolOk spf m free out r Hspf Hok) as (H1 & H2 & H3 & H4).
    destruct (assignRequest (m, free, out) r) as [[m1 free1] out1].
    cbn [fst snd] in *.
    destruct (IH m1 free1 out1 H1) as (G1 & G2 & G3 & G4).
    split; [exact G1|]. repeat split; congruence.
Qed.

Lemma getAvailableSlots_poolOk m :
  tableOk m ->
  Z.of_nat (length (assignedSlots m)) <= slotsPerFrame m ->
  poolOk (slotsPerFrame m) m (getAvailableSlots m).
Proof.
  intros [Hn Hf] Ha. repeat split; try assumption.
  - apply NoDup_app; [exact Hn | apply getAvailableSlots_NoDup |].
    intros s Hin Hin'. apply getAvailableSlots_In in Hin'. tauto.
  - apply Forall_app. split; [exact Hf|].
    apply Forall_forall. intros s Hin.
    apply getAvailableSlots_In in Hin. unfold inFrame. tauto.
Qed.

End TableFacts.

(** ** MAC layer: the claims *)

Section MACClaims.
Import MAC.

Lemma descendingPriority_key a b :
  descendingPriority a b <= 0 <-> - r_priority a <= - r_priority b.
Proof. unfold descendingPriority. lia. Qed.

Lemma sorted_descending l :
  StronglySorted (fun a b => - r_priority a <= - r_priority b) l ->
  StronglySorted (fun a b => r_priority b <= r_priority a) l.
Proof.
  induction 1 as [|x l Hs IH Hx]; constructor; [exact IH|].
  rewrite Forall_forall in *. intros y Hy. specialize (Hx y Hy). lia.
Qed.

Lemma processSlotRequests_run m :
  isCoordinator m = true ->
  let out := snd (processSlotRequests m) in
  map fst out = sortBy descendingPriority (pendingSlotRequests m) /\
  Forall responseOk out /\
  NoDup (allGranted out) /\
  incl (allGranted out) (getAvailableSlots m) /\
  pendingSlotRequests (fst (processSlotRequests m)) = [].
Proof.
  intros Hc. cbv zeta.
  rewrite processSlotRequests_coordinator by (rewrite Hc; reflexivity). cbv zeta.
  cbn [fst snd].
  destruct (assignAll_spec (sortBy descendingPriority (pendingSlotRequests m))
              m (getAvailableSlots m) []) as (H1 & H2 & H3).
  cbn [map allGranted flat_map app] in H1, H2.
  split; [exact H1|]. split; [apply H3; constructor|].
  split; [|split; [|reflexivity]].
  - exact (NoDup_sub _ _ _ H2 (getAvailableSlots_NoDup m)).
  - intros s Hs. apply (Permutation_in s H2). apply in_or_app. now left.
Qed.

(** C8 (as amended): the coordinator answers the pending requests in
    descending priority order.  A request for k slots is given as many slots
    as it asks for or as the free pool still holds, whichever is less, each
    taken at index floor(|free| (i+1) / (k+1)) of the shrinking pool; the
    slots handed out in one run are pairwise distinct and come from the
    slots free at its start (two devices asking for 2 slots each on a
    20-slot frame get 6, 13 and 7, 14).  A request that gets no slot is
    answered with success = false and reason 'No slots available'. *)
Theorem coordinator_assignment m :
  isCoordinator m = true ->
  let out := snd (processSlotRequests m) in
  (map fst out = sortBy descendingPriority (pendingSlotRequests m) /\
   Permutation (map fst out) (pendingSlotRequests m) /\
   StronglySorted (fun a b => r_priority b <= r_priority a) (map fst out)) /\
  Forall responseOk out /\
  NoDup (allGranted out) /\
  incl (allGranted out) (getAvailableSlots m) /\
  (forall m0 free out0 request,
     exists resp,
       snd (assignRequest (m0, free, out0) request) = out0 ++ [(request, resp)] /\
       Permutation
         (grantedSlots resp ++ snd (fst (assignRequest (m0, free, out0) request))) free /\
       length (grantedSlots resp) =
         Nat.min (Z.to_nat (r_numSlots request)) (length free) /\
       (grantedSlots resp <> [] /\ resp = Granted (grantedSlots resp) (frameNumber m0) \/
        grantedSlots resp = [] /\ resp = Denied "No slots available")) /\
  (forall n i k free acc, 0 <= i < k -> free <> [] ->
     let slotIndex := Z.to_nat (Z.of_nat (length free) * (i + 1) / (k + 1)) in
     (slotIndex < length free)%nat /\
     takeSlots (S n) i k free acc =
     takeSlots n (i + 1) k (removeAt slotIndex free) (acc ++ [nth slotIndex free 0])) /\
  snd (processSlotRequests
         (set_pendingSlotRequests [mkRequest "A" 2 5; mkRequest "B" 2 5]
            (set_isCoordinator true (newMAC "C" 20))))
    = [(mkRequest "A" 2 5, Granted [6; 13] 0); (mkRequest "B" 2 5, Granted [7; 14] 0)].
Proof.
  intros Hc out.
  destruct (processSlotRequests_run m Hc) as (H1 & H2 & H3 & H4 & _).
  fold out in H1, H2, H3, H4.
  split; [split; [exact H1 | split]|].
  - rewrite H1. apply sortBy_perm.
  - rewrite H1. apply sorted_descending.
    apply (sortBy_sorted descendingPriority (fun r => - r_priority r)).
    apply descendingPriority_key.
  - split; [exact H2|]. split; [exact H3|]. split; [exact H4|].
    split; [intros; apply assignRequest_response|].
    split; [intros; now apply takeSlots_round|].
    vm_compute. reflexivity.
Qed.

Lemma coordinator_assignment_witness :
  isCoordinator (set_pendingSlotRequests [mkRequest "A" 2 5; mkRequest "B" 2 9]
                   (set_isCoordinator true (newMAC "C" 20))) = true /\
  NoDup (allGranted (snd (processSlotRequests
           (set_pendingSlotRequests [mkRequest "A" 2 5; mkRequest "B" 2 9]
              (set_isCoordinator true (newMAC "C" 20)))))).
Proof.
  split; [reflexivity|].
  exact (proj1 (proj2 (proj2 (coordinator_assignment
           (set_pendingSlotRequests [mkRequest "A" 2 5; mkRequest "B" 2 9]
              (set_isCoordinator true (newMAC "C" 20))) eq_refl)))).
Defined.

(** C8 as stated fails when the pool is smaller than the request: asking
    for 3 slots on a 2-slot frame is answered with success and 2 slots. *)
Lemma coordinator_partial_grant :
  snd (processSlotRequests
         (set_pendingSlotRequests [mkRequest "A" 3 5]
            (set_isCoordinator true (newMAC "C" 2))))
    = [(mkRequest "A" 3 5, Granted [0; 1] 0)] /\
  length [0; 1] <> Z.to_nat 3.
Proof. split; [vm_compute; reflexivity | vm_compute; discriminate]. Qed.

Lemma set_stats_fields v m :
  slotsPerFrame (set_stats v m) = slotsPerFrame m /\
  slotTable (set_stats v m) = slotTable m /\
  assignedSlots (set_stats v m) = assignedSlots m /\
  stats (set_stats v m) = v.
Proof. repeat split. Qed.

Lemma onFrameStart_coordinator m :
  isCoordinator m = true -> MacInv m -> MacInv (fst (onFrameStart m)).
Proof.
  intros Hc (Hs & Ht & Ha & Hu).
  unfold onFrameStart. cbv zeta.
  set (m1 := set_currentSlot 0 m).
  assert (Hc1 : isCoordinator m1 = true) by exact Hc.
  rewrite (processSlotRequests_coordinator m1) by (rewrite Hc1; reflexivity).
  cbv zeta. cbn [fst snd].
  destruct (assignAll_poolOk (slotsPerFrame m)
              (sortBy descendingPriority (pendingSlotRequests m1)) ltac:(lia)
              m1 (getAvailableSlots m1) [])
    as ((P1 & P2 & P3 & P4) & _).
  { apply (getAvailableSlots_poolOk m1); assumption. }
  destruct (fold_left _ _ _) as [[m2 free2] out2]. cbn [fst snd] in *.
  set (m3 := set_pendingSlotRequests [] m2).
  assert (E1 : slotsPerFrame m3 = slotsPerFrame m) by exact P1.
  assert (Hn3 : NoDup (usedSlots (slotTable m3)))
    by exact (NoDup_app_remove_r _ _ P2).
  assert (Hf3 : Forall (inFrame (slotsPerFrame m)) (usedSlots (slotTable m3))).
  { apply Forall_app in P3. tauto. }
  assert (Hs0 : 0 <= slotsPerFrame m) by lia.
  pose proof (pigeonhole (slotsPerFrame m) _ Hs0 Hn3 Hf3) as Hcount.
  assert (Hs3 : 0 < slotsPerFrame m3) by (rewrite E1; exact Hs).
  destruct (utilisation_bounds m3 Hs3) as [U0 U1].
  unfold MacInv, tableOk. cbn [slotsPerFrame slotTable assignedSlots stats set_stats
                                slotUtilization].
  fold m3. rewrite E1.
  repeat split; try assumption.
  apply U1. now rewrite E1.
Qed.

Lemma handleCollision_inv random m : MacInv m -> MacInv (handleCollision random m).
Proof.
  intros (Hs & Ht & Ha & Hu). unfold handleCollision. cbv zeta.
  destruct (transmitQueue _) as [|e rest];
    unfold MacInv, tableOk; cbn; repeat split; try tauto; try lia;
    destruct Ht; assumption.
Qed.

Lemma releaseSlots_inv m : MacInv m -> MacInv (releaseSlots m).
Proof.
  intros (Hs & [Hn Hf] & Ha & Hu). unfold releaseSlots. cbv zeta.
  destruct (mapDelete_used (deviceId m) (slotTable m)) as [old Hold].
  unfold MacInv, tableOk.
  cbn [slotsPerFrame slotTable assignedSlots stats set_assignedSlots set_slotTable length].
  repeat split; try tauto; try lia.
  - exact (NoDup_sub _ _ _ Hold Hn).
  - exact (Forall_sub _ _ _ _ Hold Hf).
Qed.

Lemma newMAC_inv id spf : 0 < spf -> MacInv (newMAC id spf).
Proof.
  intros Hs. unfold MacInv, tableOk, newMAC, usedSlots. cbn.
  repeat split; try lia; try constructor; try discriminate.
Qed.

Lemma assignAll_slotsPerFrame requests :
  forall m free out,
  slotsPerFrame (fst (fst (fold_left assignRequest requests (m, free, out)))) =
  slotsPerFrame m.
Proof.
  induction requests as [|r requests IH]; intros m free out; [reflexivity|].
  rewrite fold_left_cons, assignRequest_eq. cbv zeta.
  destruct (0 <? _)%nat; rewrite IH; [|reflexivity].
  apply grantTo_fields.
Qed.

Lemma contention_slotsPerFrame m :
  slotsPerFrame (fst (contentionBasedSlotSelection m)) = slotsPerFrame m.
Proof.
  unfold contentionBasedSlotSelection.
  set (step := fun '(m0, out) request => _).
  assert (H : forall l m0 out,
            slotsPerFrame (fst (fold_left step l (m0, out))) = slotsPerFrame m0).
  { induction l as [|r l IH]; intros m0 out; [reflexivity|].
    rewrite fold_left_cons. unfold step at 2. rewrite IH.
    destruct (String.eqb _ _); reflexivity. }
  specialize (H (pendingSlotRequests m) m []).
  destruct (fold_left step _ _) as [m1 out1]. exact H.
Qed.

Lemma processSlotRequests_slotsPerFrame m :
  slotsPerFrame (fst (processSlotRequests m)) = slotsPerFrame m.
Proof.
  destruct (negb (isCoordinator m) && (0 <? length (pendingSlotRequests m))%nat) eqn:Hb.
  - unfold processSlotRequests. rewrite Hb. apply contention_slotsPerFrame.
  - rewrite processSlotRequests_coordinator by exact Hb. cbv zeta. cbn [fst].
    apply (assignAll_slotsPerFrame _ m (getAvailableSlots m) []).
Qed.

Lemma onFrameStart_utilisation_nonneg m :
  0 < slotsPerFrame m ->
  (0 <= slotUtilization (stats (fst (onFrameStart m))))%Q.
Proof.
  intros Hs. unfold onFrameStart. cbv zeta.
  pose proof (processSlotRequests_slotsPerFrame (set_currentSlot 0 m)) as E.
  destruct (processSlotRequests (set_currentSlot 0 m)) as [m2 out].
  cbn [fst snd stats set_stats slotUtilization] in *.
  apply utilisation_bounds. rewrite E. exact Hs.
Qed.

(** C9 (as amended): slot utilisation is never negative.  From a slot table
    whose slots are pairwise distinct and inside the frame (as in a new
    layer), frame start in coordinator mode, collision handling and release
    keep the table so and keep utilisation within [0, 1] and the number of
    assigned slots within slotsPerFrame. *)
Theorem mac_slot_bounds :
  (forall id spf, 0 < spf -> MacInv (newMAC id spf)) /\
  (forall m, isCoordinator m = true -> MacInv m -> MacInv (fst (onFrameStart m))) /\
  (forall random m, MacInv m -> MacInv (handleCollision random m)) /\
  (forall m, MacInv m -> MacInv (releaseSlots m)) /\
  (forall m, 0 < slotsPerFrame m ->
     (0 <= slotUtilization (stats (fst (onFrameStart m))))%Q).
Proof.
  split; [exact newMAC_inv|].
  split; [exact onFrameStart_coordinator|].
  split; [exact handleCollision_inv|].
  split; [exact releaseSlots_inv | exact onFrameStart_utilisation_nonneg].
Qed.

Lemma mac_slot_bounds_witness :
  0 < 20 /\
  MacInv (fst (onFrameStart
            (set_pendingSlotRequests [mkRequest "A" 2 5]
               (set_isCoordinator true (newMAC "C" 20))))).
Proof.
  split; [reflexivity|].
  apply (proj1 (proj2 mac_slot_bounds)); [reflexivity|].
  assert (H : MacInv (newMAC "C" 20)) by (apply (proj1 mac_slot_bounds); reflexivity).
  exact H.
Defined.

(** C9 as stated fails under contention: a device that asks for 21 slots on
    a 20-slot frame is assigned 21 slots, and utilisation is 21/20. *)
Lemma contention_exceeds_frame :
  let m := fst (onFrameStart (requestSlots 21 5 (newMAC "A" 20))) in
  slotsPerFrame m = 20 /\
  length (assignedSlots m) = 21%nat /\
  Qeq (slotUtilization (stats m)) (21 # 20) /\
  ~ (slotUtilization (stats m) <= 1)%Q /\
  ~ (Z.of_nat (length (assignedSlots m)) <= slotsPerFrame m).
Proof.
  vm_compute. repeat split; try reflexivity; intros H; apply H; reflexivity.
Qed.

End MACClaims.

(** ** Frames on the receive path *)

Section ReceivePath.
Import Encoding.

Lemma slice_app_l a b s e :
  (e <= length a)%nat -> slice (a ++ b) s e = slice a s e.
Proof.
  intros He. unfold slice.
  destruct (Nat.le_gt_cases s (length a)) as [Hs|Hs].
  - rewrite skipn_app.
    replace (s - length a)%nat with 0%nat by lia. rewrite skipn_O.
    rewrite firstn_app, length_skipn.
    replace (e - s - (length a - s))%nat with 0%nat by lia.
    now rewrite firstn_O, app_nil_r.
  - replace (e - s)%nat with 0%nat by lia. reflexivity.
Qed.

(** Bytes that follow a complete frame are not read. *)
Lemma parseOutcome_trailing frame extra :
  (12 <= length frame)%nat ->
  12 + lengthField frame <= Z.of_nat (length frame) ->
  bytes frame ->
  parseOutcome (frame ++ extra) = parseOutcome frame.
Proof.
  intros H12 HL Hb.
  pose proof (lengthField_range frame Hb) as Hr.
  assert (Hl : forall i, (i < length frame)%nat -> load (frame ++ extra) i = load frame i)
    by (intros; now apply load_app_l).
  assert (HLF : lengthField (frame ++ extra) = lengthField frame).
  { unfold lengthField. now rewrite !Hl by lia. }
  unfold parseOutcome. rewrite HLF. cbv zeta.
  set (L := lengthField frame) in *.
  rewrite length_app.
  rewrite (proj2 (Nat.ltb_ge (length frame + length extra) 12)) by lia.
  rewrite (proj2 (Nat.ltb_ge (length frame) 12)) by lia.
  rewrite !Hl by lia.
  destruct (negb (load frame 0 =? 172) || negb (load frame 1 =? 77)); [reflexivity|].
  rewrite (proj2 (Z.ltb_ge (Z.of_nat (length frame + length extra)) (12 + L))) by lia.
  rewrite (proj2 (Z.ltb_ge (Z.of_nat (length frame)) (12 + L))) by lia.
  assert (Hs : storedCRC (frame ++ extra) (Z.to_nat L) = storedCRC frame (Z.to_nat L)).
  { unfold storedCRC. now rewrite !Hl by lia. }
  rewrite Hs, !slice_app_l by lia.
  reflexivity.
Qed.

Lemma parseFrame_trailing frame extra self :
  bytes frame -> bytes extra ->
  (12 <= length frame)%nat ->
  12 + lengthField frame <= Z.of_nat (length frame) ->
  fst (parseFrame (frame ++ extra) self) = fst (parseFrame frame self).
Proof.
  intros Hf He H12 HL.
  rewrite !parseFrame_outcome by (try apply bytes_app; assumption).
  now apply parseOutcome_trailing.
Qed.

(** X1: what [parseFrame] makes of a frame of [createFrame].  For a payload
    of fewer than 65536 bytes the frame parses back to the payload, with the
    type and flags reduced modulo 256 and the sequence modulo 65536, exactly
    when its CRC-32 is below [2^31]; otherwise the parser reports a CRC
    mismatch. *)
Theorem createFrame_parseFrame_roundtrip payload options self rx :
  bytes payload ->
  Z.of_nat (length payload) < 65536 ->
  let type := JS.orDefault (opt_type options) MESSAGE_TYPES_DATA in
  let flags := JS.orDefault (opt_flags options) 0 in
  let sequence := JS.orDefault (opt_sequence options) 0 in
  fst (parseFrame (fst (createFrame payload options self)) rx) =
  if calculateCRC (frameHeader type flags sequence (Z.of_nat (length payload)) ++ payload)
       <? 2^31
  then Valid (type mod 256) (flags mod 256) (sequence mod 65536) payload
         (Z.of_nat (length payload))
  else CRCMismatch.
Proof. apply createFrame_parseFrame. Qed.

Lemma createFrame_parseFrame_roundtrip_witness :
  bytes [1; 2; 3] /\
  Z.of_nat (length [1; 2; 3]) < 65536 /\
  fst (parseFrame (fst (createFrame [1; 2; 3] (mkOptions (Some 0x102) (Some 7) None)
                          newLayer)) newLayer)
  = Valid 2 0 7 [1; 2; 3] 3.
Proof.
  split; [repeat constructor; unfold u8; lia|]. split; [simpl; lia|].
  rewrite (createFrame_parseFrame_roundtrip [1; 2; 3]
             (mkOptions (Some 0x102) (Some 7) None) newLayer newLayer).
  - vm_compute. reflexivity.
  - repeat constructor; unfold u8; lia.
  - simpl; lia.
Defined.

(** X2: [parseFrame] on a complete frame followed by any bytes returns what
    it returns on the frame alone; the bytes behind the CRC are never read. *)
Theorem parseFrame_ignores_trailing_bytes frame extra self :
  bytes frame -> bytes extra ->
  (12 <= length frame)%nat ->
  12 + lengthField frame <= Z.of_nat (length frame) ->
  fst (parseFrame (frame ++ extra) self) = fst (parseFrame frame self).
Proof. apply parseFrame_trailing. Qed.

Lemma parseFrame_ignores_trailing_bytes_witness :
  fst (parseFrame ([0xAC; 0x4D; 2; 0; 0; 0; 0; 3; 1; 2; 3; 109; 26; 203; 20] ++ [0; 0])
         newLayer)
  = fst (parseFrame [0xAC; 0x4D; 2; 0; 0; 0; 0; 3; 1; 2; 3; 109; 26; 203; 20] newLayer).
Proof.
  apply parseFrame_ignores_trailing_bytes.
  - repeat constructor; unfold u8; lia.
  - repeat constructor; unfold u8; lia.
  - simpl; lia.
  - vm_compute; discriminate.
Defined.

Lemma repeat_zero_bytes n : bytes (repeat 0 n).
Proof. apply (u8_new_bytes n). Qed.

Lemma parseFrame_decodeFEC payload options self fec rx :
  bytes payload ->
  Z.of_nat (length payload) < 65536 ->
  (0 < interleaveDepth fec)%nat ->
  let frame := fst (createFrame payload options self) in
  fst (parseFrame (fst (decodeFEC (applyFEC frame fec) fec)) rx) =
  fst (parseFrame frame rx).
Proof.
  intros Hp Hlen Hd frame.
  assert (Hf : bytes frame).
  { unfold frame. rewrite createFrame_layout. now apply frameBytes_bytes. }
  destruct (decodeFEC_applyFEC frame fec fec Hf Hd eq_refl) as [Hdec _].
  rewrite Hdec.
  apply parseFrame_trailing.
  - exact Hf.
  - apply repeat_zero_bytes.
  - unfold frame. rewrite createFrame_length. lia.
  - unfold frame. rewrite createFrame_lengthField, createFrame_length.
    rewrite Z.mod_small by lia. lia.
Qed.

(** X3: the transmit and receive paths compose.  A frame of [createFrame]
    that went through [applyFEC] and [decodeFEC] parses exactly as the frame
    itself: the zero bytes the decoder appends are not read. *)
Theorem parseFrame_through_FEC payload options self fec rx :
  bytes payload ->
  Z.of_nat (length payload) < 65536 ->
  (0 < interleaveDepth fec)%nat ->
  let frame := fst (createFrame payload options self) in
  fst (parseFrame (fst (decodeFEC (applyFEC frame fec) fec)) rx) =
  fst (parseFrame frame rx).
Proof. apply parseFrame_decodeFEC. Qed.

Lemma parseFrame_through_FEC_witness :
  fst (parseFrame
         (fst (decodeFEC (applyFEC (fst (createFrame [1; 2; 3] noOptions newLayer))
                            newLayer) newLayer)) newLayer)
  = Valid 2 0 0 [1; 2; 3] 3.
Proof.
  rewrite (parseFrame_through_FEC [1; 2; 3] noOptions newLayer newLayer newLayer).
  - vm_compute. reflexivity.
  - repeat constructor; unfold u8; lia.
  - simpl; lia.
  - apply Nat.lt_0_succ.
Defined.

End ReceivePath.

(** ** CRC-32: a corrupted byte is always detected *)

Section CRCDetection.
Import Encoding Encoding.CRCSpec.

Lemma lxor_cancel_l a b c : Z.lxor a b = Z.lxor a c -> b = c.
Proof.
  intros H. apply (f_equal (Z.lxor a)) in H.
  now rewrite <- !Z.lxor_assoc, Z.lxor_nilpotent, !Z.lxor_0_l in H.
Qed.

Lemma lxor_cancel_r a b c : Z.lxor b a = Z.lxor c a -> b = c.
Proof. rewrite !(Z.lxor_comm _ a). apply lxor_cancel_l. Qed.

Lemma bitStep_zero c : 0 <= c < 2^32 -> bitStep c = 0 -> c = 0.
Proof.
  intros Hc. unfold bitStep.
  pose proof (Z.div_mod c 2 ltac:(lia)) as Hdm.
  pose proof (Z.mod_pos_bound c 2 ltac:(lia)) as Hm.
  rewrite Z.shiftr_div_pow2 by lia. change (2^1) with 2.
  destruct (Z.odd c) eqn:Ho.
  - intros H. apply Z.lxor_eq in H. unfold POLY in H. lia.
  - intros H. rewrite <- Z.bit0_odd, Z.bit0_eqb in Ho.
    apply Z.eqb_neq in Ho. lia.
Qed.

Lemma bitStep_inj a b :
  0 <= a < 2^32 -> 0 <= b < 2^32 -> bitStep a = bitStep b -> a = b.
Proof.
  intros Ha Hb H. apply Z.lxor_eq. apply bitStep_zero; [now apply lxor_u32|].
  rewrite bitStep_lxor, H. apply Z.lxor_nilpotent.
Qed.

Lemma iter_bitStep_inj n a b :
  0 <= a < 2^32 -> 0 <= b < 2^32 -> iter n bitStep a = iter n bitStep b -> a = b.
Proof.
  revert a b. induction n as [|n IH]; intros a b Ha Hb H; [exact H|].
  cbn [iter] in H. apply IH in H; try now apply bitStep_range.
  now apply bitStep_inj.
Qed.

Lemma u8_u32 b : u8 b -> 0 <= b < 2^32.
Proof. unfold u8. lia. Qed.

Lemma byteStep_range c b : 0 <= c < 2^32 -> u8 b -> 0 <= byteStep c b < 2^32.
Proof.
  intros Hc Hb. unfold byteStep. apply iter_bitStep_range, lxor_u32; [exact Hc|].
  now apply u8_u32.
Qed.

Lemma byteStep_inj_state c c' b :
  0 <= c < 2^32 -> 0 <= c' < 2^32 -> u8 b ->
  byteStep c b = byteStep c' b -> c = c'.
Proof.
  intros Hc Hc' Hb H. unfold byteStep in H.
  apply iter_bitStep_inj in H; try (apply lxor_u32; auto using u8_u32).
  now apply lxor_cancel_r in H.
Qed.

Lemma byteStep_inj_byte c b b' :
  0 <= c < 2^32 -> u8 b -> u8 b' ->
  byteStep c b = byteStep c b' -> b = b'.
Proof.
  intros Hc Hb Hb' H. unfold byteStep in H.
  apply iter_bitStep_inj in H; try (apply lxor_u32; auto using u8_u32).
  now apply lxor_cancel_l in H.
Qed.

Lemma fold_byteStep_range data c :
  bytes data -> 0 <= c < 2^32 -> 0 <= fold_left byteStep data c < 2^32.
Proof.
  intros Hd. revert c. induction Hd as [|b data Hb Hd IH]; intros c Hc; [exact Hc|].
  rewrite fold_left_cons. apply IH. now apply byteStep_range.
Qed.

Lemma fold_byteStep_inj data c c' :
  bytes data -> 0 <= c < 2^32 -> 0 <= c' < 2^32 ->
  fold_left byteStep data c = fold_left byteStep data c' -> c = c'.
Proof.
  intros Hd. revert c c'.
  induction Hd as [|b data Hb Hd IH]; intros c c' Hc Hc' H; [exact H|].
  rewrite !fold_left_cons in H.
  apply IH in H; try now apply byteStep_range.
  now apply byteStep_inj_state in H.
Qed.

(** Two byte buffers that differ in exactly one byte have different
    CRC-32 values. *)
Lemma crc32_one_byte pre b b' suf :
  bytes pre -> u8 b -> u8 b' -> bytes suf -> b <> b' ->
  crc32 (pre ++ b :: suf) <> crc32 (pre ++ b' :: suf).
Proof.
  intros Hpre Hb Hb' Hsuf Hne H. unfold crc32 in H.
  apply lxor_cancel_r in H.
  rewrite !fold_left_app, !fold_left_cons in H.
  assert (Hs : 0 <= fold_left byteStep pre 4294967295 < 2^32)
    by (apply fold_byteStep_range; [exact Hpre | lia]).
  apply fold_byteStep_inj in H; try assumption; try now apply byteStep_range.
  now apply byteStep_inj_byte in H.
Qed.

Lemma store_split i v a :
  (i < length a)%nat ->
  a = firstn i a ++ load a i :: skipn (S i) a /\
  store i v a = firstn i a ++ (v mod 256) :: skipn (S i) a.
Proof.
  unfold load. revert i. induction a as [|h t IH]; intros [|i] Hi; cbn [length] in Hi; try lia.
  - split; reflexivity.
  - destruct (IH i ltac:(lia)) as [H1 H2].
    split.
    + change (h :: t = h :: (firstn i t ++ nth i t 0 :: skipn (S i) t)).
      f_equal. exact H1.
    + change (h :: store i v t = h :: (firstn i t ++ v mod 256 :: skipn (S i) t)).
      f_equal. exact H2.
Qed.

Lemma bytes_firstn n a : bytes a -> bytes (firstn n a).
Proof.
  unfold bytes. intros H. rewrite <- (firstn_skipn n a) in H.
  apply Forall_app in H. tauto.
Qed.

Lemma bytes_skipn n a : bytes a -> bytes (skipn n a).
Proof.
  unfold bytes. intros H. rewrite <- (firstn_skipn n a) in H.
  apply Forall_app in H. tauto.
Qed.

Lemma calculateCRC_store_neq data i v :
  bytes data -> (i < length data)%nat -> u8 v -> v <> load data i ->
  calculateCRC (store i v data) <> calculateCRC data.
Proof.
  intros Hd Hi Hv Hne.
  rewrite !calculateCRC_spec by (try apply store_bytes; exact Hd).
  destruct (store_split i v data Hi) as [H1 H2].
  rewrite H2. rewrite H1 at 3. rewrite (u8_mod_id v Hv).
  apply crc32_one_byte; auto using bytes_firstn, bytes_skipn, load_u8.
Qed.

(** X4: replacing one byte of a buffer by a different byte changes what
    [calculateCRC] returns. *)
Theorem calculateCRC_detects_one_byte data i v :
  bytes data -> (i < length data)%nat -> u8 v -> v <> load data i ->
  calculateCRC (store i v data) <> calculateCRC data.
Proof. apply calculateCRC_store_neq. Qed.

Lemma calculateCRC_detects_one_byte_witness :
  calculateCRC (store 1 9 [1; 2; 3]) <> calculateCRC [1; 2; 3].
Proof.
  apply calculateCRC_detects_one_byte.
  - repeat constructor; unfold u8; lia.
  - simpl; lia.
  - unfold u8; lia.
  - vm_compute; discriminate.
Defined.

Lemma store_app_l i v a b :
  (i < length a)%nat -> store i v (a ++ b) = store i v a ++ b.
Proof.
  revert i. induction a as [|h t IH]; intros [|i] Hi; cbn [length] in Hi; try lia.
  - reflexivity.
  - cbn [app]. rewrite !store_S. cbn [app]. f_equal. apply IH. lia.
Qed.

Lemma parseOutcome_mismatch frame :
  bytes frame ->
  (12 <= length frame)%nat ->
  load frame 0 = 0xAC -> load frame 1 = 0x4D ->
  12 + lengthField frame <= Z.of_nat (length frame) ->
  storedCRC frame (Z.to_nat (lengthField frame))
    <> calculateCRC (slice frame 0 (8 + Z.to_nat (lengthField frame))) ->
  parseOutcome frame = CRCMismatch.
Proof.
  intros Hb H12 H0 H1 HL Hne. unfold parseOutcome. cbv zeta.
  pose proof (calculateCRC_range (slice frame 0 (8 + Z.to_nat (lengthField frame)))) as Hr.
  revert Hne Hr.
  generalize (calculateCRC (slice frame 0 (8 + Z.to_nat (lengthField frame)))).
  intros crc Hne Hr.
  rewrite (proj2 (Nat.ltb_ge _ _) H12), H0, H1.
  cbn [Z.eqb Pos.eqb negb orb].
  rewrite (proj2 (Z.ltb_ge _ _) HL).
  assert (Hs : 0 <= storedCRC frame (Z.to_nat (lengthField frame)) < 2^32)
    by (apply be32_range; apply load_u8, Hb).
  rewrite toInt32_cases by exact Hs.
  destruct (Z.ltb_spec (storedCRC frame (Z.to_nat (lengthField frame))) (2^31));
    rewrite (proj2 (Z.eqb_neq _ _)); (reflexivity || lia).
Qed.

(** A frame of [createFrame] with one byte replaced, at any position but
    the two of the length field. *)
Lemma corrupted_frameBytes t f s p i v :
  bytes p -> Z.of_nat (length p) < 65536 ->
  let F := frameBytes t f s p in
  (i < length F)%nat -> i <> 6%nat -> i <> 7%nat ->
  u8 v -> v <> load F i ->
  parseOutcome (store i v F) = if (i <? 2)%nat then InvalidMagic else CRCMismatch.
Proof.
  intros Hp Hlen F Hi H6 H7 Hv Hne.
  set (n := length p) in *.
  set (hdr := frameHeader t f s (Z.of_nat n)).
  set (body := hdr ++ p).
  assert (HF : F = body ++ be32Bytes (calculateCRC body)) by reflexivity.
  assert (Hh : length hdr = 8%nat) by reflexivity.
  assert (Hbody : length body = (8 + n)%nat)
    by (unfold body; rewrite length_app, Hh; reflexivity).
  assert (HlenF : length F = (12 + n)%nat) by apply frameBytes_length.
  assert (HbF : bytes F) by now apply frameBytes_bytes.
  assert (Hbb : bytes body)
    by (apply bytes_app; [apply frameHeader_bytes | exact Hp]).
  assert (HbF' : bytes (store i v F)) by now apply store_bytes.
  assert (Hhd : forall k, (k < 8)%nat -> load F k = load hdr k).
  { intros k Hk. rewrite HF. unfold body. rewrite <- app_assoc.
    apply load_app_l. lia. }
  assert (Hvm : v mod 256 = v) by now apply u8_mod_id.
  destruct (Nat.ltb_spec i 2) as [Hi2|Hi2].
  - (* a magic byte *)
    unfold parseOutcome. rewrite store_length, HlenF.
    rewrite (proj2 (Nat.ltb_ge (12 + n) 12)) by lia.
    assert (Hm : negb (load (store i v F) 0 =? 172)
                 || negb (load (store i v F) 1 =? 77) = true).
    { destruct i as [|[|i]]; [| |lia].
      - rewrite load_store_eq, Hvm by lia.
        rewrite (Hhd 0%nat) in Hne by lia. change (load hdr 0) with 172 in Hne.
        now rewrite (proj2 (Z.eqb_neq v 172)).
      - rewrite (load_store_eq 1), Hvm by lia.
        rewrite (Hhd 1%nat) in Hne by lia. change (load hdr 1) with 77 in Hne.
        rewrite (proj2 (Z.eqb_neq v 77)) by exact Hne. apply orb_true_r. }
    now rewrite Hm.
  - assert (HL' : lengthField (store i v F) = Z.of_nat n).
    { unfold lengthField. rewrite !load_store_neq by lia.
      rewrite (Hhd 6%nat), (Hhd 7%nat) by lia.
      change (load hdr 6) with (byteAt (Z.of_nat n) 8).
      change (load hdr 7) with (byteAt (Z.of_nat n) 0).
      rewrite byteAt_16. apply Z.mod_small. lia. }
    apply parseOutcome_mismatch; try assumption.
    + rewrite store_length. lia.
    + rewrite load_store_neq, (Hhd 0%nat) by lia. reflexivity.
    + rewrite load_store_neq, (Hhd 1%nat) by lia. reflexivity.
    + rewrite HL', store_length. lia.
    + rewrite HL', Nat2Z.id.
      pose proof (calculateCRC_range body) as Hr.
      destruct (Nat.lt_ge_cases i (8 + n)) as [Hlt|Hge].
      * (* a header or payload byte: the stored CRC no longer matches *)
        assert (Hst : storedCRC (store i v F) n = calculateCRC body).
        { unfold storedCRC. rewrite !load_store_neq by lia.
          rewrite HF, <- Hbody.
          rewrite <- (Nat.add_0_r (length body)) at 1.
          rewrite !load_app_r. unfold be32Bytes, load. cbn [nth].
          apply be32_be32Bytes, Hr. }
        rewrite Hst.
        rewrite HF, store_app_l by lia.
        rewrite <- Hbody, <- (store_length i v body), slice_prefix.
        intros Heq. symmetry in Heq. revert Heq.
        apply calculateCRC_store_neq.
        -- exact Hbb.
        -- lia.
        -- exact Hv.
        -- rewrite HF, load_app_l in Hne by lia. exact Hne.
      * (* a CRC byte: the stored value changes, the data do not *)
        assert (Hsl : slice (store i v F) 0 (8 + n) = body).
        { rewrite HF. replace i with (length body + (i - (8 + n)))%nat by lia.
          rewrite store_app_r, <- Hbody. apply slice_prefix. }
        rewrite Hsl.
        assert (Hold : storedCRC F n = calculateCRC body).
        { unfold storedCRC. rewrite HF, <- Hbody.
          rewrite <- (Nat.add_0_r (length body)) at 1.
          rewrite !load_app_r. unfold be32Bytes, load. cbn [nth].
          apply be32_be32Bytes, Hr. }
        rewrite <- Hold. unfold storedCRC.
        pose proof (load_u8 F (8 + n) HbF) as B3.
        pose proof (load_u8 F (8 + n + 1) HbF) as B2.
        pose proof (load_u8 F (8 + n + 2) HbF) as B1.
        pose proof (load_u8 F (8 + n + 3) HbF) as B0.
        unfold u8 in *. unfold be32.
        assert (Hcase : i = (8 + n)%nat \/ i = (8 + n + 1)%nat \/
                        i = (8 + n + 2)%nat \/ i = (8 + n + 3)%nat) by lia.
        destruct Hcase as [-> | [-> | [-> | ->]]];
          repeat first [ rewrite load_store_eq by lia
                       | rewrite load_store_neq by lia ];
          rewrite ?Hvm; lia.
Qed.

(** X5: a frame of [createFrame] in which one byte outside the length field
    was replaced by a different byte never parses as valid: a changed magic
    byte gives 'Invalid magic bytes', any other change a CRC mismatch. *)
Theorem parseFrame_rejects_corrupted_byte payload options self rx i v :
  bytes payload -> Z.of_nat (length payload) < 65536 ->
  let frame := fst (createFrame payload options self) in
  (i < length frame)%nat -> i <> 6%nat -> i <> 7%nat ->
  u8 v -> v <> load frame i ->
  fst (parseFrame (store i v frame) rx) =
  if (i <? 2)%nat then Invalid "Invalid magic bytes" false
  else Invalid "CRC mismatch" true.
Proof.
  intros Hp Hlen frame. unfold frame. rewrite createFrame_layout.
  intros Hi H6 H7 Hv Hne.
  rewrite parseFrame_outcome by (apply store_bytes; now apply frameBytes_bytes).
  now apply corrupted_frameBytes.
Qed.

Lemma parseFrame_rejects_corrupted_byte_witness :
  fst (parseFrame (store 9 7 (fst (createFrame [1; 2; 3] noOptions newLayer))) newLayer)
  = Invalid "CRC mismatch" true.
Proof.
  apply (parseFrame_rejects_corrupted_byte [1; 2; 3] noOptions newLayer newLayer 9 7).
  - repeat constructor; unfold u8; lia.
  - simpl; lia.
  - vm_compute; lia.
  - discriminate.
  - discriminate.
  - unfold u8; lia.
  - vm_compute; discriminate.
Defined.

End CRCDetection.

(** ** Forward error correction: one corrupted copy *)

Section FECCorrection.
Import Encoding.

Lemma flip_u8 x k : u8 x -> 0 <= k < 8 -> u8 (Z.lxor x (2 ^ k)).
Proof.
  intros Hx Hk.
  assert (H : forallb (fun k => u8b (Z.lxor x (2 ^ k))) [0; 1; 2; 3; 4; 5; 6; 7] = true).
  { revert x Hx. apply u8_forall. vm_compute. reflexivity. }
  rewrite forallb_forall in H.
  assert (Hin : In k [0; 1; 2; 3; 4; 5; 6; 7]) by (cbn [In]; lia).
  specialize (H k Hin). unfold u8b in H. apply andb_true_iff in H.
  unfold u8. lia.
Qed.

Lemma pair_eqb (r : Z * Z) a b :
  (fst r =? a) && (snd r =? b) = true -> r = (a, b).
Proof.
  destruct r as [r1 r2]. cbn [fst snd]. intros H.
  apply andb_true_iff in H. destruct H as [H1 H2].
  apply Z.eqb_eq in H1, H2. now subst.
Qed.

Lemma bit_forall (P : Z -> Z -> bool) :
  forallb (fun x => forallb (P x) bitPositions) (map Z.of_nat (seq 0 256)) = true ->
  forall x k, u8 x -> 0 <= k < 8 -> P x k = true.
Proof.
  intros H x k Hx Hk.
  pose proof (u8_forall _ H x Hx) as Hb. cbv beta in Hb.
  rewrite forallb_forall in Hb. apply Hb.
  unfold bitPositions. cbn [In]. lia.
Qed.

Lemma mask_value k : 0 <= k < 8 -> JS.shl 1 k = 2 ^ k.
Proof.
  intros Hk.
  assert (H : forallb (fun k => JS.shl 1 k =? 2 ^ k) bitPositions = true)
    by (vm_compute; reflexivity).
  rewrite forallb_forall in H. apply Z.eqb_eq, H.
  unfold bitPositions. cbn [In]. lia.
Qed.

Lemma band_mask x k :
  u8 x -> 0 <= k < 8 ->
  JS.truthy (JS.band x (2 ^ k)) = Z.testbit x k.
Proof.
  intros Hx Hk.
  assert (H : Bool.eqb (JS.truthy (JS.band x (2 ^ k))) (Z.testbit x k) = true).
  { revert x k Hx Hk.
    apply (bit_forall (fun x k => Bool.eqb (JS.truthy (JS.band x (2 ^ k))) (Z.testbit x k))).
    vm_compute. reflexivity. }
  now apply Bool.eqb_prop in H.
Qed.

Lemma bor_mask r k :
  u8 r -> 0 <= k < 8 ->
  JS.bor r (2 ^ k) = Z.lor r (2 ^ k) /\ u8 (Z.lor r (2 ^ k)).
Proof.
  intros Hr Hk.
  assert (H : (JS.bor r (2 ^ k) =? Z.lor r (2 ^ k)) && u8b (Z.lor r (2 ^ k)) = true).
  { revert r k Hr Hk.
    apply (bit_forall (fun r k =>
             (JS.bor r (2 ^ k) =? Z.lor r (2 ^ k)) && u8b (Z.lor r (2 ^ k)))).
    vm_compute. reflexivity. }
  apply andb_true_iff in H. destruct H as [H1 H2].
  apply Z.eqb_eq in H1. unfold u8b in H2. apply andb_true_iff in H2.
  split; [exact H1 | unfold u8; lia].
Qed.

Lemma voteBit_pure b1 b2 b3 r c bit :
  u8 b1 -> u8 b2 -> u8 b3 -> u8 r -> (bit < 8)%nat ->
  voteBit b1 b2 b3 (r, c) bit = voteBitPure b1 b2 b3 (r, c) bit /\
  u8 (fst (voteBitPure b1 b2 b3 (r, c) bit)).
Proof.
  intros H1 H2 H3 Hr Hbit.
  assert (Hk : 0 <= Z.of_nat bit < 8) by lia.
  unfold voteBit, voteBitPure.
  rewrite mask_value by exact Hk.
  rewrite !band_mask by assumption.
  destruct (bor_mask r (Z.of_nat bit) Hr Hk) as [Hb Hu].
  rewrite Hb.
  destruct (Z.testbit b1 (Z.of_nat bit)), (Z.testbit b2 (Z.of_nat bit)),
    (Z.testbit b3 (Z.of_nat bit)); cbn [Z.b2z Z.add Pos.add Z.leb Z.compare
      Pos.compare Pos.compare_cont Z.ltb fst]; split; (reflexivity || assumption).
Qed.

Lemma fold_voteBit_pure b1 b2 b3 bits r c :
  u8 b1 -> u8 b2 -> u8 b3 -> u8 r -> Forall (fun bit => (bit < 8)%nat) bits ->
  fold_left (voteBit b1 b2 b3) bits (r, c) =
  fold_left (voteBitPure b1 b2 b3) bits (r, c).
Proof.
  intros H1 H2 H3 Hr Hbits. revert r c Hr.
  induction Hbits as [|bit bits Hbit Hbits IH]; intros r c Hr; [reflexivity|].
  rewrite !fold_left_cons.
  destruct (voteBit_pure b1 b2 b3 r c bit H1 H2 H3 Hr Hbit) as [He Hu].
  rewrite He.
  destruct (voteBitPure b1 b2 b3 (r, c) bit) as [r' c'].
  apply IH. exact Hu.
Qed.

Lemma majority_pure b1 b2 b3 c :
  u8 b1 -> u8 b2 -> u8 b3 -> majority b1 b2 b3 c = majorityPure b1 b2 b3 c.
Proof.
  intros H1 H2 H3. unfold majority, majorityPure.
  apply fold_voteBit_pure; try assumption.
  - unfold u8. lia.
  - apply Forall_forall. intros bit Hb. apply in_seq in Hb. lia.
Qed.

(** The vote on three copies of a byte one of which has one bit inverted:
    the byte, and a count of one exactly when the bit was 1. *)
Lemma majority_one_flip x k :
  u8 x -> 0 <= k < 8 ->
  let x' := Z.lxor x (2 ^ k) in
  let expected := (x, if Z.testbit x k then 1 else 0) in
  majority x' x x 0 = expected /\
  majority x x' x 0 = expected /\
  majority x x x' 0 = expected.
Proof.
  intros Hx Hk. cbv zeta.
  pose proof (flip_u8 x k Hx Hk) as Hx'.
  rewrite !majority_pure by assumption.
  assert (H :
    (let x' := Z.lxor x (2 ^ k) in
     let e := if Z.testbit x k then 1 else 0 in
     ((fst (majorityPure x' x x 0) =? x) && (snd (majorityPure x' x x 0) =? e)) &&
     (((fst (majorityPure x x' x 0) =? x) && (snd (majorityPure x x' x 0) =? e)) &&
      ((fst (majorityPure x x x' 0) =? x) && (snd (majorityPure x x x' 0) =? e))))
    = true).
  { revert x k Hx Hk Hx'. intros x k Hx Hk _. revert x k Hx Hk.
    apply (bit_forall (fun x k =>
      let x' := Z.lxor x (2 ^ k) in
      let e := if Z.testbit x k then 1 else 0 in
      ((fst (majorityPure x' x x 0) =? x) && (snd (majorityPure x' x x 0) =? e)) &&
      (((fst (majorityPure x x' x 0) =? x) && (snd (majorityPure x x' x 0) =? e)) &&
       ((fst (majorityPure x x x' 0) =? x) && (snd (majorityPure x x x' 0) =? e))))).
    vm_compute. reflexivity. }
  cbv zeta in H.
  apply andb_true_iff in H. destruct H as [E1 H].
  apply andb_true_iff in H. destruct H as [E2 E3].
  apply pair_eqb in E1, E2, E3. auto.
Qed.

Lemma sum_single (n q : nat) (d : Z) :
  (q < n)%nat ->
  fold_left Z.add (map (fun i => if (i =? q)%nat then d else 0) (seq 0 n)) 0 = d.
Proof.
  intros Hq.
  assert (H : forall m, fold_left Z.add
              (map (fun i => if (i =? q)%nat then d else 0) (seq 0 m)) 0 =
              if (q <? m)%nat then d else 0).
  { induction m as [|m IH]; [reflexivity|].
    rewrite seq_S, map_app, fold_left_app, IH. cbn [Nat.add map fold_left].
    destruct (Nat.eqb_spec m q), (Nat.ltb_spec q m), (Nat.ltb_spec q (S m));
      try lia; reflexivity. }
  rewrite H. destruct (Nat.ltb_spec q n); [reflexivity | lia].
Qed.

Lemma map_ext_seq (A : Type) (f g : nat -> A) n :
  (forall i, (i < n)%nat -> f i = g i) -> map f (seq 0 n) = map g (seq 0 n).
Proof.
  intros H. apply map_ext_in. intros i Hi. apply in_seq in Hi. apply H. lia.
Qed.

Lemma decodeFEC_one_flip data self rx p k :
  bytes data ->
  (0 < interleaveDepth self)%nat ->
  interleaveDepth rx = interleaveDepth self ->
  (p < length data * 3)%nat ->
  0 <= k < 8 ->
  let encoded := applyFEC data self in
  let position :=
    transpose (ceilDiv (length data * 3) (interleaveDepth self))
              (interleaveDepth self) p in
  load encoded position = load data (p / 3) /\
  fst (decodeFEC (flipBit position k encoded) rx) = fst (decodeFEC encoded rx) /\
  correctedErrors (stats (snd (decodeFEC (flipBit position k encoded) rx))) =
    correctedErrors (stats rx) + (if Z.testbit (load data (p / 3)) k then 1 else 0).
Proof.
  intros Hb Hd Heq Hp Hk. cbv zeta.
  destruct (decodeFEC_applyFEC data self rx Hb Hd Heq) as [Hclean _].
  rewrite Hclean.
  unfold decodeFEC, applyFEC, flipBit. rewrite Heq.
  set (depth := interleaveDepth self) in *.
  destruct (expand_spec data Hb) as [Hel Hej].
  set (N := length data) in *.
  set (R := ceilDiv (N * 3) depth).
  pose proof (ceilDiv_le (N * 3) depth Hd) as HG. fold R in HG.
  set (enc := interleave depth (expand data)).
  assert (Hlenc : length enc = (R * depth)%nat)
    by (unfold enc; rewrite interleave_length, Hel; reflexivity).
  assert (Hbenc : bytes enc) by apply interleave_bytes.
  set (pos := transpose R depth p).
  assert (Hpos : (pos < R * depth)%nat) by (apply transpose_lt; lia).
  set (x := load data (p / 3)).
  assert (Hx : u8 x) by apply load_u8, Hb.
  assert (Hencl : forall j, (j < R * depth)%nat ->
            load enc (transpose R depth j) =
            if (j <? N * 3)%nat then load data (j / 3) else 0).
  { intros j Hj. unfold enc, R. rewrite <- Hel.
    rewrite interleave_load; [ | exact Hd | apply expand_bytes | rewrite Hel; exact Hj].
    rewrite Hej. rewrite Hel. reflexivity. }
  assert (Hxp : load enc pos = x).
  { unfold pos. rewrite Hencl by lia.
    destruct (Nat.ltb_spec p (N * 3)); [reflexivity | lia]. }
  split; [exact Hxp|].
  rewrite Hxp.
  set (x' := Z.lxor x (2 ^ k)).
  assert (Hx' : u8 x') by now apply flip_u8.
  set (X := store pos x' enc).
  assert (HlX : length X = (R * depth)%nat) by (unfold X; now rewrite store_length).
  assert (HbX : bytes X) by (unfold X; now apply store_bytes).
  set (Dl := deinterleave depth X).
  assert (HlD : length Dl = (R * depth)%nat)
    by (unfold Dl; now rewrite deinterleave_length).
  assert (Hload : forall j, (j < R * depth)%nat ->
            load Dl j = if (j =? p)%nat then x'
                        else if (j <? N * 3)%nat then load data (j / 3) else 0).
  { intros j Hj. unfold Dl.
    rewrite (deinterleave_load depth R X j Hd HbX HlX Hj).
    unfold X. destruct (Nat.eqb_spec j p) as [->|Hne].
    - fold pos. rewrite load_store_eq by lia. now apply u8_mod_id.
    - rewrite load_store_neq.
      + now apply Hencl.
      + unfold pos. intros He. apply transpose_inj in He; lia. }
  rewrite voteAll_spec. cbn [fst snd stats correctedErrors withStats].
  rewrite HlD.
  assert (Hn : (N <= R * depth / 3)%nat) by (apply Nat.div_le_lower_bound; lia).
  set (q := (p / 3)%nat) in *.
  assert (Hq : (q < N)%nat) by (apply Nat.Div0.div_lt_upper_bound; lia).
  pose proof (Nat.div_mod_eq p 3) as Hpq. fold q in Hpq.
  pose proof (Nat.mod_upper_bound p 3 ltac:(lia)) as Hpr.
  destruct (majority_one_flip x k Hx Hk) as (M1 & M2 & M3).
  fold x' in M1, M2, M3.
  assert (Hv : forall i, (i < R * depth / 3)%nat ->
            voted Dl i = ((if (i <? N)%nat then load data i else 0),
                          (if (i =? q)%nat then (if Z.testbit x k then 1 else 0) else 0))).
  { intros i Hi.
    assert (Hi3 : (i * 3 + 2 < R * depth)%nat).
    { pose proof (Nat.div_mod_eq (R * depth) 3).
      pose proof (Nat.mod_upper_bound (R * depth) 3 ltac:(lia)). nia. }
    unfold voted. rewrite !Hload by lia.
    assert (E0 : (i * 3 / 3)%nat = i) by (symmetry; apply (Nat.div_unique _ 3 i 0); lia).
    assert (E1 : ((i * 3 + 1) / 3)%nat = i) by (symmetry; apply (Nat.div_unique _ 3 i 1); lia).
    assert (E2 : ((i * 3 + 2) / 3)%nat = i) by (symmetry; apply (Nat.div_unique _ 3 i 2); lia).
    rewrite E0, E1, E2.
    destruct (Nat.eqb_spec i q) as [->|Hiq].
    - destruct (Nat.ltb_spec q N); [|lia].
      destruct (Nat.ltb_spec (q * 3) (N * 3)); [|lia].
      destruct (Nat.ltb_spec (q * 3 + 1) (N * 3)); [|lia].
      destruct (Nat.ltb_spec (q * 3 + 2) (N * 3)); [|lia].
      fold x.
      destruct (Nat.eqb_spec (q * 3) p), (Nat.eqb_spec (q * 3 + 1) p),
        (Nat.eqb_spec (q * 3 + 2) p); try lia; assumption.
    - destruct (Nat.eqb_spec (i * 3) p); [lia|].
      destruct (Nat.eqb_spec (i * 3 + 1) p); [lia|].
      destruct (Nat.eqb_spec (i * 3 + 2) p); [lia|].
      destruct (Nat.ltb_spec i N).
      + destruct (Nat.ltb_spec (i * 3) (N * 3)); [|lia].
        destruct (Nat.ltb_spec (i * 3 + 1) (N * 3)); [|lia].
        destruct (Nat.ltb_spec (i * 3 + 2) (N * 3)); [|lia].
        apply majority_same, load_u8, Hb.
      + destruct (Nat.ltb_spec (i * 3) (N * 3)); [lia|].
        destruct (Nat.ltb_spec (i * 3 + 1) (N * 3)); [lia|].
        destruct (Nat.ltb_spec (i * 3 + 2) (N * 3)); [lia|].
        apply (majority_same 0). unfold u8. lia. }
  split.
  - apply list_eq_load.
    + rewrite length_map, length_seq, length_app, repeat_length.
      unfold fecPadding. fold N depth R. lia.
    + rewrite length_map, length_seq. intros j Hj.
      unfold load at 1.
      rewrite (nth_indep _ 0 (fst (voted Dl 0) mod 256))
        by (now rewrite length_map, length_seq).
      rewrite (map_nth (fun i => fst (voted Dl i) mod 256)), seq_nth by exact Hj.
      cbn [Nat.add]. rewrite Hv by exact Hj. cbn [fst].
      destruct (Nat.ltb_spec j N) as [Hlt|Hge].
      * rewrite load_app_l by exact Hlt. apply u8_mod_id, load_u8, Hb.
      * unfold load. rewrite app_nth2 by exact Hge. now rewrite nth_repeat.
  - f_equal.
    rewrite (map_ext_seq _ (fun i => snd (voted Dl i))
               (fun i => if (i =? q)%nat then (if Z.testbit x k then 1 else 0) else 0)).
    + apply sum_single. lia.
    + intros i Hi. rewrite Hv by exact Hi. reflexivity.
Qed.

(** X6: [_deinterleave] undoes [_interleave] for every positive depth, up to
    the zero bytes that fill the last row of the grid. *)
Theorem deinterleave_interleave_roundtrip depth data :
  (0 < depth)%nat -> bytes data ->
  deinterleave depth (interleave depth data) =
  data ++ repeat 0 (ceilDiv (length data) depth * depth - length data) /\
  length (interleave depth data) = (ceilDiv (length data) depth * depth)%nat.
Proof.
  intros Hd Hb. split; [now apply deinterleave_interleave | apply interleave_length].
Qed.

Lemma deinterleave_interleave_roundtrip_witness :
  deinterleave 3 (interleave 3 [1; 2; 3; 4]) = [1; 2; 3; 4] ++ repeat 0 2 /\
  length (interleave 3 [1; 2; 3; 4]) = 6%nat.
Proof.
  apply (deinterleave_interleave_roundtrip 3 [1; 2; 3; 4]).
  - lia.
  - repeat constructor; unfold u8; lia.
Defined.

(** X7: for every positive interleaving depth, [decodeFEC] after [applyFEC]
    returns the data followed by [fecPadding] zero bytes and leaves the count
    of corrected errors as it was. *)
Theorem decodeFEC_applyFEC_any_depth data self rx :
  bytes data ->
  (0 < interleaveDepth self)%nat ->
  interleaveDepth rx = interleaveDepth self ->
  fst (decodeFEC (applyFEC data self) rx) =
    data ++ repeat 0 (fecPadding (interleaveDepth self) (length data)) /\
  correctedErrors (stats (snd (decodeFEC (applyFEC data self) rx))) =
    correctedErrors (stats rx).
Proof. apply decodeFEC_applyFEC. Qed.

Lemma decodeFEC_applyFEC_any_depth_witness :
  fst (decodeFEC (applyFEC [1; 2; 3] (mkLayer 256 5 (mkStats 0 0 0 0 0 0)))
         (mkLayer 256 5 (mkStats 0 0 0 0 0 0)))
  = [1; 2; 3] ++ repeat 0 (fecPadding 5 3) /\
  correctedErrors
    (stats (snd (decodeFEC (applyFEC [1; 2; 3] (mkLayer 256 5 (mkStats 0 0 0 0 0 0)))
                   (mkLayer 256 5 (mkStats 0 0 0 0 0 0))))) = 0.
Proof.
  apply (decodeFEC_applyFEC_any_depth [1; 2; 3]
           (mkLayer 256 5 (mkStats 0 0 0 0 0 0)) (mkLayer 256 5 (mkStats 0 0 0 0 0 0))).
  - repeat constructor; unfold u8; lia.
  - simpl; lia.
  - reflexivity.
Defined.

(** X8: one flipped bit in one of the three copies of a byte is voted away.
    Copy [p mod 3] of byte [p / 3] sits at [position] of the encoded buffer;
    with bit [k] of it flipped the decoder still returns the data (and its
    padding), and it counts one corrected error exactly when the bit was set
    in the data. *)
Theorem decodeFEC_corrects_one_flip data self rx p k :
  bytes data ->
  (0 < interleaveDepth self)%nat ->
  interleaveDepth rx = interleaveDepth self ->
  (p < length data * 3)%nat ->
  0 <= k < 8 ->
  let encoded := applyFEC data self in
  let position :=
    transpose (ceilDiv (length data * 3) (interleaveDepth self))
              (interleaveDepth self) p in
  load encoded position = load data (p / 3) /\
  fst (decodeFEC (flipBit position k encoded) rx) =
    data ++ repeat 0 (fecPadding (interleaveDepth self) (length data)) /\
  correctedErrors (stats (snd (decodeFEC (flipBit position k encoded) rx))) =
    correctedErrors (stats rx) + (if Z.testbit (load data (p / 3)) k then 1 else 0).
Proof.
  intros Hb Hd Heq Hp Hk.
  destruct (decodeFEC_one_flip data self rx p k Hb Hd Heq Hp Hk) as (H1 & H2 & H3).
  destruct (decodeFEC_applyFEC data self rx Hb Hd Heq) as [Hclean _].
  cbv zeta in *. rewrite H2, Hclean. auto.
Qed.

Lemma decodeFEC_corrects_one_flip_witness :
  let encoded := applyFEC [0xAA; 0x55] newLayer in
  let position := transpose (ceilDiv (2 * 3) 8) 8 4 in
  load encoded position = load [0xAA; 0x55] (4 / 3) /\
  fst (decodeFEC (flipBit position 0 encoded) newLayer) =
    [0xAA; 0x55] ++ repeat 0 (fecPadding 8 2) /\
  correctedErrors (stats (snd (decodeFEC (flipBit position 0 encoded) newLayer))) =
    0 + (if Z.testbit (load [0xAA; 0x55] (4 / 3)) 0 then 1 else 0).
Proof.
  apply (decodeFEC_corrects_one_flip [0xAA; 0x55] newLayer newLayer 4 0).
  - repeat constructor; unfold u8; lia.
  - apply Nat.lt_0_succ.
  - reflexivity.
  - simpl; lia.
  - lia.
Defined.

End FECCorrection.

(** ** Fragmentation *)

Section Fragmentation.
Import Encoding.

Lemma orDefault_zero v : JS.orDefault (Some v) 0 = v.
Proof.
  unfold JS.orDefault, JS.truthy. destruct (Z.eqb_spec v 0); cbn [negb]; congruence.
Qed.

Lemma fragmentFlags_value i total :
  fragmentFlags i total =
  (if Z.of_nat i <? Z.of_nat total - 1 then 128 else 0) +
  (if (i =? 0)%nat then 64 else 0).
Proof.
  unfold fragmentFlags. cbv zeta.
  destruct (Z.of_nat i <? Z.of_nat total - 1), (i =? 0)%nat; vm_compute; reflexivity.
Qed.

(** The loop of [fragmentData]: one frame per index, the statistics counting
    each of them. *)
Lemma fragmentData_frames data type self :
  let total := ceilDiv (length data) (maxPayloadSize self) in
  let frameOf i :=
    frameBytes (JS.orDefault type MESSAGE_TYPES_DATA) (fragmentFlags i total)
               (Z.of_nat i) (fragmentChunk (maxPayloadSize self) data i) in
  fst (fragmentData data type self) = map frameOf (seq 0 total) /\
  framesCreated (stats (snd (fragmentData data type self))) =
    framesCreated (stats self) + Z.of_nat total /\
  maxPayloadSize (snd (fragmentData data type self)) = maxPayloadSize self.
Proof.
  cbv zeta. unfold fragmentData.
  set (maxSize := maxPayloadSize self).
  set (total := ceilDiv (length data) maxSize).
  set (T := JS.orDefault type MESSAGE_TYPES_DATA).
  set (step := fun '(fragments, self0) i => _).
  set (frameOf := fun i => frameBytes T (fragmentFlags i total) (Z.of_nat i)
                            (fragmentChunk maxSize data i)).
  assert (H : forall l acc s0,
            fst (fold_left step l (acc, s0)) = acc ++ map frameOf l /\
            framesCreated (stats (snd (fold_left step l (acc, s0)))) =
              framesCreated (stats s0) + Z.of_nat (length l) /\
            maxPayloadSize (snd (fold_left step l (acc, s0))) = maxPayloadSize s0).
  { induction l as [|i l IH]; intros acc s0.
    - rewrite fold_left_nil. cbn [fst snd map length]. rewrite app_nil_r.
      repeat split. lia.
    - rewrite fold_left_cons. unfold step at 2 4 6.
      fold (fragmentChunk maxSize data i). fold (fragmentFlags i total).
      pose proof (createFrame_layout (fragmentChunk maxSize data i)
                    (mkOptions (Some T) (Some (Z.of_nat i)) (Some (fragmentFlags i total)))
                    s0) as Hlay.
      destruct (createFrame _ _ s0) as [frame s1] eqn:Hcf.
      cbn [fst] in Hlay.
      assert (Hs1 : framesCreated (stats s1) = framesCreated (stats s0) + 1 /\
                    maxPayloadSize s1 = maxPayloadSize s0).
      { unfold createFrame in Hcf. cbv zeta in Hcf.
        injection Hcf as _ <-. split; reflexivity. }
      destruct (IH (acc ++ [frame]) s1) as (I1 & I2 & I3).
      rewrite I1, I2, I3. destruct Hs1 as [-> ->].
      repeat split; [|cbn [length]; lia].
      rewrite <- app_assoc. cbn [app map]. do 2 f_equal.
      rewrite Hlay. unfold frameOf. cbn [opt_type opt_flags opt_sequence].
      assert (HT : JS.orDefault (Some T) MESSAGE_TYPES_DATA = T).
      { unfold T, JS.orDefault. destruct type as [t|]; [|reflexivity].
        destruct (JS.truthy t) eqn:Ht; [now rewrite Ht | reflexivity]. }
      rewrite HT, !orDefault_zero. reflexivity. }
  destruct (H (seq 0 total) [] self) as (H1 & H2 & H3).
  rewrite length_seq in H2. cbn [app] in H1. auto.
Qed.

Lemma skipn_skipn (a b : nat) (l : list Z) : skipn a (skipn b l) = skipn (b + a) l.
Proof.
  revert l. induction b as [|b IH]; intros l; [reflexivity|].
  destruct l as [|h t]; [now rewrite !skipn_nil|]. cbn [Nat.add skipn]. apply IH.
Qed.

Lemma fragmentChunk_firstn maxSize data i :
  fragmentChunk maxSize data i = firstn maxSize (skipn (i * maxSize) data).
Proof.
  unfold fragmentChunk, slice.
  destruct (Nat.le_gt_cases (i * maxSize + maxSize) (length data)) as [H|H].
  - rewrite Nat.min_l by lia. f_equal. lia.
  - rewrite Nat.min_r by lia.
    rewrite (firstn_all2 (n := maxSize)) by (rewrite length_skipn; lia).
    apply firstn_all2. rewrite length_skipn. lia.
Qed.

(** The chunks, in order, make up the data. *)
Lemma chunks_concat maxSize n :
  (0 < maxSize)%nat ->
  forall data, (length data <= n * maxSize)%nat ->
  concat (map (fragmentChunk maxSize data) (seq 0 n)) = data.
Proof.
  intros Hm. induction n as [|n IH]; intros data Hlen.
  - destruct data; [reflexivity | cbn in Hlen; lia].
  - rewrite <- cons_seq, <- seq_shift. cbn [map concat]. rewrite map_map.
    rewrite (map_ext _ (fragmentChunk maxSize (skipn maxSize data))).
    + rewrite IH by (rewrite length_skipn; lia).
      rewrite fragmentChunk_firstn. cbn [Nat.mul skipn]. apply firstn_skipn.
    + intros i. rewrite !fragmentChunk_firstn, skipn_skipn. do 2 f_equal; lia.
Qed.

Lemma fragmentChunk_length maxSize data i :
  (length (fragmentChunk maxSize data i) <= maxSize)%nat.
Proof. rewrite fragmentChunk_firstn, length_firstn. lia. Qed.

(** X9: the frames of [fragmentData].  There are [ceil(length / maxPayloadSize)]
    of them; frame [i] is the frame [createFrame] builds for chunk [i] of the
    data with sequence number [i], the more-fragments flag on all but the
    last and the first-fragment flag on the first; the chunks, in order, make
    up the data; and [framesCreated] grows by the number of frames. *)
Theorem fragmentData_layout data type self :
  (0 < maxPayloadSize self)%nat ->
  let total := ceilDiv (length data) (maxPayloadSize self) in
  let frameOf i :=
    frameBytes (JS.orDefault type MESSAGE_TYPES_DATA) (fragmentFlags i total)
               (Z.of_nat i) (fragmentChunk (maxPayloadSize self) data i) in
  fst (fragmentData data type self) = map frameOf (seq 0 total) /\
  length (fst (fragmentData data type self)) = total /\
  concat (map (fragmentChunk (maxPayloadSize self) data) (seq 0 total)) = data /\
  (forall i, fragmentFlags i total =
             (if Z.of_nat i <? Z.of_nat total - 1 then 0x80 else 0) +
             (if (i =? 0)%nat then 0x40 else 0)) /\
  framesCreated (stats (snd (fragmentData data type self))) =
    framesCreated (stats self) + Z.of_nat total.
Proof.
  intros Hm. cbv zeta.
  destruct (fragmentData_frames data type self) as (Hf & Hs & _). cbv zeta in Hf, Hs.
  split; [exact Hf|]. split; [|split; [|split]].
  - now rewrite Hf, length_map, length_seq.
  - apply chunks_concat; [exact Hm | now apply ceilDiv_le].
  - intros i. apply fragmentFlags_value.
  - exact Hs.
Qed.

Lemma fragmentData_layout_witness :
  length (fst (fragmentData [1; 2; 3; 4; 5] None (mkLayer 2 8 (mkStats 0 0 0 0 0 0))))
  = 3%nat.
Proof.
  apply (fragmentData_layout [1; 2; 3; 4; 5] None (mkLayer 2 8 (mkStats 0 0 0 0 0 0))).
  simpl; lia.
Defined.

End Fragmentation.

(** ** Reassembly *)

Section Reassembly.
Import Encoding.

Lemma skipn_u8_new n k : skipn n (u8_new k) = u8_new (k - n).
Proof.
  unfold u8_new. revert k. induction n as [|n IH]; intros k.
  - now rewrite Nat.sub_0_r.
  - destruct k as [|k]; [reflexivity|]. cbn [repeat skipn Nat.sub]. apply IH.
Qed.

Lemma set_from_fill pre p k :
  (length p <= k)%nat ->
  set_from (pre ++ u8_new k) p (length pre) = (pre ++ p) ++ u8_new (k - length p).
Proof.
  intros Hk. unfold set_from.
  rewrite firstn_app, Nat.sub_diag, firstn_O, app_nil_r, firstn_all.
  rewrite skipn_app, skipn_all2 by lia.
  replace (length pre + length p - length pre)%nat with (length p) by lia.
  rewrite skipn_u8_new. cbn [app]. now rewrite app_assoc.
Qed.

Lemma totalSize_spec (l : list Fragment) acc :
  fold_left (fun sum f => (sum + length (f_payload f))%nat) l acc =
  (acc + length (concat (map f_payload l)))%nat.
Proof.
  revert acc. induction l as [|f l IH]; intros acc.
  - cbn. lia.
  - rewrite fold_left_cons, IH. cbn [map concat]. rewrite length_app. lia.
Qed.

Lemma assemble_spec (l : list Fragment) :
  forall pre k,
  k = length (concat (map f_payload l)) ->
  fst (fold_left
         (fun '(assembled, offset) fragment =>
            (set_from assembled (f_payload fragment) offset,
             (offset + length (f_payload fragment))%nat))
         l (pre ++ u8_new k, length pre)) =
  pre ++ concat (map f_payload l).
Proof.
  induction l as [|f l IH]; intros pre k Hk.
  - cbn [map concat length] in Hk. subst. cbn [fold_left fst u8_new repeat map concat].
    reflexivity.
  - rewrite fold_left_cons.
    cbn [map concat] in Hk. rewrite length_app in Hk.
    rewrite set_from_fill by lia.
    rewrite <- (length_app pre (f_payload f)).
    rewrite IH by lia.
    cbn [map concat]. now rewrite app_assoc.
Qed.

(** [reassembleData] in one expression: the payloads in ascending sequence
    order, provided some fragment is marked first and some is marked last. *)
Lemma reassembleData_spec fragments :
  reassembleData fragments =
  let sorted := sortBy bySequence fragments in
  match find isFirstFragment sorted, find isLastFragment sorted with
  | Some _, Some _ => Complete (concat (map f_payload sorted)) (length fragments)
  | _, _ => Incomplete "Missing fragments"
  end.
Proof.
  unfold reassembleData. cbv zeta.
  fold bySequence. fold isFirstFragment. fold isLastFragment.
  set (sorted := sortBy bySequence fragments).
  destruct (find isFirstFragment sorted); [|reflexivity].
  destruct (find isLastFragment sorted); [|reflexivity].
  rewrite totalSize_spec. cbn [Nat.add].
  pose proof (assemble_spec sorted [] _ eq_refl) as H.
  cbn [app length] in H.
  destruct (fold_left _ sorted _) as [assembled offset]. cbn [fst] in H.
  rewrite H. f_equal.
  unfold sorted. apply Permutation_length. apply sortBy_perm.
Qed.

Lemma sortBy_sorted_id {A : Type} (cmp : A -> A -> Z) (key : A -> Z) l :
  (forall a b, cmp a b <= 0 <-> key a <= key b) ->
  StronglySorted (fun a b => key a <= key b) l -> sortBy cmp l = l.
Proof.
  intros Hc. induction 1 as [|x t Hs IH Hx]; [reflexivity|].
  cbn [sortBy]. rewrite IH.
  destruct t as [|y t']; [reflexivity|].
  cbn [sortInsert]. inversion Hx; subst.
  rewrite (proj2 (Z.leb_le _ _)) by now apply Hc.
  reflexivity.
Qed.

Lemma find_exists {A : Type} (f : A -> bool) l x :
  In x l -> f x = true -> exists y, find f l = Some y.
Proof.
  intros Hin Hf. destruct (find f l) as [y|] eqn:E; [now exists y|].
  pose proof (find_none f l E x Hin). congruence.
Qed.

(** Sorted lists with distinct keys are determined by their elements. *)
Lemma sorted_perm_unique {A : Type} (key : A -> Z) (l l' : list A) :
  StronglySorted (fun a b => key a <= key b) l ->
  StronglySorted (fun a b => key a <= key b) l' ->
  NoDup (map key l) ->
  Permutation l l' -> l = l'.
Proof.
  intros Hs. revert l'. induction Hs as [|x t Hs IH Hx]; intros l' Hs' Hn Hp.
  - apply Permutation_nil in Hp. now subst.
  - destruct l' as [|y t'].
    { apply Permutation_sym, Permutation_nil in Hp. discriminate. }
    inversion Hs' as [|? ? Hst' Hy]; subst.
    cbn [map] in Hn. inversion Hn as [|? ? Hnx Hnt]; subst.
    assert (Hxy : x = y).
    { assert (Hinx : In x (y :: t')) by (apply (Permutation_in x Hp); now left).
      assert (Hiny : In y (x :: t))
        by (apply (Permutation_in y (Permutation_sym Hp)); now left).
      destruct Hinx as [<-|Hinx]; [reflexivity|].
      destruct Hiny as [->|Hiny]; [reflexivity|].
      rewrite Forall_forall in Hx, Hy.
      pose proof (Hx y Hiny). pose proof (Hy x Hinx).
      assert (Hk : key x = key y) by lia.
      exfalso. apply Hnx. rewrite Hk. now apply in_map. }
    subst y. f_equal. apply IH; try assumption.
    now apply Permutation_cons_inv in Hp.
Qed.

Lemma bySequence_key a b : bySequence a b <= 0 <-> f_sequence a <= f_sequence b.
Proof. unfold bySequence. lia. Qed.

Lemma reassembleData_perm fragments fragments' :
  NoDup (map f_sequence fragments) ->
  Permutation fragments fragments' ->
  reassembleData fragments = reassembleData fragments'.
Proof.
  intros Hn Hp. rewrite !reassembleData_spec. cbv zeta.
  assert (Hs : sortBy bySequence fragments = sortBy bySequence fragments').
  { apply (sorted_perm_unique f_sequence).
    - apply sortBy_sorted, bySequence_key.
    - apply sortBy_sorted, bySequence_key.
    - apply (Permutation_NoDup (l := map f_sequence fragments)); [|exact Hn].
      apply Permutation_map, Permutation_sym, sortBy_perm.
    - rewrite (sortBy_perm bySequence fragments), Hp.
      apply Permutation_sym, sortBy_perm. }
  rewrite Hs, (Permutation_length Hp). reflexivity.
Qed.

(** X10: what [reassembleData] returns.  The fragments are sorted by sequence
    number; with a fragment carrying the first-fragment flag and a fragment
    without the more-fragments flag among them the result is the
    concatenation of all payloads in that order and the number of fragments,
    otherwise the error 'Missing fragments'.  Nothing else is examined. *)
Theorem reassembleData_outcome fragments :
  reassembleData fragments =
  let sorted := sortBy bySequence fragments in
  match find isFirstFragment sorted, find isLastFragment sorted with
  | Some _, Some _ => Complete (concat (map f_payload sorted)) (length fragments)
  | _, _ => Incomplete "Missing fragments"
  end.
Proof. apply reassembleData_spec. Qed.

(** X11: fragments with pairwise distinct sequence numbers reassemble to the
    same result in whatever order they arrived. *)
Theorem reassembleData_order_independent fragments fragments' :
  NoDup (map f_sequence fragments) ->
  Permutation fragments fragments' ->
  reassembleData fragments = reassembleData fragments'.
Proof. apply reassembleData_perm. Qed.

Lemma reassembleData_order_independent_witness :
  reassembleData [mkFragment 1 0x00 [3]; mkFragment 0 0xC0 [1; 2]] =
  reassembleData [mkFragment 0 0xC0 [1; 2]; mkFragment 1 0x00 [3]].
Proof.
  apply reassembleData_order_independent.
  - cbn [map f_sequence]. repeat constructor; simpl; intuition lia.
  - apply perm_swap.
Defined.

End Reassembly.

(** ** Fragmentation followed by reassembly *)

Section FragmentRoundTrip.
Import Encoding.

Lemma Forall2_map_eq {A B C : Type} (R : B -> C -> Prop) (f : A -> B) (g : A -> C) l cs :
  Forall2 R (map f l) cs ->
  (forall a c, In a l -> R (f a) c -> c = g a) ->
  cs = map g l.
Proof.
  revert cs. induction l as [|a l IH]; intros cs H Hg.
  - inversion H. reflexivity.
  - cbn [map] in H. inversion H as [|? c ? cs' Hr Hrest]; subst.
    cbn [map]. f_equal.
    + apply Hg; [now left | exact Hr].
    + apply IH; [exact Hrest|]. intros a' c' Hin. apply Hg. now right.
Qed.

Lemma fragmentOf_sorted maxSize total data s n :
  StronglySorted (fun a b => f_sequence a <= f_sequence b)
                 (map (fragmentOf maxSize total data) (seq s n)).
Proof.
  revert s. induction n as [|n IH]; intros s; cbn [seq map]; constructor.
  - apply IH.
  - apply Forall_forall. intros fr Hin. apply in_map_iff in Hin.
    destruct Hin as (i & <- & Hi). apply in_seq in Hi. cbn [fragmentOf f_sequence]. lia.
Qed.

Lemma ceilDiv_pos a b : (0 < a)%nat -> (0 < b)%nat -> (0 < ceilDiv a b)%nat.
Proof.
  intros Ha Hb. pose proof (ceilDiv_le a b Hb).
  destruct (ceilDiv a b); [cbn in *; lia | lia].
Qed.

Lemma fragment_reassemble data type self rx fragments :
  bytes data -> data <> [] ->
  (0 < maxPayloadSize self)%nat ->
  Z.of_nat (maxPayloadSize self) < 65536 ->
  Z.of_nat (ceilDiv (length data) (maxPayloadSize self)) <= 65536 ->
  Forall2
    (fun frame fr =>
       exists ty len,
         fst (parseFrame frame rx) =
         Valid ty (f_flags fr) (f_sequence fr) (f_payload fr) len)
    (fst (fragmentData data type self)) fragments ->
  reassembleData fragments =
  Complete data (ceilDiv (length data) (maxPayloadSize self)).
Proof.
  intros Hb Hne Hm Hm16 HN Hall.
  destruct (fragmentData_frames data type self) as (Hframes & _ & _).
  cbv zeta in Hframes. rewrite Hframes in Hall. clear Hframes.
  set (maxSize := maxPayloadSize self) in *.
  set (N := ceilDiv (length data) maxSize) in *.
  assert (Hlen : (0 < length data)%nat) by (destruct data; [congruence | cbn; lia]).
  assert (HN0 : (0 < N)%nat) by now apply ceilDiv_pos.
  assert (Hfr : fragments = map (fragmentOf maxSize N data) (seq 0 N)).
  { apply (Forall2_map_eq _ _ _ _ _ Hall).
    intros i fr Hi (ty & len & Hparse). apply in_seq in Hi.
    assert (Hcb : bytes (fragmentChunk maxSize data i)).
    { rewrite fragmentChunk_firstn. now apply bytes_firstn, bytes_skipn. }
    pose proof (fragmentChunk_length maxSize data i) as Hcl.
    rewrite parseFrame_outcome in Hparse by now apply frameBytes_bytes.
    rewrite parseOutcome_frameBytes in Hparse by lia.
    destruct (_ <? 2 ^ 31) in Hparse; [|discriminate].
    injection Hparse as _ Hfl Hsq Hpl _.
    destruct fr as [sq fl pl]. cbn [f_flags f_sequence f_payload] in *.
    unfold fragmentOf. subst.
    f_equal.
    - apply Z.mod_small. lia.
    - rewrite fragmentFlags_value.
      destruct (Z.of_nat i <? Z.of_nat N - 1), (i =? 0)%nat; reflexivity. }
  rewrite reassembleData_spec. cbv zeta.
  assert (Hsorted : sortBy bySequence fragments = fragments).
  { apply (sortBy_sorted_id bySequence f_sequence); [apply bySequence_key|].
    rewrite Hfr. apply fragmentOf_sorted. }
  rewrite Hsorted.
  assert (Hfirst : exists y, find isFirstFragment fragments = Some y).
  { apply (find_exists _ _ (fragmentOf maxSize N data 0)).
    - rewrite Hfr. apply in_map, in_seq. lia.
    - unfold isFirstFragment, fragmentOf. cbn [f_flags].
      rewrite fragmentFlags_value. cbn [Nat.eqb].
      destruct (Z.of_nat 0 <? Z.of_nat N - 1); vm_compute; reflexivity. }
  assert (Hlast : exists y, find isLastFragment fragments = Some y).
  { apply (find_exists _ _ (fragmentOf maxSize N data (N - 1))).
    - rewrite Hfr. apply in_map, in_seq. lia.
    - unfold isLastFragment, fragmentOf. cbn [f_flags].
      rewrite fragmentFlags_value.
      rewrite (proj2 (Z.ltb_ge (Z.of_nat (N - 1)) (Z.of_nat N - 1))) by lia.
      destruct (N - 1 =? 0)%nat; vm_compute; reflexivity. }
  destruct Hfirst as [y1 ->]. destruct Hlast as [y2 ->].
  f_equal.
  - rewrite Hfr, map_map. cbn [fragmentOf f_payload].
    apply chunks_concat; [exact Hm|]. apply ceilDiv_le, Hm.
  - rewrite Hfr. now rewrite length_map, length_seq.
Qed.

(** X12: fragmentation and reassembly compose.  When every frame of
    [fragmentData] reaches the receiver and parses as valid, [reassembleData]
    on the parsed fragments returns the data and the number of fragments. *)
Theorem fragmentData_reassembleData data type self rx fragments :
  bytes data -> data <> [] ->
  (0 < maxPayloadSize self)%nat ->
  Z.of_nat (maxPayloadSize self) < 65536 ->
  Z.of_nat (ceilDiv (length data) (maxPayloadSize self)) <= 65536 ->
  Forall2
    (fun frame fr =>
       exists ty len,
         fst (parseFrame frame rx) =
         Valid ty (f_flags fr) (f_sequence fr) (f_payload fr) len)
    (fst (fragmentData data type self)) fragments ->
  reassembleData fragments =
  Complete data (ceilDiv (length data) (maxPayloadSize self)).
Proof. apply fragment_reassemble. Qed.

Lemma fragmentData_example :
  fst (fragmentData [1; 2; 4] None (mkLayer 2 8 (mkStats 0 0 0 0 0 0))) =
  [[0xAC; 0x4D; 2; 0xC0; 0; 0; 0; 2; 1; 2; 5; 154; 122; 140];
   [0xAC; 0x4D; 2; 0x00; 0; 1; 0; 1; 4; 103; 84; 49; 126]].
Proof. vm_compute. reflexivity. Qed.

Lemma fragmentData_reassembleData_witness :
  reassembleData [mkFragment 0 0xC0 [1; 2]; mkFragment 1 0x00 [4]] =
  Complete [1; 2; 4] 2.
Proof.
  apply (fragmentData_reassembleData [1; 2; 4] None
           (mkLayer 2 8 (mkStats 0 0 0 0 0 0)) newLayer).
  - repeat constructor; unfold u8; lia.
  - discriminate.
  - simpl; lia.
  - simpl; lia.
  - simpl; lia.
  - rewrite fragmentData_example.
    constructor; [|constructor; [|constructor]].
    + exists 2, 2. vm_compute. reflexivity.
    + exists 2, 1. vm_compute. reflexivity.
Defined.

End FragmentRoundTrip.

(** ** Physical layer: symbols back to bytes *)

Section SymbolsToBytes.
Import Encoding Physical.

Lemma groupBytes_cons8 a b c d e f g h rest :
  groupBytes (a :: b :: c :: d :: e :: f :: g :: h :: rest) =
  symbolOfBits [a; b; c; d; e; f; g; h] :: groupBytes rest.
Proof. reflexivity. Qed.

Lemma symbolOfBits_acc bits acc :
  fold_left (fun acc b => 2 * acc + Z.b2z b) bits acc =
  acc * 2 ^ Z.of_nat (length bits) + symbolOfBits bits.
Proof.
  unfold symbolOfBits. revert acc.
  induction bits as [|b bits IH]; intros acc.
  - cbn [fold_left length Z.of_nat]. lia.
  - rewrite !fold_left_cons. rewrite IH, (IH (2 * 0 + Z.b2z b)).
    cbn [length]. rewrite Nat2Z.inj_succ, Z.pow_succ_r by lia. lia.
Qed.

Lemma symbolOfBits_cons b bits :
  symbolOfBits (b :: bits) =
  Z.b2z b * 2 ^ Z.of_nat (length bits) + symbolOfBits bits.
Proof.
  unfold symbolOfBits at 1. rewrite fold_left_cons, symbolOfBits_acc. lia.
Qed.

Lemma lowBits_S n v :
  lowBits (S n) v = Z.testbit v (Z.of_nat n) :: lowBits n v.
Proof.
  unfold lowBits. cbn [seq map]. f_equal.
  - f_equal. lia.
  - rewrite <- seq_shift, map_map. apply map_ext. intros k. f_equal. lia.
Qed.

Lemma lowBits_length n v : length (lowBits n v) = n.
Proof. unfold lowBits. now rewrite length_map, length_seq. Qed.

(** The [n] low bits of a number denote its residue modulo [2^n]. *)
Lemma symbolOfBits_lowBits n v : symbolOfBits (lowBits n v) = v mod 2 ^ Z.of_nat n.
Proof.
  induction n as [|n IH].
  - cbn. now rewrite Z.mod_1_r.
  - rewrite lowBits_S, symbolOfBits_cons, lowBits_length, IH.
    rewrite Nat2Z.inj_succ, Z.pow_succ_r by lia.
    rewrite (Z.mul_comm 2), Z.rem_mul_r by lia.
    rewrite Z.testbit_spec' by lia. lia.
Qed.

(** [(v >> k) & 0xFF] by its bits. *)
Lemma byte_at v k :
  0 <= k <= 24 ->
  JS.band (JS.sar v k) 0xFF =
  symbolOfBits (map (fun j => Z.testbit v (k + Z.of_nat (7 - j))) (seq 0 8)).
Proof.
  intros Hk. rewrite byte_extract by lia. unfold Encoding.byteAt.
  change 256 with (2 ^ Z.of_nat 8).
  rewrite <- symbolOfBits_lowBits. f_equal. unfold lowBits.
  apply map_ext_in. intros j Hj. apply in_seq in Hj.
  rewrite Z.div_pow2_bits by lia. f_equal. lia.
Qed.

Lemma band_7_testbit s j :
  0 <= j < 32 ->
  Z.testbit (JS.band s 7) j = if j <? 3 then Z.testbit s j else false.
Proof.
  intros Hj. unfold JS.band. rewrite (toInt32_id 7) by lia.
  rewrite toInt32_testbit by lia. rewrite Z.land_spec.
  rewrite toInt32_testbit by lia.
  change 7 with (Z.ones 3).
  destruct (Z.ltb_spec j 3).
  - rewrite Z.ones_spec_low by lia. apply andb_true_r.
  - rewrite Z.ones_spec_high by lia. apply andb_false_r.
Qed.

(** The bits of the buffer after [(bitBuffer << 3) | (symbol & 0x07)]. *)
Lemma pushed3_testbit buf s j :
  0 <= j < 32 ->
  Z.testbit (JS.bor (JS.shl buf 3) (JS.band s 7)) j =
  if j <? 3 then Z.testbit s j else Z.testbit buf (j - 3).
Proof.
  intros Hj. rewrite bor_testbit, shl_testbit, band_7_testbit by lia.
  destruct (j <? 3); [reflexivity | apply orb_false_r].
Qed.

Lemma pushSymbol_0 buf s out :
  pushSymbol (buf, 0, out) s =
  let b := JS.bor (JS.shl buf 3) (JS.band s 7) in (b, 3, out).
Proof. reflexivity. Qed.

Lemma pushSymbol_1 buf s out :
  pushSymbol (buf, 1, out) s =
  let b := JS.bor (JS.shl buf 3) (JS.band s 7) in (b, 4, out).
Proof. reflexivity. Qed.

Lemma pushSymbol_2 buf s out :
  pushSymbol (buf, 2, out) s =
  let b := JS.bor (JS.shl buf 3) (JS.band s 7) in (b, 5, out).
Proof. reflexivity. Qed.

Lemma pushSymbol_3 buf s out :
  pushSymbol (buf, 3, out) s =
  let b := JS.bor (JS.shl buf 3) (JS.band s 7) in (b, 6, out).
Proof. reflexivity. Qed.

Lemma pushSymbol_4 buf s out :
  pushSymbol (buf, 4, out) s =
  let b := JS.bor (JS.shl buf 3) (JS.band s 7) in (b, 7, out).
Proof. reflexivity. Qed.

Lemma pushSymbol_5 buf s out :
  pushSymbol (buf, 5, out) s =
  let b := JS.bor (JS.shl buf 3) (JS.band s 7) in (b, 0, out ++ [JS.band (JS.sar b 0) 0xFF]).
Proof. reflexivity. Qed.

Lemma pushSymbol_6 buf s out :
  pushSymbol (buf, 6, out) s =
  let b := JS.bor (JS.shl buf 3) (JS.band s 7) in (b, 1, out ++ [JS.band (JS.sar b 1) 0xFF]).
Proof. reflexivity. Qed.

Lemma pushSymbol_7 buf s out :
  pushSymbol (buf, 7, out) s =
  let b := JS.bor (JS.shl buf 3) (JS.band s 7) in (b, 2, out ++ [JS.band (JS.sar b 2) 0xFF]).
Proof. reflexivity. Qed.

Ltac bit_tac :=
  rewrite pushed3_testbit by (cbn; lia); reflexivity.

Ltac bits_tac :=
  repeat (apply (f_equal2 (@cons bool)); [bit_tac|]); reflexivity.

Lemma unpack_invariant syms :
  forall buf nb out, 0 <= nb < 8 ->
  snd (fold_left pushSymbol syms (buf, nb, out)) =
  out ++ groupBytes (lowBits (Z.to_nat nb) buf ++ flat_map bitsOfSymbol syms).
Proof.
  induction syms as [|s rest IH]; intros buf nb out Hnb;
    assert (Hc : nb = 0 \/ nb = 1 \/ nb = 2 \/ nb = 3 \/ nb = 4 \/ nb = 5 \/
                 nb = 6 \/ nb = 7) by lia.
  - rewrite fold_left_nil. cbn [flat_map snd]. rewrite app_nil_r.
    destruct Hc as [-> | [-> | [-> | [-> | [-> | [-> | [-> | ->]]]]]]];
      cbn; now rewrite app_nil_r.
  - rewrite fold_left_cons. cbn [flat_map].
    destruct Hc as [-> | [-> | [-> | [-> | [-> | [-> | [-> | ->]]]]]]].
    + rewrite pushSymbol_0. cbv zeta. rewrite IH by lia.
      change (Z.to_nat 3) with 3%nat. change (Z.to_nat 0) with 0%nat.
      unfold lowBits, bitsOfSymbol. cbn [seq map app].
      do 2 f_equal. bits_tac.
    + rewrite pushSymbol_1. cbv zeta. rewrite IH by lia.
      change (Z.to_nat 4) with 4%nat. change (Z.to_nat 1) with 1%nat.
      unfold lowBits, bitsOfSymbol. cbn [seq map app].
      do 2 f_equal. bits_tac.
    + rewrite pushSymbol_2. cbv zeta. rewrite IH by lia.
      change (Z.to_nat 5) with 5%nat. change (Z.to_nat 2) with 2%nat.
      unfold lowBits, bitsOfSymbol. cbn [seq map app].
      do 2 f_equal. bits_tac.
    + rewrite pushSymbol_3. cbv zeta. rewrite IH by lia.
      change (Z.to_nat 6) with 6%nat. change (Z.to_nat 3) with 3%nat.
      unfold lowBits, bitsOfSymbol. cbn [seq map app].
      do 2 f_equal. bits_tac.
    + rewrite pushSymbol_4. cbv zeta. rewrite IH by lia.
      change (Z.to_nat 7) with 7%nat. change (Z.to_nat 4) with 4%nat.
      unfold lowBits, bitsOfSymbol. cbn [seq map app].
      do 2 f_equal. bits_tac.
    + rewrite pushSymbol_5. cbv zeta. rewrite IH by lia.
      change (Z.to_nat 5) with 5%nat. change (Z.to_nat 0) with 0%nat.
      unfold lowBits, bitsOfSymbol. cbn [seq map app].
      rewrite groupBytes_cons8, <- app_assoc. cbn [app]. f_equal.
      apply (f_equal2 (@cons Z)); [|reflexivity].
      rewrite byte_at by lia. cbn [seq map]. f_equal. bits_tac.
    + rewrite pushSymbol_6. cbv zeta. rewrite IH by lia.
      change (Z.to_nat 6) with 6%nat. change (Z.to_nat 1) with 1%nat.
      unfold lowBits, bitsOfSymbol. cbn [seq map app].
      rewrite groupBytes_cons8, <- app_assoc. cbn [app]. f_equal.
      apply (f_equal2 (@cons Z)).
      * rewrite byte_at by lia. cbn [seq map]. f_equal. bits_tac.
      * f_equal. bits_tac.
    + rewrite pushSymbol_7. cbv zeta. rewrite IH by lia.
      change (Z.to_nat 7) with 7%nat. change (Z.to_nat 2) with 2%nat.
      unfold lowBits, bitsOfSymbol. cbn [seq map app].
      rewrite groupBytes_cons8, <- app_assoc. cbn [app]. f_equal.
      apply (f_equal2 (@cons Z)).
      * rewrite byte_at by lia. cbn [seq map]. f_equal. bits_tac.
      * f_equal. bits_tac.
Qed.

Lemma bitsOfSymbol_symbolOfBits a b c :
  bitsOfSymbol (symbolOfBits [a; b; c]) = [a; b; c].
Proof. destruct a, b, c; reflexivity. Qed.

(** Cutting a bit stream into symbols and spelling the symbols out again
    gives the stream back, followed by fewer than three padding bits. *)
Lemma regroup n :
  forall bits, (length bits <= n)%nat ->
  exists pad, (length pad < 3)%nat /\
    flat_map bitsOfSymbol (groupBits PadRight bits) = bits ++ pad.
Proof.
  induction n as [n IH] using lt_wf_ind. intros bits Hlen.
  destruct bits as [|a [|b [|c rest]]].
  - exists []. cbn. split; [lia | reflexivity].
  - exists [false; false]. cbn [groupBits padGroup length Nat.sub repeat app flat_map].
    rewrite bitsOfSymbol_symbolOfBits. split; [cbn; lia | reflexivity].
  - exists [false]. cbn [groupBits padGroup length Nat.sub repeat app flat_map].
    rewrite bitsOfSymbol_symbolOfBits. split; [cbn; lia | reflexivity].
  - cbn [length] in Hlen.
    destruct (IH (length rest) ltac:(lia) rest (le_n _)) as (pad & Hpad & Heq).
    exists pad. split; [exact Hpad|].
    rewrite groupBits_cons3. cbn [flat_map].
    now rewrite bitsOfSymbol_symbolOfBits, Heq.
Qed.

Lemma groupBytes_short pad : (length pad < 8)%nat -> groupBytes pad = [].
Proof.
  intros H. do 8 (destruct pad as [|? pad]; [reflexivity|]).
  cbn [length] in H. lia.
Qed.

Lemma byte_of_bits x : u8 x -> symbolOfBits (bitsOfByte x) = x.
Proof.
  intros Hx. change (bitsOfByte x) with (lowBits 8 x).
  rewrite symbolOfBits_lowBits. apply Z.mod_small. exact Hx.
Qed.

Lemma groupBytes_bitsOfBytes data pad :
  bytes data -> (length pad < 8)%nat ->
  groupBytes (bitsOfBytes data ++ pad) = data.
Proof.
  intros Hb Hpad. induction Hb as [|x rest Hx Hrest IH].
  - now apply groupBytes_short.
  - unfold bitsOfBytes. cbn [flat_map]. fold (bitsOfBytes rest).
    rewrite <- app_assoc.
    pose proof (byte_of_bits x Hx) as Hbyte. revert Hbyte.
    unfold bitsOfByte. cbn [seq map app]. intros Hbyte.
    rewrite groupBytes_cons8, Hbyte. f_equal. exact IH.
Qed.

Lemma map_mod_bytes l : bytes l -> map (fun b => b mod 256) l = l.
Proof.
  induction 1 as [|x l Hx Hl IH]; [reflexivity|].
  cbn [map]. rewrite IH. f_equal. apply Z.mod_small. exact Hx.
Qed.

Lemma symbolsToBytes_8 syms :
  symbolsToBytes AUDIBLE syms =
  map (fun b => b mod 256) (groupBytes (flat_map bitsOfSymbol syms)).
Proof.
  unfold symbolsToBytes. cbn [NUM_FREQUENCIES AUDIBLE Z.eqb Pos.eqb].
  pose proof (unpack_invariant syms 0 0 [] ltac:(lia)) as H.
  destruct (fold_left pushSymbol syms (0, 0, [])) as [[buf nb] out].
  cbn [snd] in H. rewrite H. reflexivity.
Qed.

Lemma symbolsToBytes_bytesToSymbols_8 data :
  bytes data -> symbolsToBytes AUDIBLE (bytesToSymbols AUDIBLE data) = data.
Proof.
  intros Hb. rewrite symbolsToBytes_8, bytesToSymbols_8 by exact Hb.
  destruct (regroup _ (bitsOfBytes data) (le_n _)) as (pad & Hpad & ->).
  rewrite groupBytes_bitsOfBytes by (try exact Hb; lia).
  now apply map_mod_bytes.
Qed.

Lemma pair_value x :
  u8 x -> JS.bor (JS.shl (JS.band (x / 16) 0x0F) 4) (JS.band (x mod 16) 0x0F) = x.
Proof.
  intros Hx.
  assert (H : (JS.bor (JS.shl (JS.band (x / 16) 0x0F) 4) (JS.band (x mod 16) 0x0F)
               =? x) = true).
  { revert x Hx. apply u8_forall. vm_compute. reflexivity. }
  now apply Z.eqb_eq in H.
Qed.

Lemma symbolPairs_nibbles data :
  bytes data -> forall out, symbolPairs (nibbles data) out = out ++ data.
Proof.
  induction 1 as [|x rest Hx Hrest IH]; intros out.
  - cbn. now rewrite app_nil_r.
  - unfold nibbles. cbn [flat_map app symbolPairs]. fold (nibbles rest).
    rewrite IH, pair_value by exact Hx. now rewrite <- app_assoc.
Qed.

Lemma symbolsToBytes_bytesToSymbols_16 data :
  bytes data -> symbolsToBytes ULTRASONIC (bytesToSymbols ULTRASONIC data) = data.
Proof.
  intros Hb. rewrite bytesToSymbols_16 by exact Hb.
  unfold symbolsToBytes. cbn [NUM_FREQUENCIES ULTRASONIC Z.eqb Pos.eqb].
  rewrite symbolPairs_nibbles by exact Hb. cbn [app].
  now apply map_mod_bytes.
Qed.

(** ** Symbols and the frequency table *)

Lemma symbolOfBits_3_range a b c : 0 <= symbolOfBits [a; b; c] < 8.
Proof. destruct a, b, c; cbn; lia. Qed.

Lemma groupBits_range pad n :
  forall bits, (length bits <= n)%nat ->
  Forall (fun s => 0 <= s < 8) (groupBits pad bits).
Proof.
  induction n as [n IH] using lt_wf_ind. intros bits Hlen.
  destruct bits as [|a [|b [|c rest]]].
  - constructor.
  - cbn [groupBits]. constructor; [|constructor].
    destruct pad; cbn [padGroup length Nat.sub repeat app]; apply symbolOfBits_3_range.
  - cbn [groupBits]. constructor; [|constructor].
    destruct pad; cbn [padGroup length Nat.sub repeat app]; apply symbolOfBits_3_range.
  - rewrite groupBits_cons3. constructor; [apply symbolOfBits_3_range|].
    cbn [length] in Hlen. apply (IH (length rest)); lia.
Qed.

Lemma groupBits_length pad n :
  forall bits, (length bits <= n)%nat ->
  length (groupBits pad bits) = ((length bits + 2) / 3)%nat.
Proof.
  induction n as [n IH] using lt_wf_ind. intros bits Hlen.
  destruct bits as [|a [|b [|c rest]]]; try reflexivity.
  rewrite groupBits_cons3. cbn [length] in *.
  rewrite (IH (length rest)) by lia.
  replace (S (S (S (length rest))) + 2)%nat with (length rest + 2 + 1 * 3)%nat by lia.
  rewrite Nat.div_add by lia. lia.
Qed.

Lemma bitsOfBytes_length data : length (bitsOfBytes data) = (8 * length data)%nat.
Proof.
  induction data as [|x rest IH]; [reflexivity|].
  unfold bitsOfBytes in *. cbn [flat_map]. rewrite length_app, IH.
  unfold bitsOfByte. rewrite length_map, length_seq. cbn [length]. lia.
Qed.

Lemma nibbles_range data :
  bytes data -> Forall (fun s => 0 <= s < 16) (nibbles data).
Proof.
  induction 1 as [|x rest Hx Hrest IH]; [constructor|].
  unfold nibbles. cbn [flat_map app]. unfold u8 in Hx.
  constructor; [|constructor; [|exact IH]].
  - split; [apply Z.div_pos; lia | apply Z.div_lt_upper_bound; lia].
  - apply Z.mod_pos_bound. lia.
Qed.

Lemma nibbles_length data : length (nibbles data) = (2 * length data)%nat.
Proof.
  induction data as [|x rest IH]; [reflexivity|].
  unfold nibbles in *. cbn [flat_map app length]. rewrite IH. lia.
Qed.

Lemma frequency_lookup config s :
  0 <= s < NUM_FREQUENCIES config ->
  nth_error (generateFrequencyTable config) (Z.to_nat s) =
  Some (BASE_FREQ config + s * FREQ_SPACING config).
Proof.
  intros Hs. unfold generateFrequencyTable.
  rewrite nth_error_map, nth_error_seq.
  destruct (Nat.ltb_spec (Z.to_nat s) (Z.to_nat (NUM_FREQUENCIES config))); [|lia].
  cbn. now rewrite Z2Nat.id by lia.
Qed.

Lemma applyFEC_bytes data self : bytes (applyFEC data self).
Proof. unfold applyFEC. apply interleave_bytes. Qed.

(** X13: with sixteen frequencies [_symbolsToBytes] undoes [_bytesToSymbols]
    on every byte buffer. *)
Theorem symbolsToBytes_inverts_16 data :
  bytes data -> symbolsToBytes ULTRASONIC (bytesToSymbols ULTRASONIC data) = data.
Proof. apply symbolsToBytes_bytesToSymbols_16. Qed.

Lemma symbolsToBytes_inverts_16_witness :
  symbolsToBytes ULTRASONIC (bytesToSymbols ULTRASONIC [0x3C; 0xFF; 0]) = [0x3C; 0xFF; 0].
Proof.
  apply symbolsToBytes_inverts_16. repeat constructor; unfold u8; lia.
Defined.

(** X14: with eight frequencies, too, [_symbolsToBytes] undoes
    [_bytesToSymbols]: the zero bits that pad the last symbol never fill a
    byte, so the unpacking loop leaves them in its buffer. *)
Theorem symbolsToBytes_inverts_8 data :
  bytes data -> symbolsToBytes AUDIBLE (bytesToSymbols AUDIBLE data) = data.
Proof. apply symbolsToBytes_bytesToSymbols_8. Qed.

Lemma symbolsToBytes_inverts_8_witness :
  symbolsToBytes AUDIBLE (bytesToSymbols AUDIBLE [0xDE; 0xAD]) = [0xDE; 0xAD].
Proof.
  apply symbolsToBytes_inverts_8. repeat constructor; unfold u8; lia.
Defined.

(** X15: every symbol [modulate] looks up is an index of the frequency
    table, and its tone lies inside the band.  In both bands a buffer of [n]
    bytes gives [2 n] symbols (16-FSK) or [ceil(8 n / 3)] symbols (8-FSK),
    each below [NUM_FREQUENCIES], and entry [s] of the table is
    [BASE_FREQ + s * FREQ_SPACING]. *)
Theorem symbols_in_frequency_table config data :
  config = ULTRASONIC \/ config = AUDIBLE ->
  bytes data ->
  Forall
    (fun s =>
       0 <= s < NUM_FREQUENCIES config /\
       nth_error (generateFrequencyTable config) (Z.to_nat s) =
         Some (BASE_FREQ config + s * FREQ_SPACING config) /\
       BASE_FREQ config <= BASE_FREQ config + s * FREQ_SPACING config
         < BASE_FREQ config + BANDWIDTH config)
    (bytesToSymbols config data) /\
  length (bytesToSymbols config data) =
    if NUM_FREQUENCIES config =? 16 then (2 * length data)%nat
    else ((8 * length data + 2) / 3)%nat.
Proof.
  intros [-> | ->] Hb.
  - rewrite bytesToSymbols_16 by exact Hb. split; [|apply nibbles_length].
    eapply Forall_impl; [|apply nibbles_range, Hb].
    intros s Hs. cbn beta in Hs. split; [exact Hs|]. split.
    + apply frequency_lookup. exact Hs.
    + cbn [BASE_FREQ FREQ_SPACING BANDWIDTH ULTRASONIC]. lia.
  - rewrite bytesToSymbols_8 by exact Hb. split.
    + eapply Forall_impl; [|apply (groupBits_range PadRight _ _ (le_n _))].
      intros s Hs. cbn beta in Hs. split; [exact Hs|]. split.
      * apply frequency_lookup. exact Hs.
      * cbn [BASE_FREQ FREQ_SPACING BANDWIDTH AUDIBLE]. lia.
    + rewrite (groupBits_length PadRight _ _ (le_n _)), bitsOfBytes_length.
      reflexivity.
Qed.

Lemma symbols_in_frequency_table_witness :
  Forall
    (fun s =>
       0 <= s < 8 /\
       nth_error (generateFrequencyTable AUDIBLE) (Z.to_nat s) = Some (1000 + s * 200) /\
       1000 <= 1000 + s * 200 < 1000 + 1600)
    (bytesToSymbols AUDIBLE [0xFF; 0x01]) /\
  length (bytesToSymbols AUDIBLE [0xFF; 0x01]) = 6%nat.
Proof.
  apply (symbols_in_frequency_table AUDIBLE [0xFF; 0x01]).
  - now right.
  - repeat constructor; unfold u8; lia.
Defined.

(** X16: the digital part of the transmit and receive chains composes.  What
    [_transmitFrame] hands to the modulator, a frame through [applyFEC], comes
    back from the symbols unchanged in either band, and after [decodeFEC] it
    parses as the frame itself. *)
Theorem digital_loopback config payload options self fec rx :
  config = ULTRASONIC \/ config = AUDIBLE ->
  bytes payload ->
  Z.of_nat (length payload) < 65536 ->
  (0 < interleaveDepth fec)%nat ->
  let frame := fst (createFrame payload options self) in
  let sent := applyFEC frame fec in
  let received := symbolsToBytes config (bytesToSymbols config sent) in
  received = sent /\
  fst (parseFrame (fst (decodeFEC received fec)) rx) = fst (parseFrame frame rx).
Proof.
  intros Hc Hb Hlen Hd. cbv zeta.
  assert (Hr : symbolsToBytes config
                 (bytesToSymbols config
                    (applyFEC (fst (createFrame payload options self)) fec)) =
               applyFEC (fst (createFrame payload options self)) fec).
  { destruct Hc as [-> | ->].
    - apply symbolsToBytes_bytesToSymbols_16, applyFEC_bytes.
    - apply symbolsToBytes_bytesToSymbols_8, applyFEC_bytes. }
  split; [exact Hr|]. rewrite Hr. now apply parseFrame_decodeFEC.
Qed.

Lemma digital_loopback_witness :
  let frame := fst (createFrame [1; 2; 3] noOptions newLayer) in
  let sent := applyFEC frame newLayer in
  let received := symbolsToBytes AUDIBLE (bytesToSymbols AUDIBLE sent) in
  received = sent /\
  fst (parseFrame (fst (decodeFEC received newLayer)) newLayer) =
  fst (parseFrame frame newLayer).
Proof.
  apply (digital_loopback AUDIBLE [1; 2; 3] noOptions newLayer newLayer newLayer).
  - now right.
  - repeat constructor; unfold u8; lia.
  - simpl; lia.
  - apply Nat.lt_0_succ.
Defined.

End SymbolsToBytes.

(** ** MAC layer: queue discipline, collisions and contention *)

Section SortAppend.
Context {A : Type}.
Variables (cmp : A -> A -> Z) (key : A -> Z).
Hypothesis cmp_key : forall a b, cmp a b <= 0 <-> key a <= key b.

Lemma sortInsert_front x l :
  (forall y, In y l -> key x <= key y) ->
  sortInsert cmp x l = x :: l.
Proof.
  destruct l as [|y t]; [reflexivity|]. intros H. cbn [sortInsert].
  destruct (Z.leb_spec (cmp x y) 0) as [_|Hgt]; [reflexivity|].
  assert (key x <= key y) by (apply H; now left).
  apply cmp_key in H0. lia.
Qed.

Lemma filter_all (P : A -> bool) l : (forall y, In y l -> P y = true) -> filter P l = l.
Proof.
  induction l as [|y t IH]; intros H; [reflexivity|].
  cbn [filter]. rewrite H by now left. f_equal. apply IH. intros z Hz. apply H. now right.
Qed.

Lemma filter_none (P : A -> bool) l : (forall y, In y l -> P y = false) -> filter P l = [].
Proof.
  induction l as [|y t IH]; intros H; [reflexivity|].
  cbn [filter]. rewrite H by now left. apply IH. intros z Hz. apply H. now right.
Qed.

(** Sorting a sorted list with one element pushed at its end puts the element
    behind every element whose key is not larger than its own. *)
Lemma sortBy_push l e :
  StronglySorted (fun a b => key a <= key b) l ->
  sortBy cmp (l ++ [e]) =
  filter (fun a => key a <=? key e) l ++ e :: filter (fun a => key e <? key a) l.
Proof.
  induction 1 as [|x t Hs IH Hx]; [reflexivity|].
  rewrite Forall_forall in Hx.
  cbn [app sortBy]. rewrite IH. cbn [filter].
  destruct (Z.leb_spec (key x) (key e)) as [Hle|Hgt].
  - rewrite (proj2 (Z.ltb_ge (key e) (key x))) by lia.
    rewrite sortInsert_front; [reflexivity|].
    intros y Hy. apply in_app_or in Hy. destruct Hy as [Hy|[<-|Hy]].
    + apply filter_In in Hy. apply Hx, Hy.
    + exact Hle.
    + apply filter_In in Hy. apply Hx, Hy.
  - rewrite (proj2 (Z.ltb_lt (key e) (key x))) by lia.
    rewrite filter_none, filter_all.
    + cbn [app sortInsert].
      destruct (Z.leb_spec (cmp x e) 0) as [Hc|_].
      * apply cmp_key in Hc. lia.
      * f_equal. apply sortInsert_front. exact Hx.
    + intros y Hy. specialize (Hx y Hy). apply Z.ltb_lt. lia.
    + intros y Hy. specialize (Hx y Hy). apply Z.leb_gt. lia.
Qed.

End SortAppend.

Section QueueDiscipline.
Import MAC.

Lemma queue_key a b :
  q_priority b - q_priority a <= 0 <-> - q_priority a <= - q_priority b.
Proof. lia. Qed.

Lemma queueSorted_key queue :
  queueSorted queue <->
  StronglySorted (fun a b => - q_priority a <= - q_priority b) queue.
Proof.
  unfold queueSorted. split; intros H; induction H; constructor; auto;
    rewrite Forall_forall in *; intros y Hy; specialize (H0 y Hy); lia.
Qed.

Lemma queueFrame_queue frame priority priorityLevel m :
  transmitQueue (queueFrame frame priority priorityLevel m) =
  sortBy (fun a b => q_priority b - q_priority a)
         (transmitQueue m ++ [mkEntry frame priority 0]).
Proof.
  unfold queueFrame. cbv zeta. cbn [assignedSlots set_transmitQueue].
  destruct (length (assignedSlots m) =? 0)%nat; reflexivity.
Qed.

Lemma queueFrame_spec frame priority priorityLevel m :
  queueSorted (transmitQueue m) ->
  let m' := queueFrame frame priority priorityLevel m in
  transmitQueue m' =
    filter (fun e => priority <=? q_priority e) (transmitQueue m) ++
    mkEntry frame priority 0 ::
    filter (fun e => q_priority e <? priority) (transmitQueue m) /\
  queueSorted (transmitQueue m') /\
  pendingSlotRequests m' =
    (if (length (assignedSlots m) =? 0)%nat
     then pendingSlotRequests m ++ [mkRequest (deviceId m) 1 priorityLevel]
     else pendingSlotRequests m) /\
  assignedSlots m' = assignedSlots m.
Proof.
  intros Hs. cbv zeta. repeat split.
  - rewrite queueFrame_queue.
    rewrite (sortBy_push _ (fun e => - q_priority e) queue_key)
      by now apply queueSorted_key.
    cbn [q_priority]. f_equal; [|f_equal]; apply filter_ext; intros e.
    + destruct (Z.leb_spec (- q_priority e) (- priority)),
               (Z.leb_spec priority (q_priority e)); try reflexivity; lia.
    + destruct (Z.ltb_spec (- priority) (- q_priority e)),
               (Z.ltb_spec (q_priority e) priority); try reflexivity; lia.
  - rewrite queueFrame_queue. apply queueSorted_key.
    apply (sortBy_sorted _ (fun e => - q_priority e) queue_key).
  - unfold queueFrame. cbv zeta. cbn [assignedSlots set_transmitQueue].
    destruct (length (assignedSlots m) =? 0)%nat; reflexivity.
  - unfold queueFrame. cbv zeta. cbn [assignedSlots set_transmitQueue].
    destruct (length (assignedSlots m) =? 0)%nat; reflexivity.
Qed.

Lemma handleOwnSlot_spec hasCallback m :
  queueSorted (transmitQueue m) ->
  let '(m', sent) := handleOwnSlot hasCallback m in
  match sent with
  | Some e =>
      hasCallback = true /\
      transmitQueue m = e :: transmitQueue m' /\
      (forall e', In e' (transmitQueue m) -> q_priority e' <= q_priority e) /\
      queueSorted (transmitQueue m') /\
      framesSent (stats m') = framesSent (stats m) + 1
  | None =>
      (hasCallback = false \/ transmitQueue m = []) /\ m' = m
  end.
Proof.
  intros Hs. unfold handleOwnSlot.
  destruct (transmitQueue m) as [|e rest] eqn:Hq.
  - split; [now right | reflexivity].
  - destruct hasCallback.
    + cbn. inversion Hs as [|? ? Hrest Hall]; subst.
      repeat split; try assumption.
      intros e' [<-|He']; [lia|]. rewrite Forall_forall in Hall. now apply Hall.
    + split; [now left | reflexivity].
Qed.

(** X17: [queueFrame] on a queue in descending priority.  The new entry goes
    behind every queued entry of its own or a higher priority and before the
    lower ones, the queue stays in descending priority, and one slot is
    requested exactly when the layer holds no slot. *)
Theorem queueFrame_order frame priority priorityLevel m :
  queueSorted (transmitQueue m) ->
  let m' := queueFrame frame priority priorityLevel m in
  transmitQueue m' =
    filter (fun e => priority <=? q_priority e) (transmitQueue m) ++
    mkEntry frame priority 0 ::
    filter (fun e => q_priority e <? priority) (transmitQueue m) /\
  queueSorted (transmitQueue m') /\
  pendingSlotRequests m' =
    (if (length (assignedSlots m) =? 0)%nat
     then pendingSlotRequests m ++ [mkRequest (deviceId m) 1 priorityLevel]
     else pendingSlotRequests m) /\
  assignedSlots m' = assignedSlots m.
Proof. apply queueFrame_spec. Qed.

Lemma queueFrame_order_witness :
  transmitQueue
    (queueFrame [7] 5 5
       (set_transmitQueue [mkEntry [1] 9 0; mkEntry [2] 5 0; mkEntry [3] 1 0]
          (newMAC "A" 20)))
  = [mkEntry [1] 9 0; mkEntry [2] 5 0; mkEntry [7] 5 0; mkEntry [3] 1 0].
Proof.
  apply (queueFrame_order [7] 5 5
           (set_transmitQueue [mkEntry [1] 9 0; mkEntry [2] 5 0; mkEntry [3] 1 0]
              (newMAC "A" 20))).
  unfold queueSorted. cbn [transmitQueue set_transmitQueue].
  repeat constructor; simpl; lia.
Defined.

(** X18: [_handleOwnSlot] on a queue in descending priority hands out the
    head of the queue, an entry of the highest priority queued, removes it
    and counts one frame sent; with an empty queue or without a callback it
    changes nothing. *)
Theorem handleOwnSlot_sends_highest hasCallback m :
  queueSorted (transmitQueue m) ->
  let '(m', sent) := handleOwnSlot hasCallback m in
  match sent with
  | Some e =>
      hasCallback = true /\
      transmitQueue m = e :: transmitQueue m' /\
      (forall e', In e' (transmitQueue m) -> q_priority e' <= q_priority e) /\
      queueSorted (transmitQueue m') /\
      framesSent (stats m') = framesSent (stats m) + 1
  | None =>
      (hasCallback = false \/ transmitQueue m = []) /\ m' = m
  end.
Proof. apply handleOwnSlot_spec. Qed.

Lemma handleOwnSlot_sends_highest_witness :
  let m := set_transmitQueue [mkEntry [1] 9 0; mkEntry [2] 5 0] (newMAC "A" 20) in
  let '(m', sent) := handleOwnSlot true m in
  match sent with
  | Some e =>
      true = true /\
      transmitQueue m = e :: transmitQueue m' /\
      (forall e', In e' (transmitQueue m) -> q_priority e' <= q_priority e) /\
      queueSorted (transmitQueue m') /\
      framesSent (stats m') = framesSent (stats m) + 1
  | None => (true = false \/ transmitQueue m = []) /\ m' = m
  end.
Proof.
  apply (handleOwnSlot_sends_highest true
           (set_transmitQueue [mkEntry [1] 9 0; mkEntry [2] 5 0] (newMAC "A" 20))).
  unfold queueSorted. cbn [transmitQueue set_transmitQueue].
  repeat constructor; simpl; lia.
Defined.

End QueueDiscipline.

Section Collisions.
Import MAC.

Lemma backoff_range random maxBackoff :
  (0 <= random)%Q -> (random < 1)%Q -> 0 < maxBackoff ->
  0 <= Qfloor (random * inject_Z maxBackoff) < maxBackoff.
Proof.
  intros H0 H1 HM.
  assert (HMq : (0 < inject_Z maxBackoff)%Q) by (rewrite <- (Zlt_Qlt 0); exact HM).
  split.
  - change 0 with (Qfloor 0). apply Qfloor_resp_le.
    apply Qmult_le_0_compat; [exact H0 | now apply Qlt_le_weak].
  - rewrite Zlt_Qlt.
    apply (Qle_lt_trans _ (random * inject_Z maxBackoff)); [apply Qfloor_le|].
    rewrite <- (Qmult_1_l (inject_Z maxBackoff)) at 2.
    apply Qmult_lt_compat_r; assumption.
Qed.

Lemma handleCollision_assigned random m :
  assignedSlots (handleCollision random m) =
  [Z.rem (currentSlot m +
          Qfloor (random * inject_Z (Z.min 16 (2 ^ (collisionCount m + 1)))))
         (slotsPerFrame m)] /\
  collisionCount (handleCollision random m) = collisionCount m + 1 /\
  length (transmitQueue (handleCollision random m)) = length (transmitQueue m) /\
  map q_frame (transmitQueue (handleCollision random m)) = map q_frame (transmitQueue m).
Proof.
  destruct m as [id spf assigned pending table cur fn queue cc coord st].
  unfold handleCollision. cbv zeta.
  cbn -[Z.rem Z.pow Qfloor Z.min Qmult inject_Z Z.add].
  destruct queue as [|e rest];
    cbn -[Z.rem Z.pow Qfloor Z.min Qmult inject_Z Z.add]; repeat split; reflexivity.
Qed.

Lemma handleCollision_backoff random m :
  (0 <= random)%Q -> (random < 1)%Q ->
  0 <= collisionCount m ->
  0 <= currentSlot m -> 0 < slotsPerFrame m ->
  exists backoffSlots,
    0 <= backoffSlots < Z.min 16 (2 ^ (collisionCount m + 1)) /\
    assignedSlots (handleCollision random m) =
      [(currentSlot m + backoffSlots) mod slotsPerFrame m] /\
    0 <= (currentSlot m + backoffSlots) mod slotsPerFrame m < slotsPerFrame m.
Proof.
  intros H0 H1 Hc Hs Hspf.
  set (maxBackoff := Z.min 16 (2 ^ (collisionCount m + 1))).
  assert (HM : 0 < maxBackoff).
  { unfold maxBackoff. apply Z.min_glb_lt; [lia|]. apply Z.pow_pos_nonneg; lia. }
  pose proof (backoff_range random maxBackoff H0 H1 HM) as Hb.
  exists (Qfloor (random * inject_Z maxBackoff)). split; [exact Hb|].
  destruct (handleCollision_assigned random m) as (Ha & _).
  split.
  - rewrite Ha. fold maxBackoff. f_equal. apply Z.rem_mod_nonneg; lia.
  - apply Z.mod_pos_bound. exact Hspf.
Qed.

Lemma receiveFrame_spec random m :
  let '(m', buffered) := receiveFrame random m in
  framesReceived (stats m') = framesReceived (stats m) + 1 /\
  (if existsb (Z.eqb (currentSlot m)) (assignedSlots m) then
     buffered = None /\
     collisions (stats m') = collisions (stats m) + 1 /\
     collisionCount m' = collisionCount m + 1 /\
     length (assignedSlots m') = 1%nat
   else
     buffered = Some (currentSlot m) /\
     collisions (stats m') = collisions (stats m) /\
     collisionCount m' = collisionCount m /\
     assignedSlots m' = assignedSlots m).
Proof.
  destruct m as [id spf assigned pending table cur fn queue cc coord st].
  unfold receiveFrame. cbv zeta.
  cbn -[Z.rem Z.pow Qfloor Z.min Qmult inject_Z Z.add existsb].
  destruct (existsb (Z.eqb cur) assigned).
  - unfold handleCollision. cbv zeta.
    cbn -[Z.rem Z.pow Qfloor Z.min Qmult inject_Z Z.add].
    destruct queue as [|e rest];
      cbn -[Z.rem Z.pow Qfloor Z.min Qmult inject_Z Z.add]; repeat split; reflexivity.
  - cbn -[Z.add]. repeat split; reflexivity.
Qed.

(** X19: the backoff of [_handleCollision].  With [Math.random()] in
    [0, 1) the layer moves to the single slot
    [(currentSlot + backoffSlots) mod slotsPerFrame], where [backoffSlots] is
    below [min(16, 2^collisionCount)] for the incremented count; the slot lies
    inside the frame. *)
Theorem handleCollision_backoff_window random m :
  (0 <= random)%Q -> (random < 1)%Q ->
  0 <= collisionCount m ->
  0 <= currentSlot m -> 0 < slotsPerFrame m ->
  exists backoffSlots,
    0 <= backoffSlots < Z.min 16 (2 ^ (collisionCount m + 1)) /\
    assignedSlots (handleCollision random m) =
      [(currentSlot m + backoffSlots) mod slotsPerFrame m] /\
    0 <= (currentSlot m + backoffSlots) mod slotsPerFrame m < slotsPerFrame m.
Proof. apply handleCollision_backoff. Qed.

Lemma handleCollision_backoff_window_witness :
  exists backoffSlots,
    0 <= backoffSlots < Z.min 16 (2 ^ (0 + 1)) /\
    assignedSlots (handleCollision (3 # 4) (set_currentSlot 19 (newMAC "A" 20))) =
      [(19 + backoffSlots) mod 20] /\
    0 <= (19 + backoffSlots) mod 20 < 20.
Proof.
  apply (handleCollision_backoff_window (3 # 4) (set_currentSlot 19 (newMAC "A" 20))).
  - unfold Qle; simpl; lia.
  - unfold Qlt; simpl; lia.
  - simpl; lia.
  - simpl; lia.
  - simpl; lia.
Defined.

(** X20: [receiveFrame] counts every frame as received.  A frame that arrives
    in one of the layer's own slots is a collision: it is not buffered, the
    collision counters grow by one and the layer is left with a single slot.
    Any other frame is buffered under the current slot and changes neither
    the counters nor the slots. *)
Theorem receiveFrame_outcome random m :
  let '(m', buffered) := receiveFrame random m in
  framesReceived (stats m') = framesReceived (stats m) + 1 /\
  (if existsb (Z.eqb (currentSlot m)) (assignedSlots m) then
     buffered = None /\
     collisions (stats m') = collisions (stats m) + 1 /\
     collisionCount m' = collisionCount m + 1 /\
     length (assignedSlots m') = 1%nat
   else
     buffered = Some (currentSlot m) /\
     collisions (stats m') = collisions (stats m) /\
     collisionCount m' = collisionCount m /\
     assignedSlots m' = assignedSlots m).
Proof. apply receiveFrame_spec. Qed.

End Collisions.

Section Contention.
Import MAC.

Lemma hashDeviceId_nonneg id : 0 <= hashDeviceId id.
Proof. unfold hashDeviceId. apply Z.abs_nonneg. Qed.

Lemma contentionSlots_length m request :
  length (contentionSlots m request) = Z.to_nat (r_numSlots request).
Proof. unfold contentionSlots. now rewrite !length_map, length_seq. Qed.

Lemma contentionSlots_inFrame m request :
  0 < slotsPerFrame m -> 0 <= r_priority request ->
  Forall (inFrame (slotsPerFrame m)) (contentionSlots m request).
Proof.
  intros Hspf Hp. unfold contentionSlots. cbv zeta.
  apply Forall_forall. intros s Hs.
  apply in_map_iff in Hs. destruct Hs as (i & <- & Hi).
  apply in_map_iff in Hi. destruct Hi as (k & <- & _).
  pose proof (hashDeviceId_nonneg (r_deviceId request)) as Hh.
  assert (Hbase : 0 <= Z.rem (hashDeviceId (r_deviceId request) + Z.of_nat k * 7)
                         (slotsPerFrame m) < slotsPerFrame m).
  { rewrite Z.rem_mod_nonneg by lia. apply Z.mod_pos_bound. lia. }
  assert (Hoff : 0 <= r_priority request / 2) by (apply Z.div_pos; lia).
  unfold inFrame. rewrite Z.rem_mod_nonneg by lia. apply Z.mod_pos_bound. lia.
Qed.

Lemma contention_fold requests :
  forall m out,
  let res :=
    fold_left
      (fun '(m, out) request =>
         let slots := contentionSlots m request in
         let m :=
           if String.eqb (r_deviceId request) (deviceId m)
           then set_assignedSlots slots m else m in
         let m := set_slotTable (mapSet (r_deviceId request) slots (slotTable m)) m in
         (m, out ++ [(request, GrantedContention slots)]))
      requests (m, out) in
  snd res =
    out ++ map (fun r => (r, GrantedContention (contentionSlots m r))) requests /\
  slotsPerFrame (fst res) = slotsPerFrame m.
Proof.
  induction requests as [|r rest IH]; intros m out.
  - cbn. now rewrite app_nil_r.
  - cbv zeta. rewrite fold_left_cons.
    match goal with |- context [fold_left ?f rest ?st] =>
      remember st as st0 eqn:Hst end.
    destruct st0 as [m1 out1]. injection Hst as Hm1 Hout1.
    specialize (IH m1 out1). cbv zeta in IH. destruct IH as [IH1 IH2].
    assert (Hspf : slotsPerFrame m1 = slotsPerFrame m).
    { subst m1. destruct (String.eqb _ _); reflexivity. }
    split.
    + rewrite IH1. subst out1. rewrite <- app_assoc. cbn [app map].
      do 2 f_equal. apply map_ext. intros r'.
      unfold contentionSlots. now rewrite Hspf.
    + now rewrite IH2.
Qed.

Lemma contention_spec m :
  isCoordinator m = false -> pendingSlotRequests m <> [] ->
  snd (processSlotRequests m) =
    map (fun r => (r, GrantedContention (contentionSlots m r)))
        (pendingSlotRequests m) /\
  pendingSlotRequests (fst (processSlotRequests m)) = [].
Proof.
  intros Hc Hp. unfold processSlotRequests. rewrite Hc.
  destruct (pendingSlotRequests m) as [|r rest] eqn:Hpend; [congruence|].
  cbn [negb andb length Nat.ltb Nat.leb].
  unfold contentionBasedSlotSelection. rewrite Hpend.
  pose proof (contention_fold (r :: rest) m []) as H. cbv zeta in H.
  destruct (fold_left _ (r :: rest) (m, [])) as [m' out'].
  cbn [fst snd app] in *. destruct H as [H _]. split; [exact H | reflexivity].
Qed.

(** X21: contention mode never denies.  A layer that is not the coordinator
    answers every pending request, in arrival order, with a contention grant
    of exactly [numSlots] slots, whatever the slot table holds; for a
    priority that is not negative the slots lie inside the frame. *)
Theorem contention_grants m :
  isCoordinator m = false -> pendingSlotRequests m <> [] ->
  0 < slotsPerFrame m ->
  snd (processSlotRequests m) =
    map (fun r => (r, GrantedContention (contentionSlots m r)))
        (pendingSlotRequests m) /\
  pendingSlotRequests (fst (processSlotRequests m)) = [] /\
  (forall r, length (contentionSlots m r) = Z.to_nat (r_numSlots r)) /\
  (forall r, 0 <= r_priority r ->
     Forall (inFrame (slotsPerFrame m)) (contentionSlots m r)).
Proof.
  intros Hc Hp Hspf. destruct (contention_spec m Hc Hp) as [H1 H2].
  split; [exact H1|]. split; [exact H2|]. split.
  - intros r. apply contentionSlots_length.
  - intros r Hr. now apply contentionSlots_inFrame.
Qed.

Lemma contention_grants_witness :
  snd (processSlotRequests (requestSlots 2 5 (newMAC "A" 20))) =
  [(mkRequest "A" 2 5, GrantedContention [7; 14])].
Proof.
  refine (proj1 (contention_grants (requestSlots 2 5 (newMAC "A" 20)) _ _ _)).
  - reflexivity.
  - discriminate.
  - simpl; lia.
Defined.

End Contention.

Section CoordinatorOrder.
Import MAC.

Lemma coordinator_fifo m k :
  isCoordinator m = true ->
  filter (fun r => r_priority r =? k) (map fst (snd (processSlotRequests m))) =
  filter (fun r => r_priority r =? k) (pendingSlotRequests m).
Proof.
  intros Hc. destruct (processSlotRequests_run m Hc) as (Hout & _).
  rewrite Hout.
  pose proof (sortBy_stable descendingPriority (fun r => - r_priority r)
                descendingPriority_key (pendingSlotRequests m) (- k)) as H.
  rewrite (filter_ext (fun r => r_priority r =? k)
                      (fun r => - r_priority r =? - k)).
  - rewrite H. apply filter_ext. intros r.
    destruct (Z.eqb_spec (- r_priority r) (- k)), (Z.eqb_spec (r_priority r) k);
      try reflexivity; lia.
  - intros r.
    destruct (Z.eqb_spec (- r_priority r) (- k)), (Z.eqb_spec (r_priority r) k);
      try reflexivity; lia.
Qed.

Lemma beacon_slot_kept m s :
  0 < slotsPerFrame m ->
  In s (allGranted (snd (processSlotRequests (becomeCoordinator m)))) -> s <> 0.
Proof.
  intros Hspf Hs.
  assert (Hc : isCoordinator (becomeCoordinator m) = true) by reflexivity.
  destruct (processSlotRequests_run _ Hc) as (_ & _ & _ & Hincl & _).
  apply Hincl in Hs. apply getAvailableSlots_In in Hs. destruct Hs as [_ Hs].
  intros ->. apply Hs. clear Hs Hincl.
  unfold becomeCoordinator. cbv zeta.
  cbn [slotTable set_slotTable deviceId set_assignedSlots set_isCoordinator].
  generalize (slotTable m) as table. generalize (deviceId m) as id.
  induction table as [|[k v] t IH]; cbn [mapSet].
  - cbn. now left.
  - destruct (String.eqb k id).
    + cbn. now left.
    + unfold usedSlots in *. cbn [map concat snd]. apply in_or_app. now right.
Qed.

(** X22: the coordinator serves requests of equal priority in their order
    of arrival. *)
Theorem coordinator_equal_priority_fifo m k :
  isCoordinator m = true ->
  filter (fun r => r_priority r =? k) (map fst (snd (processSlotRequests m))) =
  filter (fun r => r_priority r =? k) (pendingSlotRequests m).
Proof. apply coordinator_fifo. Qed.

Lemma coordinator_equal_priority_fifo_witness :
  filter (fun r => r_priority r =? 5)
    (map fst (snd (processSlotRequests
       (set_pendingSlotRequests
          [mkRequest "A" 1 5; mkRequest "B" 1 9; mkRequest "C" 1 5]
          (set_isCoordinator true (newMAC "K" 20))))))
  = [mkRequest "A" 1 5; mkRequest "C" 1 5].
Proof.
  apply (coordinator_equal_priority_fifo
           (set_pendingSlotRequests
              [mkRequest "A" 1 5; mkRequest "B" 1 9; mkRequest "C" 1 5]
              (set_isCoordinator true (newMAC "K" 20))) 5).
  reflexivity.
Defined.

(** X23: the beacon slot.  In the round of [_processSlotRequests] that
    follows [becomeCoordinator], slot 0 is granted to no request. *)
Theorem coordinator_beacon_slot m s :
  0 < slotsPerFrame m ->
  In s (allGranted (snd (processSlotRequests (becomeCoordinator m)))) -> s <> 0.
Proof. apply beacon_slot_kept. Qed.

Lemma coordinator_beacon_slot_witness :
  1 <> 0.
Proof.
  apply (coordinator_beacon_slot
           (set_pendingSlotRequests [mkRequest "B" 19 5] (newMAC "K" 20)) 1).
  - simpl; lia.
  - vm_compute. tauto.
Defined.

End CoordinatorOrder.

(** ** Utilities: the ring buffer *)

Section Ring.
Import Helpers.

Context {A : Type}.
Variable zero : A.





Lemma contents_length rb : length (contents zero rb) = available rb.
Proof. unfold contents. now rewrite length_map, length_seq. Qed.






Lemma advance_contents rb :
  ringOk rb -> (0 < available rb)%nat ->
  let rb' := mkRing (buffer rb) (size rb) (writeIndex rb)
               ((readIndex rb + 1) mod size rb)%nat (available rb - 1) in
  ringOk rb' /\
  contents zero rb = nth (readIndex rb) (buffer rb) zero :: contents zero rb'.
Proof.
  intros (Hlen & Hsize & Hr & Ha & Hw) Hpos. cbv zeta. split.
  - unfold ringOk. cbn [buffer size readIndex available writeIndex].
    repeat split; try lia.
    + apply Nat.mod_upper_bound. lia.
    + rewrite Hw, Nat.Div0.add_mod_idemp_l. f_equal. lia.
  - unfold contents. cbn [buffer size readIndex available].
    destruct (available rb) as [|a]; [lia|].
    cbn [seq map]. rewrite Nat.add_0_r, Nat.mod_small by exact Hr.
    f_equal. rewrite <- seq_shift, map_map.
    replace (S a - 1)%nat with a by lia.
    apply map_ext. intros k. rewrite Nat.Div0.add_mod_idemp_l.
    do 2 f_equal. lia.
Qed.

Lemma readLoop_spec n :
  forall rb output, ringOk rb -> (n <= available rb)%nat ->
  let '(rb', out) := readLoop zero n rb output in
  out = output ++ firstn n (contents zero rb) /\
  contents zero rb' = skipn n (contents zero rb) /\
  ringOk rb' /\
  available rb' = (available rb - n)%nat /\
  size rb' = size rb.
Proof.
  induction n as [|n IH]; intros rb output Hok Hn.
  - cbn. rewrite app_nil_r, Nat.sub_0_r.
    split; [reflexivity|]. split; [reflexivity|]. split; [exact Hok|]. now split.
  - cbn [readLoop].
    destruct (advance_contents rb Hok ltac:(lia)) as (Hok' & Hc). cbv zeta in *.
    specialize (IH _ (output ++ [nth (readIndex rb) (buffer rb) zero]) Hok').
    cbn [available] in IH. specialize (IH ltac:(lia)).
    destruct (readLoop zero n _ _) as [rb' out].
    destruct IH as (Hout & Hcont & Hok2 & Hav & Hsz).
    rewrite Hc. cbn [firstn skipn size] in *.
    rewrite Hout, <- app_assoc.
    split; [reflexivity|]. split; [exact Hcont|]. split; [exact Hok2|].
    split; [lia | exact Hsz].
Qed.

Lemma read_spec n rb :
  ringOk rb ->
  let '(rb', out) := read zero n rb in
  out = firstn n (contents zero rb) /\
  contents zero rb' = skipn n (contents zero rb) /\
  ringOk rb' /\
  available rb' = (available rb - n)%nat.
Proof.
  intros Hok. unfold read.
  pose proof (readLoop_spec (Nat.min n (available rb)) rb [] Hok (Nat.le_min_r _ _)) as H.
  destruct (readLoop zero _ rb []) as [rb' out].
  destruct H as (Hout & Hcont & Hok' & Hav & _).
  pose proof (contents_length rb) as Hcl.
  cbn [app] in Hout.
  destruct (Nat.le_ge_cases n (available rb)) as [Hle|Hge].
  - rewrite Nat.min_l in * by exact Hle.
    split; [exact Hout|]. split; [exact Hcont|]. split; [exact Hok'|exact Hav].
  - rewrite Nat.min_r in * by exact Hge.
    rewrite firstn_all2 by lia. rewrite skipn_all2 by lia.
    rewrite <- Hcl, firstn_all in Hout. rewrite <- Hcl, skipn_all in Hcont.
    split; [exact Hout|]. split; [exact Hcont|]. split; [exact Hok'|lia].
Qed.

Lemma peekLoop_spec n :
  forall rb k output, (0 < size rb)%nat ->
  peekLoop zero n rb ((readIndex rb + k) mod size rb)%nat output =
  output ++ map (fun j => nth ((readIndex rb + j) mod size rb) (buffer rb) zero)
                (seq k n).
Proof.
  induction n as [|n IH]; intros rb k output Hsize.
  - cbn. now rewrite app_nil_r.
  - cbn [peekLoop seq map]. rewrite Nat.Div0.add_mod_idemp_l.
    replace (readIndex rb + k + 1)%nat with (readIndex rb + S k)%nat by lia.
    rewrite IH by exact Hsize. now rewrite <- app_assoc.
Qed.

Lemma firstn_seq_min n : forall s a, firstn n (seq s a) = seq s (Nat.min n a).
Proof.
  induction n as [|n IH]; intros s [|a]; try reflexivity.
  cbn [seq firstn Nat.min]. f_equal. apply IH.
Qed.

Lemma peek_spec n rb :
  ringOk rb -> peek zero n rb = firstn n (contents zero rb).
Proof.
  intros (Hlen & Hsize & Hr & Ha & Hw). unfold peek.
  rewrite <- (Nat.mod_small (readIndex rb) (size rb)) at 1 by exact Hr.
  rewrite <- (Nat.add_0_r (readIndex rb)) at 1.
  rewrite peekLoop_spec by exact Hsize. cbn [app].
  unfold contents. rewrite firstn_map. f_equal.
  now rewrite firstn_seq_min.
Qed.





(** X25: [read] and [peek] on a ring buffer.  [read(n)] returns the [n]
    oldest samples waiting (all of them when fewer wait) and leaves the
    others; [peek(n)] returns the same samples and leaves the buffer as it
    is. *)
Theorem ringBuffer_read n rb :
  ringOk rb ->
  let '(rb', out) := read zero n rb in
  out = firstn n (contents zero rb) /\
  contents zero rb' = skipn n (contents zero rb) /\
  ringOk rb' /\
  available rb' = (available rb - n)%nat /\
  peek zero n rb = out.
Proof.
  intros Hok. pose proof (read_spec n rb Hok) as H.
  destruct (read zero n rb) as [rb' out].
  destruct H as (H1 & H2 & H3 & H4).
  split; [exact H1|]. split; [exact H2|]. split; [exact H3|]. split; [exact H4|].
  rewrite H1. now apply peek_spec.
Qed.


End Ring.

Section RingExamples.
Import Helpers.


Lemma ringBuffer_read_witness :
  let '(rb', out) := read 0 2 (write [1; 2; 3; 4] (newRing 0 3)) in
  out = firstn 2 (contents 0 (write [1; 2; 3; 4] (newRing 0 3))) /\
  contents 0 rb' =
    skipn 2 (contents 0 (write [1; 2; 3; 4] (newRing 0 3))) /\
  ringOk rb' /\
  available rb' =
    (available (write [1; 2; 3; 4] (newRing 0 3)) - 2)%nat /\
  peek 0 2 (write [1; 2; 3; 4] (newRing 0 3)) = out.
Proof.
  apply (ringBuffer_read 0 2 (write [1; 2; 3; 4] (newRing 0 3))).
  unfold ringOk. simpl. repeat split; lia.
Defined.


End RingExamples.

(** ** Utilities: the checksum *)

Section Checksum.
Import Helpers.

Lemma lxor_u8 a b : u8 a -> u8 b -> u8 (Z.lxor a b).
Proof.
  unfold u8. intros Ha Hb.
  assert (H0 : 0 <= Z.lxor a b) by (apply Z.lxor_nonneg; lia).
  split; [exact H0|].
  destruct (Z.eq_dec (Z.lxor a b) 0) as [->|Hne]; [lia|].
  change 256 with (2 ^ 8). apply Z.log2_lt_pow2; [lia|].
  apply (Z.le_lt_trans _ (Z.max (Z.log2 a) (Z.log2 b))); [apply Z.log2_lxor; lia|].
  apply Z.max_lub_lt.
  - destruct (Z.eq_dec a 0) as [->|]; [cbn; lia|]. apply Z.log2_lt_pow2; lia.
  - destruct (Z.eq_dec b 0) as [->|]; [cbn; lia|]. apply Z.log2_lt_pow2; lia.
Qed.

Lemma bxor_u8 a b : u8 a -> u8 b -> JS.bxor a b = Z.lxor a b.
Proof.
  intros Ha Hb. pose proof (lxor_u8 a b Ha Hb) as Hx. unfold u8 in *.
  unfold JS.bxor. rewrite (toInt32_id a), (toInt32_id b) by lia.
  apply toInt32_id. lia.
Qed.

Lemma fold_lxor_acc data acc :
  fold_left Z.lxor data acc = Z.lxor acc (xorAll data).
Proof.
  unfold xorAll. revert acc. induction data as [|x rest IH]; intros acc.
  - cbn. now rewrite Z.lxor_0_r.
  - rewrite !fold_left_cons, IH, (IH (Z.lxor 0 x)).
    rewrite Z.lxor_0_l. now rewrite Z.lxor_assoc.
Qed.

Lemma xorAll_cons x data : xorAll (x :: data) = Z.lxor x (xorAll data).
Proof.
  unfold xorAll at 1. rewrite fold_left_cons, fold_lxor_acc. now rewrite Z.lxor_0_l.
Qed.

Lemma xorAll_app a b : xorAll (a ++ b) = Z.lxor (xorAll a) (xorAll b).
Proof.
  induction a as [|x a IH]; [now rewrite Z.lxor_0_l|].
  cbn [app]. rewrite !xorAll_cons, IH. now rewrite Z.lxor_assoc.
Qed.

Lemma xorAll_perm a b : Permutation a b -> xorAll a = xorAll b.
Proof.
  induction 1 as [|x a b Hp IH|x y a|a b c H1 IH1 H2 IH2].
  - reflexivity.
  - now rewrite !xorAll_cons, IH.
  - rewrite !xorAll_cons, <- !Z.lxor_assoc. f_equal. apply Z.lxor_comm.
  - congruence.
Qed.

Lemma checksum_fold data :
  bytes data -> forall acc, u8 acc ->
  fold_left (fun checksum b => JS.bxor checksum b) data acc = fold_left Z.lxor data acc /\
  u8 (fold_left Z.lxor data acc).
Proof.
  induction 1 as [|x rest Hx Hrest IH]; intros acc Hacc.
  - split; [reflexivity | exact Hacc].
  - rewrite !fold_left_cons, bxor_u8 by assumption.
    apply IH. now apply lxor_u8.
Qed.

Lemma calculateChecksum_xor data :
  bytes data -> calculateChecksum data = xorAll data /\ u8 (xorAll data).
Proof. intros Hb. apply (checksum_fold data Hb 0). unfold u8. lia. Qed.

Lemma calculateChecksum_facts data :
  bytes data ->
  u8 (calculateChecksum data) /\
  calculateChecksum (data ++ [calculateChecksum data]) = 0 /\
  (forall data', Permutation data data' ->
     calculateChecksum data' = calculateChecksum data) /\
  (forall i v, (i < length data)%nat -> u8 v -> v <> load data i ->
     calculateChecksum (store i v data) <> calculateChecksum data).
Proof.
  intros Hb. destruct (calculateChecksum_xor data Hb) as [Hc Hu].
  split; [now rewrite Hc|]. split; [|split].
  - assert (Hb' : bytes (data ++ [calculateChecksum data])).
    { apply Forall_app. split; [exact Hb|]. constructor; [now rewrite Hc | constructor]. }
    rewrite (proj1 (calculateChecksum_xor _ Hb')), Hc.
    rewrite xorAll_app, xorAll_cons. cbn [xorAll fold_left].
    rewrite Z.lxor_0_r. apply Z.lxor_nilpotent.
  - intros data' Hp.
    assert (Hb' : bytes data').
    { apply Forall_forall. intros x Hx. apply Permutation_sym in Hp.
      unfold bytes in Hb. rewrite Forall_forall in Hb.
      apply Hb. now apply (Permutation_in _ Hp). }
    rewrite (proj1 (calculateChecksum_xor _ Hb')), Hc.
    symmetry. now apply xorAll_perm.
  - intros i v Hi Hv Hne.
    rewrite (proj1 (calculateChecksum_xor _ (store_bytes i v data Hb))), Hc.
    destruct (store_split i v data Hi) as [Hd Hs].
    assert (Hx : xorAll data =
                 Z.lxor (xorAll (firstn i data))
                        (Z.lxor (load data i) (xorAll (skipn (S i) data)))).
    { rewrite Hd at 1. now rewrite xorAll_app, xorAll_cons. }
    rewrite Hs, Hx. clear Hd Hs Hx.
    rewrite !xorAll_app, !xorAll_cons. unfold u8 in Hv.
    rewrite (Z.mod_small v 256) by lia.
    intros Heq. apply lxor_cancel_l, lxor_cancel_r in Heq. contradiction.
Qed.

(** X27: the XOR checksum of a byte buffer is a byte; the buffer followed by
    its checksum has checksum 0; a reordering of the bytes leaves the
    checksum as it is; and replacing one byte by a different byte changes
    it. *)
Theorem calculateChecksum_properties data :
  bytes data ->
  u8 (calculateChecksum data) /\
  calculateChecksum (data ++ [calculateChecksum data]) = 0 /\
  (forall data', Permutation data data' ->
     calculateChecksum data' = calculateChecksum data) /\
  (forall i v, (i < length data)%nat -> u8 v -> v <> load data i ->
     calculateChecksum (store i v data) <> calculateChecksum data).
Proof. apply calculateChecksum_facts. Qed.

Lemma calculateChecksum_properties_witness :
  calculateChecksum ([0x12; 0x34; 0xFF] ++ [calculateChecksum [0x12; 0x34; 0xFF]]) = 0.
Proof.
  apply (calculateChecksum_properties [0x12; 0x34; 0xFF]).
  repeat constructor; unfold u8; lia.
Defined.

End Checksum.

(** ** MAC layer: frame starts and released slots *)

Section FrameStarts.
Import MAC.

Lemma processSlotRequests_answers m :
  Permutation (map fst (snd (processSlotRequests m))) (pendingSlotRequests m) /\
  pendingSlotRequests (fst (processSlotRequests m)) = [].
Proof.
  destruct (negb (isCoordinator m) && (0 <? length (pendingSlotRequests m))%nat)
    eqn:Hcond.
  - apply andb_true_iff in Hcond. destruct Hcond as [Hc Hp].
    apply negb_true_iff in Hc.
    assert (Hne : pendingSlotRequests m <> []).
    { intros E. rewrite E in Hp. discriminate. }
    destruct (contention_spec m Hc Hne) as [H1 H2].
    split; [|exact H2].
    rewrite H1, map_map. cbn [fst]. now rewrite map_id.
  - rewrite processSlotRequests_coordinator by exact Hcond. cbv zeta.
    cbn [fst snd].
    destruct (assignAll_spec (sortBy descendingPriority (pendingSlotRequests m))
                m (getAvailableSlots m) []) as (H1 & _).
    cbn [map app] in H1. split; [|reflexivity].
    rewrite H1. apply sortBy_perm.
Qed.

Lemma processSlotRequests_idle m :
  pendingSlotRequests m = [] ->
  processSlotRequests m = (set_pendingSlotRequests [] m, []).
Proof.
  intros Hp. unfold processSlotRequests. rewrite Hp.
  cbn [length Nat.ltb Nat.leb]. rewrite andb_false_r. reflexivity.
Qed.

(** X28: every pending request is answered at the frame start that follows
    it, and only there.  [_onFrameStart] sends one response per pending
    request and empties the pending list; a frame start with nothing pending
    sends no response and leaves the slot table and the assigned slots as
    they are. *)
Theorem onFrameStart_answers_once m :
  let '(m1, out1) := onFrameStart m in
  Permutation (map fst out1) (pendingSlotRequests m) /\
  pendingSlotRequests m1 = [] /\
  snd (onFrameStart m1) = [] /\
  slotTable (fst (onFrameStart m1)) = slotTable m1 /\
  assignedSlots (fst (onFrameStart m1)) = assignedSlots m1.
Proof.
  unfold onFrameStart at 1. cbv zeta.
  destruct (processSlotRequests_answers (set_currentSlot 0 m)) as [Hperm Hpend].
  destruct (processSlotRequests (set_currentSlot 0 m)) as [m' out] eqn:Hrun.
  cbn [fst snd] in Hperm, Hpend.
  split; [exact Hperm|]. split; [exact Hpend|].
  unfold onFrameStart. cbv zeta.
  rewrite processSlotRequests_idle by exact Hpend.
  repeat split.
Qed.

Lemma usedSlots_In s table :
  In s (usedSlots table) <-> exists k v, In (k, v) table /\ In s v.
Proof.
  unfold usedSlots. rewrite in_concat. split.
  - intros (v & Hv & Hs). apply in_map_iff in Hv. destruct Hv as ([k v'] & <- & Hin).
    now exists k, v'.
  - intros (k & v & Hin & Hs). exists v. split; [|exact Hs].
    apply in_map_iff. now exists (k, v).
Qed.

(** X29: released slots are free again.  After [releaseSlots] a slot is
    available exactly when it lies in the frame and no other device holds it
    in the slot table; the layer itself holds no slot, and no slot that was
    available stops being available. *)
Theorem releaseSlots_frees_own_slots m s :
  (In s (getAvailableSlots (releaseSlots m)) <->
   0 <= s < slotsPerFrame m /\
   forall k v, In (k, v) (slotTable m) -> k <> deviceId m -> ~ In s v) /\
  assignedSlots (releaseSlots m) = [] /\
  incl (getAvailableSlots m) (getAvailableSlots (releaseSlots m)).
Proof.
  assert (Hiff : forall s,
            In s (getAvailableSlots (releaseSlots m)) <->
            0 <= s < slotsPerFrame m /\
            forall k v, In (k, v) (slotTable m) -> k <> deviceId m -> ~ In s v).
  { intros x. rewrite getAvailableSlots_In.
    unfold releaseSlots. cbv zeta.
    cbn [slotsPerFrame slotTable set_slotTable set_assignedSlots deviceId].
    rewrite usedSlots_In. unfold mapDelete. split.
    - intros [Hr Hn]. split; [exact Hr|]. intros k v Hin Hk Hs.
      apply Hn. exists k, v. split; [|exact Hs].
      apply filter_In. split; [exact Hin|]. cbn [fst].
      apply negb_true_iff, String.eqb_neq. exact Hk.
    - intros [Hr Hn]. split; [exact Hr|]. intros (k & v & Hin & Hs).
      apply filter_In in Hin. destruct Hin as [Hin Hk]. cbn [fst] in Hk.
      apply negb_true_iff, String.eqb_neq in Hk. exact (Hn k v Hin Hk Hs). }
  split; [apply Hiff|]. split; [reflexivity|].
  intros x Hx. apply Hiff. apply getAvailableSlots_In in Hx. destruct Hx as [Hr Hn].
  split; [exact Hr|]. intros k v Hin _ Hs. apply Hn.
  apply usedSlots_In. now exists k, v.
Qed.

End FrameStarts.
